(** * Heuristic negamax search of the Renju engine (src/ai/negamax.cc)

    A shallow embedding of [RenjuAINegamax]: the candidate generator
    [searchMovesOrdered], the recursive [heuristicNegamax] with its
    alpha-beta window, score decay and blocking override, the public
    iterative-deepening overload of [heuristicNegamax], and the exhaustive
    [negamax] baseline.

    Conventions of the embedding.
    - A C [int] is a [Z] kept in the 32-bit two's complement range by
      [Int32.wrap] after every arithmetic operation that could leave it
      (signed overflow is undefined in C++; the wrap-around is what the
      two's complement machine does).
    - A C [float] is an IEEE-754 binary32 value, given by the Standard
      Library's [spec_float] with precision 24 and maximal exponent 128,
      rounding to nearest even; a [double] is the same with 53 and 1024.
    - The board [gs] is the [char] array of the source as a [list Z], cell
      [(r, c)] at index [g_board_size * r + c].
    - The collaborators that live in other translation units
      ([RenjuAIUtils::remoteCell], [RenjuAIEval::evalMove],
      [RenjuAIEval::evalState], the two score thresholds, [g_board_size],
      [std::sort], [std::clock]) are variables of the section. *)

From Stdlib Require Import ZArith List Bool Lia Permutation Sorted.
From Stdlib Require Import Floats.SpecFloat.
Import ListNotations.
Local Open Scope Z_scope.

Set Implicit Arguments.

(** ** C integers *)

Module Int32.

Definition INT_MIN : Z := -2147483648.
Definition INT_MAX : Z := 2147483647.

(** Reduction into the range of [int]. *)
Definition wrap (z : Z) : Z := (z + 2147483648) mod 4294967296 - 2147483648.

Definition add (a b : Z) : Z := wrap (a + b).
Definition sub (a b : Z) : Z := wrap (a - b).
Definition neg (a : Z) : Z := wrap (- a).

(** [std::abs] on [int]. *)
Definition abs (a : Z) : Z := wrap (Z.abs a).

(** [(char)player]: the low byte, read as a signed char. *)
Definition to_char (z : Z) : Z := (z + 128) mod 256 - 128.

Definition in_range (z : Z) : Prop := INT_MIN <= z <= INT_MAX.

End Int32.

(** ** C floats *)

Module F32.

Definition prec : Z := 24.
Definition emax : Z := 128.

(** Conversion [int -> float]. *)
Definition of_int (z : Z) : spec_float := binary_normalize prec emax z 0 false.

Definition mul : spec_float -> spec_float -> spec_float := SFmul prec emax.
Definition div : spec_float -> spec_float -> spec_float := SFdiv prec emax.

(** Conversion [float -> int]: truncation toward zero. *)
Definition to_int (f : spec_float) : Z :=
  match f with
  | S754_finite s m e =>
      let v := if 0 <=? e then Z.pos m * 2 ^ e else Z.quot (Z.pos m) (2 ^ (- e)) in
      if s then - v else v
  | _ => 0
  end.

(** [0.95f], the binary32 value nearest to 0.95. *)
Definition kScoreDecayFactor : spec_float := S754_finite false 15938355 (-24).

(** Promotion [float -> double] (exact). *)
Definition to_double (f : spec_float) : spec_float :=
  match f with
  | S754_finite s m e => binary_normalize 53 1024 (cond_Zopp s (Z.pos m)) e s
  | _ => f
  end.

(** The [double] literal [0.2]. *)
Definition c0_2 : spec_float := S754_finite false 7205759403792794 (-55).

Definition is_zero (f : spec_float) : bool :=
  match f with S754_zero _ => true | _ => false end.

End F32.

(** [if (score >= 10) score *= kScoreDecayFactor;] on an [int] score: the
    product is taken in [float] and truncated back to [int]. *)
Definition decay (score : Z) : Z :=
  if 10 <=? score then F32.to_int (F32.mul (F32.of_int score) F32.kScoreDecayFactor)
  else score.

(** [(max_score - b_score) / (float)std::abs(b_score) < 0.2]: the quotient is
    a [float], promoted to [double] for the comparison with the literal. *)
Definition blocking_close (max_score b_score : Z) : bool :=
  SFltb (F32.to_double
           (F32.div (F32.of_int (Int32.sub max_score b_score))
                    (F32.of_int (Int32.abs b_score))))
        F32.c0_2.

(** 2^24 and 2^23: an [int] below 2^24 in magnitude converts to [float]
    without rounding, and a [float] mantissa lies between 2^23 and 2^24. *)
Definition P24 : Z := 16777216.
Definition P23 : Z := 8388608.

(** The mantissa of the largest [float] below the [double] 0.2, which is
    13421772 * 2^-26. *)
Definition N02 : Z := 13421772.

(** ** Moves *)

Module Move.

(** Modelled from the spec: the [Move] struct is declared in negamax.h,
    which is not part of the sources at hand; the spec gives it the fields
    row, column, [heuristic_val] and [actual_score]. *)
Record t : Type := mk { r : Z; c : Z; heuristic_val : Z; actual_score : Z }.

(** Modelled from the spec: [operator<] of [Move], also from negamax.h;
    moves are ordered by [heuristic_val], larger first. *)
Definition lt (a b : t) : Prop := heuristic_val a > heuristic_val b.

(** What [std::sort] guarantees of two elements it leaves in this order:
    the later one is not [lt] the earlier one. *)
Definition ge (a b : t) : Prop := heuristic_val a >= heuristic_val b.

Definition cell (m : t) : Z * Z := (r m, c m).

Definition set_actual_score (s : Z) (m : t) : t :=
  mk (r m) (c m) (heuristic_val m) s.

Definition set_heuristic_val (h : Z) (m : t) : t :=
  mk (r m) (c m) h (actual_score m).

End Move.

(** ** Loops and arrays *)

(** The values of [i] in [for (i = lo; i <= hi; ++i)]. *)
Definition zrange (lo hi : Z) : list Z :=
  map (fun i => lo + Z.of_nat i) (seq 0 (Z.to_nat (hi - lo + 1))).

(** [a[i] = v] on an array held as a list; outside the array nothing is
    written (the C access would be undefined). *)
Fixpoint list_set (A : Type) (l : list A) (i : nat) (v : A) : list A :=
  match l, i with
  | [], _ => []
  | _ :: t, O => v :: t
  | x :: t, S j => x :: list_set t j v
  end.

(** [a[i]]; outside the array the model reads 0 (the C access would be
    undefined). *)
Definition array_get (gs : list Z) (i : Z) : Z :=
  if i <? 0 then 0 else nth (Z.to_nat i) gs 0.

Definition array_set (gs : list Z) (i : Z) (v : Z) : list Z :=
  if i <? 0 then gs else list_set gs (Z.to_nat i) v.

(** The number of stones on a board. *)
Definition stones (gs : list Z) : nat :=
  length (filter (fun x => negb (x =? 0)) gs).

(** [memcpy(dst, src, n)] into a fresh buffer of [n] chars. *)
Definition memcpy (src : list Z) (n : Z) : list Z := firstn (Z.to_nat n) src.

(** What a call leaves behind: the returned score, the board array, the
    cell last written through [move_r] and [move_c] (if any), and the global
    [g_node_count] (a diagnostic counter, counted without wrap-around). *)
Record Outcome : Type := mkOutcome {
  score : Z;
  board : list Z;
  written : option (Z * Z);
  node_count : Z
}.

(** The values held in [*move_r], [*move_c] after a call that made the
    writes [w], when they held [old] before. *)
Definition store (A : Type) (w : option A) (old : option A) : option A :=
  match w with Some _ => w | None => old end.

(** The local state of the candidate loop of [heuristicNegamax]. *)
Record Frame : Type := mkFrame {
  f_gs : list Z;
  f_nodes : Z;
  f_cands : list Move.t;
  f_max : Z;
  f_alpha : Z;
  f_move : option (Z * Z)
}.

(** The extent of the occupied cells in [searchMovesOrdered]. *)
Record Extent : Type := mkExtent { min_r : Z; min_c : Z; max_r : Z; max_c : Z }.

(** What the public overload leaves behind: the caller's (const) board, the
    values written through [actual_depth], [move_r] and [move_c], the node
    counter and the number of [std::clock] calls made. *)
Record Report : Type := mkReport {
  caller_gs : list Z;
  actual_depth : option Z;
  move : option (Z * Z);
  nodes : Z;
  clock_calls : nat
}.

Definition kSearchBreadth : Z := 6.
Definition kTopLayerSearchBreadth : Z := 12.
Definition kAvgBranchingFactor : Z := 5.
Definition kAvgMaximumDepth : Z := 16.

(** ** The program *)

Section Negamax.

(** [g_board_size] (utils/globals.h): the side of the board. *)
Variable g_board_size : Z.

(** [RenjuAIUtils::remoteCell], [RenjuAIEval::evalMove] and
    [RenjuAIEval::evalState], each returning a C [bool] or [int]. *)
Variable remoteCell : list Z -> Z -> Z -> bool.
Variable evalMove : list Z -> Z -> Z -> Z -> Z.
Variable evalState : list Z -> Z -> Z.

(** The two thresholds of ai/eval.h. *)
Variable kRenjuAiEvalWinningScore : Z.
Variable kRenjuAiEvalThreateningScore : Z.

(** [std::sort(result->begin(), result->end())]. *)
Variable sort_moves : list Move.t -> list Move.t.

(** [std::clock()]: the reading returned by the call number [n], and the
    number of readings per second. *)
Variable clock : nat -> Z.
Variable CLOCKS_PER_SEC : Z.

(** *** Board utilities *)

(** Modelled from the spec: [RenjuAIUtils::getCell] is defined in
    ai/utils.h, which is not part of the sources at hand; the spec calls it
    a primitive cell read, and negamax.cc reads the same cell as
    [gs[g_board_size * r + c]]. *)
Definition getCell (gs : list Z) (r c : Z) : Z :=
  array_get gs (g_board_size * r + c).

(** Modelled from the spec: [RenjuAIUtils::setCell], from ai/utils.h as
    well; the primitive cell write. *)
Definition setCell (gs : list Z) (r c : Z) (value : Z) : list Z :=
  array_set gs (g_board_size * r + c) value.

(** *** searchMovesOrdered *)

Definition extent_cell (gs : list Z) (r : Z) (e : Extent) (c : Z) : Extent :=
  if negb (array_get gs (g_board_size * r + c) =? 0) then
    mkExtent (if r <? min_r e then r else min_r e)
             (if c <? min_c e then c else min_c e)
             (if r >? max_r e then r else max_r e)
             (if c >? max_c e then c else max_c e)
  else e.

Definition extent_row (gs : list Z) (e : Extent) (r : Z) : Extent :=
  fold_left (extent_cell gs r) (zrange 0 (g_board_size - 1)) e.

Definition find_extent (gs : list Z) : Extent :=
  fold_left (extent_row gs) (zrange 0 (g_board_size - 1))
            (mkExtent Int32.INT_MAX Int32.INT_MAX Int32.INT_MIN Int32.INT_MIN).

Definition clamp_extent (e : Extent) : Extent :=
  mkExtent (if min_r e - 2 <? 0 then 2 else min_r e)
           (if min_c e - 2 <? 0 then 2 else min_c e)
           (if max_r e + 2 >=? g_board_size then g_board_size - 3 else max_r e)
           (if max_c e + 2 >=? g_board_size then g_board_size - 3 else max_c e).

(** The body of the double loop; [actual_score] is left uninitialised by
    the source and is always assigned before it is read: it is 0 here. *)
Definition scan_cell (gs : list Z) (player : Z) (r c : Z) : list Move.t :=
  if negb (array_get gs (g_board_size * r + c) =? 0) then []
  else if remoteCell gs r c then []
  else [Move.mk r c (evalMove gs r c player) 0].

Definition scan (gs : list Z) (player : Z) (e : Extent) : list Move.t :=
  flat_map (fun r => flat_map (scan_cell gs player r)
                              (zrange (min_c e - 2) (max_c e + 2)))
           (zrange (min_r e - 2) (max_r e + 2)).

Definition searchMovesOrdered (gs : list Z) (player : Z) : list Move.t :=
  sort_moves (scan gs player (clamp_extent (find_extent gs))).

(** *** heuristicNegamax, the recursive overload *)

Definition opponent_of (player : Z) : Z := if player =? 1 then 2 else 1.

(** One turn of the loop over [candidate_moves], at index [i], for the
    candidate [move]; [child] is the recursive call. Returns the state after
    the turn and whether the loop was left by [break]. *)
Definition search_step
    (child : Z -> list Z -> Z -> Z -> Z -> Outcome)
    (player : Z) (enable_ab_pruning : bool) (beta : Z)
    (st : Frame) (i : nat) (move : Move.t) : Frame * bool :=
  let opponent := opponent_of player in
  let gs1 := setCell (f_gs st) (Move.r move) (Move.c move) (Int32.to_char player) in
  let res := child (f_nodes st) gs1 opponent (Int32.neg beta)
                   (Int32.add (Int32.neg (f_alpha st)) (Move.heuristic_val move)) in
  let score := decay (score res) in
  let actual := Int32.sub (Move.heuristic_val move) score in
  let cands := match nth_error (f_cands st) i with
               | Some m => list_set (f_cands st) i (Move.set_actual_score actual m)
               | None => f_cands st
               end in
  let gs2 := setCell (board res) (Move.r move) (Move.c move) 0 in
  let max_score := if actual >? f_max st then actual else f_max st in
  let mv := if actual >? f_max st then Some (Move.r move, Move.c move) else f_move st in
  let max_score_decayed := decay max_score in
  let alpha := if max_score >? f_alpha st then max_score else f_alpha st in
  (mkFrame gs2 (node_count res) cands max_score alpha mv,
   enable_ab_pruning && (max_score_decayed >=? beta)).

(** [for (int i = 0; i < size; ++i)], entered at index [i] with the
    candidates [todo] still to visit. *)
Fixpoint search_loop
    (child : Z -> list Z -> Z -> Z -> Z -> Outcome)
    (player : Z) (enable_ab_pruning : bool) (beta : Z)
    (todo : list Move.t) (i : nat) (st : Frame) : Frame :=
  match todo with
  | [] => st
  | move :: rest =>
      let (st', stop) := search_step child player enable_ab_pruning beta st i move in
      if stop then st'
      else search_loop child player enable_ab_pruning beta rest (S i) st'
  end.

(** [if (b_score == 0) b_score = 1;] *)
Definition guard_b_score (b_score : Z) : Z := if b_score =? 0 then 1 else b_score.

(** The blocking override on the state the loop has left. *)
Definition blocking_override
    (depth initial_depth : Z) (block_opponent : bool) (st : Frame) : Z * option (Z * Z) :=
  if (depth =? initial_depth) && block_opponent && (f_max st <? 0) then
    match f_cands st with
    | blocking_move :: _ =>
        let b_score := guard_b_score (Move.actual_score blocking_move) in
        if blocking_close (f_max st) b_score then
          (Move.actual_score blocking_move,
           Some (Move.r blocking_move, Move.c blocking_move))
        else (f_max st, f_move st)
    | [] => (f_max st, f_move st)
    end
  else (f_max st, f_move st).

(** [block_opponent], decided on the first element of [moves_opponent]. *)
Definition threatened (moves_opponent : list Move.t) : bool :=
  match moves_opponent with
  | m :: _ => Move.heuristic_val m >=? kRenjuAiEvalThreateningScore
  | [] => false
  end.

Definition breadth_at (depth initial_depth : Z) : Z :=
  if Z.shiftr (depth + 1) 1 =? Z.shiftr initial_depth 1
  then kTopLayerSearchBreadth else kSearchBreadth.

(** [candidate_moves] as the two copy loops fill it. *)
Definition candidates (gs : list Z) (player : Z) (depth initial_depth : Z)
    (moves_player moves_opponent : list Move.t) : list Move.t :=
  (if threatened moves_opponent then
     map (fun m => Move.set_heuristic_val
                     (evalMove gs (Move.r m) (Move.c m) player) m)
         (firstn 2 moves_opponent)
   else [])
  ++ firstn (Z.to_nat (breadth_at depth initial_depth)) moves_player.

(** The body of [heuristicNegamax] below the leaf test, with the recursive
    call as the parameter [child]. *)
Definition heuristicNegamax_node
    (child : Z -> list Z -> Z -> Z -> Z -> Outcome)
    (g_node_count : Z) (gs : list Z) (player : Z) (initial_depth depth : Z)
    (enable_ab_pruning : bool) (alpha beta : Z) : Outcome :=
  let g_node_count := g_node_count + 1 in
  let max_score := Int32.INT_MIN in
  let opponent := opponent_of player in
  let moves_player := searchMovesOrdered gs player in
  let moves_opponent := searchMovesOrdered gs opponent in
  match moves_player with
  | [] => mkOutcome 0 gs None g_node_count
  | move :: others =>
      if (length moves_player =? 1)%nat
         || (Move.heuristic_val move >=? kRenjuAiEvalWinningScore)
      then mkOutcome (Move.heuristic_val move) gs
                     (Some (Move.r move, Move.c move)) g_node_count
      else
        let block_opponent := threatened moves_opponent in
        let candidate_moves :=
          candidates gs player depth initial_depth moves_player moves_opponent in
        let st := search_loop child player enable_ab_pruning beta candidate_moves 0
                    (mkFrame gs g_node_count candidate_moves max_score alpha None) in
        let (result, mv) := blocking_override depth initial_depth block_opponent st in
        mkOutcome result (f_gs st) mv (f_nodes st)
  end.

(** [heuristicNegamax(gs, player, initial_depth, depth, enable_ab_pruning,
    alpha, beta, move_r, move_c)]. The remaining [depth] is the argument of
    the recursion: every call of the source passes a non-negative one. *)
Fixpoint heuristicNegamax
    (g_node_count : Z) (gs : list Z) (player : Z) (initial_depth : Z) (depth : nat)
    (enable_ab_pruning : bool) (alpha beta : Z) {struct depth} : Outcome :=
  match depth with
  | O => mkOutcome 0 gs None g_node_count
  | S d =>
      heuristicNegamax_node
        (fun n gs' player' alpha' beta' =>
           heuristicNegamax n gs' player' initial_depth d enable_ab_pruning alpha' beta')
        g_node_count gs player initial_depth (Z.of_nat depth)
        enable_ab_pruning alpha beta
  end.

(** *** heuristicNegamax, the public overload *)

(** [for (int i = 0; i < gs_size; i++) if (_gs[i] != 0) _cnt++;] *)
Definition count_stones (_gs : list Z) (gs_size : Z) : Z :=
  fold_left (fun _cnt i => if negb (array_get _gs i =? 0) then _cnt + 1 else _cnt)
            (zrange 0 (gs_size - 1)) 0.

Definition full_alpha : Z := Z.quot Int32.INT_MIN 2.
Definition full_beta : Z := Z.quot Int32.INT_MAX 2.

(** [for (int d = 4;; d += 2)], entered at depth [d] after [ticks] calls
    of [std::clock], with [mv] in the move slots. The loop leaves at
    [kAvgMaximumDepth] at the latest; [fuel] bounds the number of further
    turns, and [None] is a loop that would need more. [clock_t] arithmetic
    is 64-bit and written without wrap-around. *)
Fixpoint iterative_deepening
    (fuel : nat) (gs : list Z) (gs_size : Z) (player : Z) (time_limit : Z)
    (enable_ab_pruning : bool) (c_start : Z) (d : Z) (ticks : nat)
    (g_node_count : Z) (mv : option (Z * Z)) {struct fuel} : option Report :=
  let c_iteration_start := clock ticks in
  let _gs := memcpy gs gs_size in
  let res := heuristicNegamax g_node_count _gs player d (Z.to_nat d)
                              enable_ab_pruning full_alpha full_beta in
  let mv := store (written res) mv in
  let c_iteration :=
    Z.quot ((clock (ticks + 1)%nat - c_iteration_start) * 1000) CLOCKS_PER_SEC in
  let c_elapsed :=
    Z.quot ((clock (ticks + 2)%nat - c_start) * 1000) CLOCKS_PER_SEC in
  if (d >=? kAvgMaximumDepth)
     || (c_elapsed + c_iteration * kAvgBranchingFactor * 2 >? time_limit)
  then Some (mkReport gs (Some d) mv (node_count res) (ticks + 3))
  else
    match fuel with
    | O => None
    | S fuel' =>
        iterative_deepening fuel' gs gs_size player time_limit enable_ab_pruning
                            c_start (d + 2) (ticks + 3) (node_count res) mv
    end.

(** [heuristicNegamax(gs, player, depth, time_limit, enable_ab_pruning,
    actual_depth, move_r, move_c)]. *)
Definition heuristicNegamax_driver
    (g_node_count : Z) (gs : list Z) (player : Z) (depth : Z) (time_limit : Z)
    (enable_ab_pruning : bool) : option Report :=
  if (depth =? 0) || (depth <? -1) then Some (mkReport gs None None g_node_count 0)
  else
    let gs_size := g_board_size * g_board_size in
    let _gs := memcpy gs gs_size in
    let _cnt := count_stones _gs gs_size in
    let depth := if _cnt <=? 2 then 6 else depth in
    if depth >? 0 then
      let res := heuristicNegamax g_node_count _gs player depth (Z.to_nat depth)
                                  enable_ab_pruning full_alpha full_beta in
      Some (mkReport gs (Some depth) (written res) (node_count res) 0)
    else
      let c_start := clock 0%nat in
      iterative_deepening 6 gs gs_size player time_limit enable_ab_pruning
                          c_start 4 1 g_node_count None.

(** *** negamax *)

(** The body of the double loop of [negamax] at the cell [(r, c)];
    [child] is the recursive call and the state is the board, [max_score]
    and the cell written through [move_r], [move_c]. *)
Definition negamax_cell
    (child : list Z -> Z -> Z * list Z) (player : Z)
    (st : list Z * Z * option (Z * Z)) (rc : Z * Z) : list Z * Z * option (Z * Z) :=
  let '(gs, max_score, mv) := st in
  let (r, c) := rc in
  if negb (getCell gs r c =? 0) then st
  else if remoteCell gs r c then st
  else
    let gs1 := setCell gs r c (Int32.to_char player) in
    let (v, gs2) := child gs1 (opponent_of player) in
    let s := Int32.neg v in
    let gs3 := setCell gs2 r c 0 in
    if s >? max_score then (gs3, s, Some (r, c)) else (gs3, max_score, mv).

(** The cells of the board in row-major order. *)
Definition all_cells : list (Z * Z) :=
  flat_map (fun r => map (fun c => (r, c)) (zrange 0 (g_board_size - 1)))
           (zrange 0 (g_board_size - 1)).

(** [negamax(gs, player, depth, move_r, move_c)]: the score, the board and
    the cell written. *)
Fixpoint negamax (gs : list Z) (player : Z) (depth : nat) {struct depth}
    : Z * list Z * option (Z * Z) :=
  match depth with
  | O => (evalState gs player, gs, None)
  | S d =>
      let '(gs', max_score, mv) :=
        fold_left
          (negamax_cell (fun g p => let '(v, g', _) := negamax g p d in (v, g')) player)
          all_cells (gs, Int32.INT_MIN, None) in
      (max_score, gs', mv)
  end.

(** *** Reference definitions

    The notions the statements below are written with: they follow the
    description of the search, not the code. *)

(** A stone lies on the cell [(r, c)] of the board. *)
Definition occupied (gs : list Z) (r c : Z) : Prop :=
  0 <= r < g_board_size /\ 0 <= c < g_board_size /\ getCell gs r c <> 0.

(** The axis-aligned bounding box of the occupied cells. *)
Definition bounding_box (gs : list Z) (rmin cmin rmax cmax : Z) : Prop :=
  (forall r c, occupied gs r c -> rmin <= r <= rmax /\ cmin <= c <= cmax)
  /\ (exists c, occupied gs rmin c) /\ (exists c, occupied gs rmax c)
  /\ (exists r, occupied gs r cmin) /\ (exists r, occupied gs r cmax).

(** A cell the generator is to return: inside the box, whose minimum has the
    floor 2 and whose maximum has the ceiling [g_board_size - 3] before it
    is expanded by 2; empty; not remote. *)
Definition candidate_cell (gs : list Z) (rmin cmin rmax cmax : Z) (r c : Z) : Prop :=
  Z.max rmin 2 - 2 <= r <= Z.min rmax (g_board_size - 3) + 2
  /\ Z.max cmin 2 - 2 <= c <= Z.min cmax (g_board_size - 3) + 2
  /\ getCell gs r c = 0
  /\ remoteCell gs r c = false.

(** The cell [rc] is empty and not remote. *)
Definition free_near (gs : list Z) (rc : Z * Z) : bool :=
  (getCell gs (fst rc) (snd rc) =? 0) && negb (remoteCell gs (fst rc) (snd rc)).

(** The move on the cell [rc] with its score for the player. *)
Definition scored (gs : list Z) (player : Z) (rc : Z * Z) : Move.t :=
  Move.mk (fst rc) (snd rc) (evalMove gs (fst rc) (snd rc) player) 0.

(** The extent loop as one step per cell. *)
Definition extent_step (gs : list Z) (e : Extent) (rc : Z * Z) : Extent :=
  extent_cell gs (fst rc) e (snd rc).

Definition nonzero_at (gs : list Z) (rc : Z * Z) : Prop :=
  getCell gs (fst rc) (snd rc) <> 0.

(** The empty, non-remote cells of the whole board in row-major order. *)
Definition playable (gs : list Z) : list (Z * Z) :=
  filter (free_near gs) all_cells.

(** Keeping the running maximum and the cell that raised it first. *)
Definition pick (vals : Z * Z -> Z) (st : Z * option (Z * Z)) (rc : Z * Z)
    : Z * option (Z * Z) :=
  if vals rc >? fst st then (vals rc, Some rc) else st.

(** The plain negamax value: the evaluation of the state at depth 0, and
    otherwise the maximum over the playable cells of the negated value of
    the position with the player's stone on the cell ([INT_MIN], the
    initial [max_score], when there is none). *)
Fixpoint negamax_value (gs : list Z) (player : Z) (depth : nat) {struct depth} : Z :=
  match depth with
  | O => evalState gs player
  | S d =>
      fold_left Z.max
        (map (fun rc => Int32.neg
                          (negamax_value
                             (setCell gs (fst rc) (snd rc) (Int32.to_char player))
                             (opponent_of player) d))
             (playable gs))
        Int32.INT_MIN
  end.

Definition reply_value (gs : list Z) (player : Z) (d : nat) (rc : Z * Z) : Z :=
  Int32.neg (negamax_value (setCell gs (fst rc) (snd rc) (Int32.to_char player))
                           (opponent_of player) d).

(** One search of the iterative deepening at depth [d], on a fresh copy of
    the caller's board, from the node counter and move slots [st]. *)
Definition search_at (gs : list Z) (player : Z) (enable_ab_pruning : bool)
    (d : Z) (st : Z * option (Z * Z)) : Z * option (Z * Z) :=
  let res := heuristicNegamax (fst st) (memcpy gs (g_board_size * g_board_size))
                              player d (Z.to_nat d) enable_ab_pruning
                              full_alpha full_beta in
  (node_count res, store (written res) (snd st)).

(** The node counter and move slots after the searches at depths
    4, 6, ..., 4 + 2k, run in this order. *)
Fixpoint deepening_run (g_node_count : Z) (gs : list Z) (player : Z)
    (enable_ab_pruning : bool) (k : nat) : Z * option (Z * Z) :=
  match k with
  | O => search_at gs player enable_ab_pruning 4 (g_node_count, None)
  | S k' =>
      search_at gs player enable_ab_pruning (4 + 2 * Z.of_nat k)
                (deepening_run g_node_count gs player enable_ab_pruning k')
  end.

(** The node counter and move slots before the search number [k]. *)
Definition deepening_before (g_node_count : Z) (gs : list Z) (player : Z)
    (enable_ab_pruning : bool) (k : nat) : Z * option (Z * Z) :=
  match k with
  | O => (g_node_count, None)
  | S j => deepening_run g_node_count gs player enable_ab_pruning j
  end.

(** The test that ends the deepening after the search number [k] (at depth
    4 + 2k): the maximum depth is reached, or the time elapsed plus ten
    times the time of this search exceeds the budget. *)
Definition deepening_stop (time_limit : Z) (k : nat) : bool :=
  (4 + 2 * Z.of_nat k >=? kAvgMaximumDepth)
  || (Z.quot ((clock (3 * k + 3)%nat - clock 0%nat) * 1000) CLOCKS_PER_SEC
      + Z.quot ((clock (3 * k + 2)%nat - clock (3 * k + 1)%nat) * 1000) CLOCKS_PER_SEC
        * kAvgBranchingFactor * 2
      >? time_limit).

(** The score the loop of [heuristicNegamax] gives the candidate [m] on the
    board [gs], when [value] is the score of the position below it: the
    heuristic value minus the decayed score of the reply. *)
Definition actual_of (value : list Z -> Z -> Z) (gs : list Z) (player : Z)
    (m : Move.t) : Z :=
  Int32.sub (Move.heuristic_val m)
            (decay (value (setCell gs (Move.r m) (Move.c m) (Int32.to_char player))
                          (opponent_of player))).

(** The best score of a list of candidates and the cell of the first
    candidate that reaches it, from the initial [INT_MIN] and no cell. *)
Definition best_of (actual : Move.t -> Z) (cands : list Move.t) : Z * option (Z * Z) :=
  fold_left (fun st m => if actual m >? fst st then (actual m, Some (Move.cell m))
                         else st)
            cands (Int32.INT_MIN, None).

(** The score and the move of a node as a function of the board alone:
    no board to restore, no counter, no window, no array of candidates. *)
Definition node_result (value : list Z -> Z -> Z) (gs : list Z) (player : Z)
    (initial_depth depth : Z) : Z * option (Z * Z) :=
  match searchMovesOrdered gs player with
  | [] => (0, None)
  | top :: others =>
      if (length (top :: others) =? 1)%nat
         || (Move.heuristic_val top >=? kRenjuAiEvalWinningScore)
      then (Move.heuristic_val top, Some (Move.cell top))
      else
        let moves_opponent := searchMovesOrdered gs (opponent_of player) in
        let cands := candidates gs player depth initial_depth
                                (top :: others) moves_opponent in
        let best := best_of (actual_of value gs player) cands in
        if (depth =? initial_depth) && threatened moves_opponent && (fst best <? 0)
        then
          match cands with
          | blocking_move :: _ =>
              let b := actual_of value gs player blocking_move in
              if blocking_close (fst best) (guard_b_score b)
              then (b, Some (Move.cell blocking_move))
              else best
          | [] => best
          end
        else best
  end.

(** The breadth-limited negamax with decay, without pruning. *)
Fixpoint search_result (gs : list Z) (player : Z) (initial_depth : Z) (depth : nat)
    {struct depth} : Z * option (Z * Z) :=
  match depth with
  | O => (0, None)
  | S d =>
      node_result (fun g p => fst (search_result g p initial_depth d))
                  gs player initial_depth (Z.of_nat depth)
  end.

End Negamax.

(** A bound on the nodes of a search of the given depth: a node visits at
    most 2 blocking candidates and [kTopLayerSearchBreadth] own ones. *)
Fixpoint node_bound (depth : nat) : Z :=
  match depth with
  | O => 0
  | S d => 1 + (2 + kTopLayerSearchBreadth) * node_bound d
  end.

(** The row-major order of the cells: by row, then by column. *)
Definition row_major (a b : Z * Z) : Prop :=
  fst a < fst b \/ (fst a = fst b /\ snd a < snd b).

(** The outcome [o] with [k] more nodes on the counter. *)
Definition shift_nodes (k : Z) (o : Outcome) : Outcome :=
  mkOutcome (score o) (board o) (written o) (node_count o + k).

(** ** A concrete instance

    A 3x3 board, the remoteness test with radius 2, an insertion sort for
    [std::sort], and an evaluator given by a table of scores that depends on
    the number of stones on the board, the player and the cell. *)

Module Example.

Definition N : Z := 3.

Fixpoint insert (m : Move.t) (l : list Move.t) : list Move.t :=
  match l with
  | [] => [m]
  | x :: t =>
      if Move.heuristic_val x >? Move.heuristic_val m then x :: insert m t
      else m :: l
  end.

Definition isort (l : list Move.t) : list Move.t := fold_right insert [] l.

(** No stone within two cells of [(r, c)]. *)
Definition remote2 (gs : list Z) (r c : Z) : bool :=
  forallb (fun i =>
    forallb (fun j =>
      if (0 <=? i) && (i <? N) && (0 <=? j) && (j <? N)
      then array_get gs (N * i + j) =? 0 else true)
      (zrange (c - 2) (c + 2)))
    (zrange (r - 2) (r + 2)).

(** The scores of player 1 and of player 2, one row of nine cells for each
    of 4, 5, 6 and 7 stones on the board; the scores of a row are pairwise
    distinct, so that the order of the sorted candidates is forced. *)
Definition scores1 : list (list Z) :=
  [ [50; 51;  0; 37; 33; 52; 1;  2; 53];
    [50; 51;  0;  1;  2; 52; 3;  4; 53];
    [50; 51; 40;  0;  1; 52; 2;  3; 53];
    [50; 51;  0;  1;  3; 52; 2; 20; 53] ].

Definition scores2 : list (list Z) :=
  [ [50; 51; 0;  1;  2; 52;  3;  4; 53];
    [50; 51; 0;  2; 30; 52;  1;  3; 53];
    [50; 51; 0;  1;  4; 52;  2;  3; 53];
    [50; 51; 0; 15;  1; 52; 27; 12; 53] ].

Definition default_scores : list Z := [0; 1; 2; 3; 4; 5; 6; 7; 8].

Definition score_row (gs : list Z) (player : Z) : list Z :=
  nth (stones gs - 4) (if player =? 1 then scores1 else scores2) default_scores.

Definition table_eval (gs : list Z) (r c player : Z) : Z :=
  nth (Z.to_nat (N * r + c)) (score_row gs player) 0.

(** A state evaluation: the stones of the player minus the others. *)
Definition state_eval (gs : list Z) (player : Z) : Z :=
  fold_left (fun acc x => if x =? player then acc + 1
                          else if x =? 0 then acc else acc - 1) gs 0.

Definition kWinning : Z := 10000.
Definition kThreatening : Z := 20.

(** Stones of player 2 at (0,0), of player 1 at (0,1), (1,2) and (2,2). *)
Definition gs0 : list Z := [2; 1; 0;  0; 0; 1;  0; 0; 1].

(** One free cell, (2,2). *)
Definition gs_one_free : list Z := [1; 2; 1;  2; 1; 2;  2; 1; 0].

(** No stone at all, and a single stone in the centre. *)
Definition gs_empty : list Z := [0; 0; 0;  0; 0; 0;  0; 0; 0].
Definition gs_centre : list Z := [0; 0; 0;  0; 1; 0;  0; 0; 0].

(** No free cell. *)
Definition gs_full : list Z := [1; 2; 1;  2; 1; 2;  2; 1; 2].

(** Calls of [std::clock] one second apart, 1000 readings per second. *)
Definition ticks (n : nat) : Z := Z.of_nat n * 1000.

Definition moves (gs : list Z) (player : Z) : list Move.t :=
  searchMovesOrdered N remote2 table_eval isort gs player.

Definition search_from (gs : list Z) (enable_ab_pruning : bool) (depth : nat) : Outcome :=
  heuristicNegamax N remote2 table_eval kWinning kThreatening isort
                   0 gs 1 (Z.of_nat depth) depth enable_ab_pruning
                   full_alpha full_beta.

Definition search : bool -> nat -> Outcome := search_from gs0.

Definition driver (gs : list Z) (depth time_limit : Z) : option Report :=
  heuristicNegamax_driver N remote2 table_eval kWinning kThreatening isort
                          ticks 1000 0 gs 1 depth time_limit true.

(** An evaluator for the blocking override: player 2 threatens at (0,2);
    for player 1 the cell (0,2) is worth [b], the cell (1,0) is worth [m]
    and every other cell less. *)
Definition block_eval (b m : Z) (gs : list Z) (r c player : Z) : Z :=
  if player =? 1 then
    if (r =? 0) && (c =? 2) then b
    else if (r =? 1) && (c =? 0) then m
    else - (200 + 3 * r + c)
  else
    if (r =? 0) && (c =? 2) then 50 else 3 * r + c.

Definition gs_block : list Z := [1; 2; 0;  0; 0; 0;  0; 0; 0].

(** The leaf call, and the root node of a search of depth 1 above it. *)
Definition block_leaf (b m : Z) (n : Z) (gs : list Z) (player alpha beta : Z) : Outcome :=
  heuristicNegamax N remote2 (block_eval b m) kWinning kThreatening isort
                   n gs player 1 0 true alpha beta.

Definition block_root (b m : Z) : Outcome :=
  heuristicNegamax_node N remote2 (block_eval b m) kWinning kThreatening isort
                        (block_leaf b m) 0 gs_block 1 1 1 true full_alpha full_beta.

(** The candidates of that root and the state its loop leaves. *)
Definition block_cands (b m : Z) : list Move.t :=
  candidates (block_eval b m) kThreatening gs_block 1 1 1
             (searchMovesOrdered N remote2 (block_eval b m) isort gs_block 1)
             (searchMovesOrdered N remote2 (block_eval b m) isort gs_block 2).

Definition block_frame (b m : Z) : Frame :=
  search_loop N (block_leaf b m) 1 true full_beta (block_cands b m) 0
              (mkFrame gs_block 1 (block_cands b m) Int32.INT_MIN full_alpha None).

End Example.

(** ** Arrays and ranges *)

Lemma list_set_restore (A : Type) (l : list A) (i : nat) (v d : A) :
  list_set (list_set l i v) i (nth i l d) = l.
Proof.
  revert i; induction l as [|x t IH]; intros [|j]; simpl; try reflexivity.
  now rewrite IH.
Qed.

Lemma array_set_restore (gs : list Z) (i v : Z) :
  array_get gs i = 0 -> array_set (array_set gs i v) i 0 = gs.
Proof.
  unfold array_get, array_set. destruct (i <? 0); [reflexivity|].
  intros H. rewrite <- H at 1. apply list_set_restore.
Qed.

Lemma in_zrange (lo hi x : Z) : In x (zrange lo hi) <-> lo <= x <= hi.
Proof.
  unfold zrange. rewrite in_map_iff. split.
  - intros (i & <- & Hi). apply in_seq in Hi. lia.
  - intros H. exists (Z.to_nat (x - lo)). split; [lia|]. apply in_seq. lia.
Qed.

Lemma NoDup_map_inj (A B : Type) (f : A -> B) (l : list A) :
  (forall x y, f x = f y -> x = y) -> NoDup l -> NoDup (map f l).
Proof.
  intros Hf; induction 1 as [|x l Hx Hl IH]; simpl; constructor; [|exact IH].
  rewrite in_map_iff. intros (y & Hy & Hin). apply Hf in Hy. now subst.
Qed.

Lemma NoDup_zrange (lo hi : Z) : NoDup (zrange lo hi).
Proof.
  unfold zrange. apply NoDup_map_inj.
  - intros i j H. lia.
  - apply seq_NoDup.
Qed.

Lemma fold_left_flat_map (A B S : Type) (f : S -> B -> S) (g : A -> list B)
      (l : list A) (s : S) :
  fold_left f (flat_map g l) s = fold_left (fun s a => fold_left f (g a) s) l s.
Proof.
  revert s; induction l as [|a l IH]; intros s; simpl; [reflexivity|].
  now rewrite fold_left_app, IH.
Qed.

Lemma in_firstn (A : Type) (n : nat) (l : list A) (x : A) :
  In x (firstn n l) -> In x l.
Proof.
  revert l; induction n as [|n IH]; intros [|y l]; simpl; try tauto.
  intros [H|H]; [now left | right; now apply IH].
Qed.

Lemma fold_left_ext_in (A S : Type) (f g : S -> A -> S) (l : list A) (a : S) :
  (forall s x, In x l -> f s x = g s x) -> fold_left f l a = fold_left g l a.
Proof.
  revert a; induction l as [|x l IH]; intros a H; simpl; [reflexivity|].
  rewrite H by now left. apply IH. intros s y Hy. apply H. now right.
Qed.

Lemma fold_left_map (A B S : Type) (f : S -> B -> S) (g : A -> B) (l : list A) (a : S) :
  fold_left f (map g l) a = fold_left (fun s x => f s (g x)) l a.
Proof.
  revert a; induction l as [|x l IH]; intros a; simpl; [reflexivity|]. apply IH.
Qed.

Lemma fold_left_nth_seq (T : Type) (F : T -> Z -> T) (l : list Z) (a : T) (k : nat) :
  fold_left (fun s i => F s (nth (i - k) l 0)) (seq k (length l)) a = fold_left F l a.
Proof.
  revert a k; induction l as [|x l IH]; intros a k; simpl; [reflexivity|].
  rewrite Nat.sub_diag. rewrite <- (IH (F a x) (S k)).
  apply fold_left_ext_in. intros s i Hi. apply in_seq in Hi.
  replace (i - k)%nat with (S (i - S k)) by lia. reflexivity.
Qed.

(** The counting loop of the public overload counts the stones. *)
Lemma count_stones_stones (gs : list Z) :
  count_stones gs (Z.of_nat (length gs)) = Z.of_nat (stones gs).
Proof.
  unfold count_stones, zrange.
  replace (Z.to_nat (Z.of_nat (length gs) - 1 - 0 + 1)) with (length gs) by lia.
  rewrite fold_left_map.
  set (F := fun (c : Z) (x : Z) => if negb (x =? 0) then c + 1 else c).
  transitivity (fold_left F gs 0).
  - rewrite <- (fold_left_nth_seq F gs 0 0).
    apply fold_left_ext_in. intros s i _. unfold array_get, F.
    replace (0 + Z.of_nat i <? 0) with false by (symmetry; apply Z.ltb_ge; lia).
    replace (Z.to_nat (0 + Z.of_nat i)) with (i - 0)%nat by lia. reflexivity.
  - unfold stones.
    assert (H : forall l a,
               fold_left F l a
               = a + Z.of_nat (length (filter (fun x => negb (x =? 0)) l))).
    { induction l as [|x l IH]; intros a; simpl; [lia|].
      rewrite IH. unfold F. destruct (negb (x =? 0)); simpl; lia. }
    now rewrite H.
Qed.

Lemma memcpy_all (gs : list Z) : memcpy gs (Z.of_nat (length gs)) = gs.
Proof. unfold memcpy. rewrite Nat2Z.id. apply firstn_all. Qed.

(** ** The insertion sort of the instance meets the contract of std::sort *)

Lemma insert_perm (m : Move.t) (l : list Move.t) :
  Permutation (Example.insert m l) (m :: l).
Proof.
  induction l as [|x t IH]; simpl; [reflexivity|].
  destruct (Move.heuristic_val x >? Move.heuristic_val m); [|reflexivity].
  rewrite IH. apply perm_swap.
Qed.

Lemma isort_perm (l : list Move.t) : Permutation (Example.isort l) l.
Proof.
  induction l as [|m l IH]; simpl; [constructor|].
  rewrite insert_perm. now constructor.
Qed.

Lemma insert_sorted (m : Move.t) (l : list Move.t) :
  StronglySorted Move.ge l -> StronglySorted Move.ge (Example.insert m l).
Proof.
  induction 1 as [|x t Ht IH Hx]; simpl.
  - repeat constructor.
  - destruct (Move.heuristic_val x >? Move.heuristic_val m) eqn:E.
    + constructor; [exact IH|].
      rewrite Forall_forall in *. intros y Hy.
      apply (Permutation_in _ (insert_perm m t)) in Hy. destruct Hy as [<-|Hy].
      * unfold Move.ge. lia.
      * now apply Hx.
    + constructor; [now constructor|].
      constructor; [unfold Move.ge; lia|].
      rewrite Forall_forall in *. intros y Hy. specialize (Hx y Hy).
      unfold Move.ge in *. lia.
Qed.

Lemma isort_sorted (l : list Move.t) : StronglySorted Move.ge (Example.isort l).
Proof.
  induction l as [|m l IH]; simpl; [constructor|]. now apply insert_sorted.
Qed.

Lemma NoDup_list_prod (A B : Type) (l : list A) (l' : list B) :
  NoDup l -> NoDup l' -> NoDup (list_prod l l').
Proof.
  intros Hl Hl'; induction Hl as [|x l Hx Hl IH]; simpl; [constructor|].
  apply NoDup_app; [|exact IH|].
  - apply NoDup_map_inj; [|exact Hl']. now intros y z [= ->].
  - intros [a b] Ha Hb. apply in_map_iff in Ha as (y & [= <- <-] & _).
    apply in_prod_iff in Hb. tauto.
Qed.

Lemma map_flat_map (A B C : Type) (f : B -> C) (g : A -> list B) (l : list A) :
  map f (flat_map g l) = flat_map (fun x => map f (g x)) l.
Proof.
  induction l as [|a l IH]; simpl; [reflexivity|]. now rewrite map_app, IH.
Qed.

Lemma filter_flat_map (A B : Type) (p : B -> bool) (g : A -> list B) (l : list A) :
  filter p (flat_map g l) = flat_map (fun x => filter p (g x)) l.
Proof.
  induction l as [|a l IH]; simpl; [reflexivity|]. now rewrite filter_app, IH.
Qed.

Lemma flat_map_singletons (A B : Type) (p : A -> bool) (f : A -> B) (l : list A) :
  flat_map (fun x => if p x then [f x] else []) l = map f (filter p l).
Proof.
  induction l as [|a l IH]; simpl; [reflexivity|].
  rewrite IH. now destruct (p a).
Qed.

(** ** The candidate generator *)

Section Generator.

Variable g_board_size : Z.
Variable remoteCell : list Z -> Z -> Z -> bool.
Variable evalMove : list Z -> Z -> Z -> Z -> Z.
Variable sort_moves : list Move.t -> list Move.t.

Local Abbreviation getCell := (getCell g_board_size).
Local Abbreviation scan := (scan g_board_size remoteCell evalMove).
Local Abbreviation scan_cell := (scan_cell g_board_size remoteCell evalMove).
Local Abbreviation find_extent := (find_extent g_board_size).
Local Abbreviation clamp_extent := (clamp_extent g_board_size).
Local Abbreviation searchMovesOrdered :=
  (searchMovesOrdered g_board_size remoteCell evalMove sort_moves).
Local Abbreviation free_near := (free_near g_board_size remoteCell).
Local Abbreviation scored := (scored evalMove).

Lemma scan_as_filter (gs : list Z) (player : Z) (e : Extent) :
  scan gs player e =
  map (scored gs player)
      (filter (free_near gs)
              (list_prod (zrange (min_r e - 2) (max_r e + 2))
                         (zrange (min_c e - 2) (max_c e + 2)))).
Proof.
  unfold scan. rewrite list_prod_as_flat_map, filter_flat_map, map_flat_map.
  apply flat_map_ext; intros r.
  rewrite <- flat_map_singletons.
  induction (zrange (min_c e - 2) (max_c e + 2)) as [|c l IH]; simpl; [reflexivity|].
  rewrite <- IH. f_equal.
  unfold scan_cell, free_near, getCell; simpl.
  destruct (array_get gs (g_board_size * r + c) =? 0); simpl; [|reflexivity].
  now destruct (remoteCell gs r c).
Qed.

Lemma scan_cells (gs : list Z) (player : Z) (e : Extent) :
  map Move.cell (scan gs player e) =
  filter (free_near gs)
         (list_prod (zrange (min_r e - 2) (max_r e + 2))
                    (zrange (min_c e - 2) (max_c e + 2))).
Proof.
  rewrite scan_as_filter, map_map.
  rewrite <- (map_id (filter _ _)) at 2. apply map_ext. now intros [r c].
Qed.

Lemma scan_cells_NoDup (gs : list Z) (player : Z) (e : Extent) :
  NoDup (map Move.cell (scan gs player e)).
Proof.
  rewrite scan_cells.
  apply NoDup_filter, NoDup_list_prod; apply NoDup_zrange.
Qed.

Lemma in_scan (gs : list Z) (player : Z) (e : Extent) (m : Move.t) :
  In m (scan gs player e) <->
  min_r e - 2 <= Move.r m <= max_r e + 2
  /\ min_c e - 2 <= Move.c m <= max_c e + 2
  /\ getCell gs (Move.r m) (Move.c m) = 0
  /\ remoteCell gs (Move.r m) (Move.c m) = false
  /\ m = Move.mk (Move.r m) (Move.c m)
                 (evalMove gs (Move.r m) (Move.c m) player) 0.
Proof.
  rewrite scan_as_filter, in_map_iff. split.
  - intros ([r c] & <- & H). apply filter_In in H as [H1 H2].
    apply in_prod_iff in H1 as [Hr Hc]. apply in_zrange in Hr, Hc.
    unfold free_near in H2; simpl in *.
    apply andb_true_iff in H2 as [H2 H3].
    apply Z.eqb_eq in H2. apply negb_true_iff in H3. tauto.
  - intros (Hr & Hc & H0 & Hrem & Hm). exists (Move.r m, Move.c m). split.
    + unfold scored; simpl. now rewrite <- Hm.
    + apply filter_In. split.
      * apply in_prod_iff. now rewrite !in_zrange.
      * unfold free_near; simpl. rewrite H0, Hrem. reflexivity.
Qed.

(** Every move the generator returns, for whichever sort, comes from the
    scan; with a sort that permutes, its cell is empty. *)
Hypothesis sort_perm : forall l, Permutation (sort_moves l) l.

Lemma searchMovesOrdered_empty_cell (gs : list Z) (player : Z) (m : Move.t) :
  In m (searchMovesOrdered gs player) -> getCell gs (Move.r m) (Move.c m) = 0.
Proof.
  unfold searchMovesOrdered. intros H.
  apply (Permutation_in _ (sort_perm _)) in H. apply in_scan in H. tauto.
Qed.

Lemma searchMovesOrdered_cells (gs : list Z) (p q : Z) :
  Permutation (map Move.cell (searchMovesOrdered gs p))
              (map Move.cell (searchMovesOrdered gs q)).
Proof.
  unfold searchMovesOrdered.
  rewrite (Permutation_map Move.cell (sort_perm _)).
  rewrite (Permutation_map Move.cell (sort_perm (scan gs q _))).
  now rewrite !scan_cells.
Qed.

End Generator.

(** ** The extent of the occupied cells *)

Section ExtentFacts.

Variable g_board_size : Z.

Local Abbreviation getCell := (getCell g_board_size).
Local Abbreviation extent_cell := (extent_cell g_board_size).
Local Abbreviation find_extent := (find_extent g_board_size).
Local Abbreviation occupied := (occupied g_board_size).
Local Abbreviation bounding_box := (bounding_box g_board_size).
Local Abbreviation extent_step := (extent_step g_board_size).
Local Abbreviation nonzero_at := (nonzero_at g_board_size).

Lemma extent_fold_row (gs : list Z) (r : Z) (cols : list Z) (e : Extent) :
  fold_left (extent_step gs) (map (fun c => (r, c)) cols) e =
  fold_left (extent_cell gs r) cols e.
Proof.
  revert e; induction cols as [|c cols IH]; intros e; simpl; [reflexivity|].
  now rewrite IH.
Qed.

Lemma extent_fold_rows (gs : list Z) (rows cols : list Z) (e : Extent) :
  fold_left (fun e r => fold_left (extent_cell gs r) cols e) rows e =
  fold_left (extent_step gs) (list_prod rows cols) e.
Proof.
  revert e; induction rows as [|r rows IH]; intros e; simpl; [reflexivity|].
  now rewrite fold_left_app, IH, extent_fold_row.
Qed.

Lemma find_extent_flat (gs : list Z) :
  find_extent gs =
  fold_left (extent_step gs)
            (list_prod (zrange 0 (g_board_size - 1)) (zrange 0 (g_board_size - 1)))
            (mkExtent Int32.INT_MAX Int32.INT_MAX Int32.INT_MIN Int32.INT_MIN).
Proof. unfold find_extent. apply extent_fold_rows. Qed.

Lemma extent_step_cases (gs : list Z) (e : Extent) (rc : Z * Z) :
  (nonzero_at gs rc
   /\ extent_step gs e rc =
      mkExtent (Z.min (fst rc) (min_r e)) (Z.min (snd rc) (min_c e))
               (Z.max (fst rc) (max_r e)) (Z.max (snd rc) (max_c e)))
  \/ (~ nonzero_at gs rc /\ extent_step gs e rc = e).
Proof.
  unfold extent_step, extent_cell, nonzero_at, getCell.
  destruct (Z.eqb_spec (array_get gs (g_board_size * fst rc + snd rc)) 0) as [E|E];
    simpl; [right; split; [intros H; now apply H|reflexivity]|left; split; [exact E|]].
  f_equal.
  - destruct (Z.ltb_spec (fst rc) (min_r e)); lia.
  - destruct (Z.ltb_spec (snd rc) (min_c e)); lia.
  - destruct (Z.gtb_spec (fst rc) (max_r e)); lia.
  - destruct (Z.gtb_spec (snd rc) (max_c e)); lia.
Qed.

(** What the scan of the cells [l] does to an extent [e0]: it only widens
    it, it covers every stone met, and each bound that moved sits on a
    stone. *)
Lemma extent_fold (gs : list Z) (l : list (Z * Z)) (e0 : Extent) :
  let e := fold_left (extent_step gs) l e0 in
  (min_r e <= min_r e0 /\ min_c e <= min_c e0
   /\ max_r e0 <= max_r e /\ max_c e0 <= max_c e)
  /\ (forall rc, In rc l -> nonzero_at gs rc ->
      min_r e <= fst rc <= max_r e /\ min_c e <= snd rc <= max_c e)
  /\ (min_r e = min_r e0 \/ exists c, In (min_r e, c) l /\ nonzero_at gs (min_r e, c))
  /\ (min_c e = min_c e0 \/ exists r, In (r, min_c e) l /\ nonzero_at gs (r, min_c e))
  /\ (max_r e = max_r e0 \/ exists c, In (max_r e, c) l /\ nonzero_at gs (max_r e, c))
  /\ (max_c e = max_c e0 \/ exists r, In (r, max_c e) l /\ nonzero_at gs (r, max_c e)).
Proof.
  revert e0; induction l as [|[r c] l IH]; intros e0; simpl.
  - repeat split; try lia; try tauto; now left.
  - specialize (IH (extent_step gs e0 (r, c))).
    set (e := fold_left (extent_step gs) l (extent_step gs e0 (r, c))) in *.
    simpl in IH. destruct IH as (Hw & Hcov & H1 & H2 & H3 & H4).
    destruct (extent_step_cases gs e0 (r, c)) as [[Hnz Heq]|[Hz Heq]];
      rewrite Heq in *; simpl in *.
    + split; [lia|]. split.
      { intros rc [<-|Hin] Hrc; simpl; [lia|]. now apply Hcov. }
      repeat split.
      * destruct H1 as [H1|(c' & Hin & Hc')]; [|right; exists c'; tauto].
        destruct (Z.min_spec r (min_r e0)) as [[_ Hm]|[_ Hm]]; rewrite Hm in H1;
          [right; exists c; rewrite H1; tauto | now left].
      * destruct H2 as [H2|(r' & Hin & Hr')]; [|right; exists r'; tauto].
        destruct (Z.min_spec c (min_c e0)) as [[_ Hm]|[_ Hm]]; rewrite Hm in H2;
          [right; exists r; rewrite H2; tauto | now left].
      * destruct H3 as [H3|(c' & Hin & Hc')]; [|right; exists c'; tauto].
        destruct (Z.max_spec r (max_r e0)) as [[_ Hm]|[_ Hm]]; rewrite Hm in H3;
          [now left | right; exists c; rewrite H3; tauto].
      * destruct H4 as [H4|(r' & Hin & Hr')]; [|right; exists r'; tauto].
        destruct (Z.max_spec c (max_c e0)) as [[_ Hm]|[_ Hm]]; rewrite Hm in H4;
          [now left | right; exists r; rewrite H4; tauto].
    + split; [lia|]. split.
      { intros rc [<-|Hin] Hrc; [contradiction|]. now apply Hcov. }
      repeat split.
      * destruct H1 as [H1|(c' & Hin & Hc')]; [now left|right; exists c'; tauto].
      * destruct H2 as [H2|(r' & Hin & Hr')]; [now left|right; exists r'; tauto].
      * destruct H3 as [H3|(c' & Hin & Hc')]; [now left|right; exists c'; tauto].
      * destruct H4 as [H4|(r' & Hin & Hr')]; [now left|right; exists r'; tauto].
Qed.

Lemma occupied_in_cells (gs : list Z) (r c : Z) :
  occupied gs r c <->
  In (r, c) (list_prod (zrange 0 (g_board_size - 1)) (zrange 0 (g_board_size - 1)))
  /\ nonzero_at gs (r, c).
Proof.
  unfold occupied, nonzero_at. rewrite in_prod_iff, !in_zrange. simpl. intuition lia.
Qed.

(** The first loop of [searchMovesOrdered] finds the bounding box. *)
Lemma find_extent_bounding_box (gs : list Z) (rmin cmin rmax cmax : Z) :
  g_board_size <= Int32.INT_MAX ->
  bounding_box gs rmin cmin rmax cmax ->
  find_extent gs = mkExtent rmin cmin rmax cmax.
Proof.
  intros HN (Hbox & (c1 & Hc1) & (c2 & Hc2) & (r3 & Hr3) & (r4 & Hr4)).
  rewrite find_extent_flat.
  pose proof (extent_fold gs
    (list_prod (zrange 0 (g_board_size - 1)) (zrange 0 (g_board_size - 1)))
    (mkExtent Int32.INT_MAX Int32.INT_MAX Int32.INT_MIN Int32.INT_MIN)) as H.
  set (e := fold_left _ _ _) in *. simpl in H.
  destruct H as (_ & Hcov & H1 & H2 & H3 & H4).
  assert (Hocc : forall r c, occupied gs r c ->
            min_r e <= r <= max_r e /\ min_c e <= c <= max_c e).
  { intros r c H. apply occupied_in_cells in H as [Hin Hnz].
    exact (Hcov (r, c) Hin Hnz). }
  pose proof (Hocc _ _ Hc1) as B1. pose proof (Hocc _ _ Hc2) as B2.
  pose proof (Hocc _ _ Hr3) as B3. pose proof (Hocc _ _ Hr4) as B4.
  assert (R1 : 0 <= rmin < g_board_size) by (destruct Hc1; tauto).
  assert (R2 : 0 <= rmax < g_board_size) by (destruct Hc2; tauto).
  assert (R3 : 0 <= cmin < g_board_size) by (destruct Hr3 as (_ & ? & _); tauto).
  assert (R4 : 0 <= cmax < g_board_size) by (destruct Hr4 as (_ & ? & _); tauto).
  unfold Int32.INT_MAX, Int32.INT_MIN in *.
  assert (E1 : min_r e = rmin).
  { destruct H1 as [H1|(c & Hin & Hnz)]; [lia|].
    pose proof (Hbox _ _ (proj2 (occupied_in_cells gs _ _) (conj Hin Hnz))). lia. }
  assert (E2 : min_c e = cmin).
  { destruct H2 as [H2|(r & Hin & Hnz)]; [lia|].
    pose proof (Hbox _ _ (proj2 (occupied_in_cells gs _ _) (conj Hin Hnz))). lia. }
  assert (E3 : max_r e = rmax).
  { destruct H3 as [H3|(c & Hin & Hnz)]; [lia|].
    pose proof (Hbox _ _ (proj2 (occupied_in_cells gs _ _) (conj Hin Hnz))). lia. }
  assert (E4 : max_c e = cmax).
  { destruct H4 as [H4|(r & Hin & Hnz)]; [lia|].
    pose proof (Hbox _ _ (proj2 (occupied_in_cells gs _ _) (conj Hin Hnz))). lia. }
  destruct e; simpl in *; congruence.
Qed.

(** On a board that holds a stone, the extent found is a bounding box. *)
Lemma find_extent_is_box (gs : list Z) (r0 c0 : Z) :
  g_board_size <= Int32.INT_MAX ->
  occupied gs r0 c0 ->
  bounding_box gs (min_r (find_extent gs)) (min_c (find_extent gs))
               (max_r (find_extent gs)) (max_c (find_extent gs)).
Proof.
  intros HN Hocc0. rewrite find_extent_flat.
  pose proof (extent_fold gs
    (list_prod (zrange 0 (g_board_size - 1)) (zrange 0 (g_board_size - 1)))
    (mkExtent Int32.INT_MAX Int32.INT_MAX Int32.INT_MIN Int32.INT_MIN)) as H.
  set (e := fold_left _ _ _) in *. cbn [min_r min_c max_r max_c] in H.
  destruct H as (_ & Hcov & H1 & H2 & H3 & H4).
  assert (Hocc : forall r c, occupied gs r c ->
            min_r e <= r <= max_r e /\ min_c e <= c <= max_c e).
  { intros r c H. apply occupied_in_cells in H as [Hin Hnz].
    exact (Hcov (r, c) Hin Hnz). }
  pose proof (Hocc _ _ Hocc0) as B0.
  assert (R0 : 0 <= r0 < g_board_size /\ 0 <= c0 < g_board_size)
    by (destruct Hocc0 as (? & ? & _); tauto).
  unfold Int32.INT_MAX, Int32.INT_MIN in *.
  split; [exact Hocc|]. repeat split.
  - destruct H1 as [H1|(c & Hin & Hnz)]; [lia|].
    exists c. apply occupied_in_cells. tauto.
  - destruct H3 as [H3|(c & Hin & Hnz)]; [lia|].
    exists c. apply occupied_in_cells. tauto.
  - destruct H2 as [H2|(r & Hin & Hnz)]; [lia|].
    exists r. apply occupied_in_cells. tauto.
  - destruct H4 as [H4|(r & Hin & Hnz)]; [lia|].
    exists r. apply occupied_in_cells. tauto.
Qed.

End ExtentFacts.

(** ** The generator against its description *)

Section GeneratorClaims.

Variable g_board_size : Z.
Variable remoteCell : list Z -> Z -> Z -> bool.
Variable evalMove : list Z -> Z -> Z -> Z -> Z.
Variable sort_moves : list Move.t -> list Move.t.

Hypothesis sort_perm : forall l, Permutation (sort_moves l) l.
Hypothesis sort_sorted : forall l, StronglySorted Move.ge (sort_moves l).

Local Abbreviation getCell := (getCell g_board_size).
Local Abbreviation bounding_box := (bounding_box g_board_size).
Local Abbreviation candidate_cell := (candidate_cell g_board_size remoteCell).
Local Abbreviation scan := (scan g_board_size remoteCell evalMove).
Local Abbreviation searchMovesOrdered :=
  (searchMovesOrdered g_board_size remoteCell evalMove sort_moves).

Lemma clamp_extent_rows (rmin cmin rmax cmax : Z) :
  clamp_extent g_board_size (mkExtent rmin cmin rmax cmax) =
  mkExtent (Z.max rmin 2) (Z.max cmin 2)
           (Z.min rmax (g_board_size - 3)) (Z.min cmax (g_board_size - 3)).
Proof.
  unfold clamp_extent; simpl. f_equal.
  - destruct (Z.ltb_spec (rmin - 2) 0); lia.
  - destruct (Z.ltb_spec (cmin - 2) 0); lia.
  - destruct (Z.geb_spec (rmax + 2) g_board_size); lia.
  - destruct (Z.geb_spec (cmax + 2) g_board_size); lia.
Qed.

(** The generator on a board whose bounding box is given. *)
Lemma searchMovesOrdered_in_box (gs : list Z) (player : Z) (rmin cmin rmax cmax : Z) :
  g_board_size <= Int32.INT_MAX ->
  bounding_box gs rmin cmin rmax cmax ->
  let moves := searchMovesOrdered gs player in
  (forall m, In m moves ->
     candidate_cell gs rmin cmin rmax cmax (Move.r m) (Move.c m)
     /\ 0 <= Move.r m < g_board_size /\ 0 <= Move.c m < g_board_size
     /\ Move.heuristic_val m = evalMove gs (Move.r m) (Move.c m) player)
  /\ (forall r c, candidate_cell gs rmin cmin rmax cmax r c ->
        In (r, c) (map Move.cell moves))
  /\ NoDup (map Move.cell moves)
  /\ StronglySorted Move.ge moves.
Proof.
  intros HN Hbox moves. subst moves. unfold searchMovesOrdered.
  rewrite (find_extent_bounding_box HN Hbox).
  rewrite clamp_extent_rows.
  set (e := mkExtent _ _ _ _).
  assert (E1 : min_r e = Z.max rmin 2) by reflexivity.
  assert (E2 : min_c e = Z.max cmin 2) by reflexivity.
  assert (E3 : max_r e = Z.min rmax (g_board_size - 3)) by reflexivity.
  assert (E4 : max_c e = Z.min cmax (g_board_size - 3)) by reflexivity.
  clearbody e.
  assert (Hin : forall m, In m (sort_moves (scan gs player e)) <->
                          In m (scan gs player e)).
  { intros m; split; apply Permutation_in;
      [apply sort_perm | apply Permutation_sym, sort_perm]. }
  split; [|split; [|split]].
  - intros m H. apply Hin, in_scan in H.
    rewrite E1, E2, E3, E4 in H. destruct H as (Hr & Hc & H0 & Hrem & Hm).
    unfold candidate_cell. repeat split; try tauto; try lia.
    rewrite Hm. reflexivity.
  - intros r c (Hr & Hc & H0 & Hrem).
    apply (Permutation_in _ (Permutation_sym (Permutation_map Move.cell (sort_perm _)))).
    rewrite scan_cells. apply filter_In. split.
    + apply in_prod_iff. rewrite !in_zrange, E1, E2, E3, E4. tauto.
    + unfold free_near; simpl. rewrite H0, Hrem. reflexivity.
  - apply (Permutation_NoDup (Permutation_sym (Permutation_map Move.cell (sort_perm _)))).
    apply scan_cells_NoDup.
  - apply sort_sorted.
Qed.

(** C6. On a board that holds a stone, [searchMovesOrdered] returns exactly
    the cells that are empty, not remote and inside the bounding box of the
    occupied cells, expanded by 2 after its minimum was given the floor 2 and
    its maximum the ceiling [g_board_size - 3] (so inside the board): for
    [rmin, cmin, rmax, cmax] the bounding box, every returned move sits on
    such a cell and carries [evalMove] of it for the player, every such cell
    is returned, none twice, and the list is in descending order of
    [heuristic_val]. *)
Theorem searchMovesOrdered_spec (gs : list Z) (player : Z) (r0 c0 : Z) :
  g_board_size <= Int32.INT_MAX ->
  occupied g_board_size gs r0 c0 ->
  exists rmin cmin rmax cmax,
    bounding_box gs rmin cmin rmax cmax
    /\ let moves := searchMovesOrdered gs player in
       (forall m, In m moves ->
          candidate_cell gs rmin cmin rmax cmax (Move.r m) (Move.c m)
          /\ 0 <= Move.r m < g_board_size /\ 0 <= Move.c m < g_board_size
          /\ Move.heuristic_val m = evalMove gs (Move.r m) (Move.c m) player)
       /\ (forall r c, candidate_cell gs rmin cmin rmax cmax r c ->
             In (r, c) (map Move.cell moves))
       /\ NoDup (map Move.cell moves)
       /\ StronglySorted Move.ge moves.
Proof.
  intros HN Hocc.
  pose proof (find_extent_is_box HN Hocc) as Hbox.
  exists (min_r (find_extent g_board_size gs)), (min_c (find_extent g_board_size gs)),
         (max_r (find_extent g_board_size gs)), (max_c (find_extent g_board_size gs)).
  split; [exact Hbox|].
  exact (@searchMovesOrdered_in_box gs player _ _ _ _ HN Hbox).
Qed.

(** C10. For a fixed board the generator selects the same cells for both
    players (as a set, each once: the two lists of cells are permutations
    of each other), so the two lists have the same length; whenever the
    list of one player is not empty, the list of the other has a first
    element, the one the threat detection reads without a check. *)
Theorem searchMovesOrdered_same_cells (gs : list Z) (p q : Z) :
  Permutation (map Move.cell (searchMovesOrdered gs p))
              (map Move.cell (searchMovesOrdered gs q))
  /\ length (searchMovesOrdered gs p) = length (searchMovesOrdered gs q)
  /\ (searchMovesOrdered gs p <> [] ->
      exists m rest, searchMovesOrdered gs q = m :: rest).
Proof.
  pose proof (searchMovesOrdered_cells g_board_size remoteCell evalMove
                                       sort_moves sort_perm gs p q) as HP.
  assert (HL : length (searchMovesOrdered gs p) = length (searchMovesOrdered gs q)).
  { apply Permutation_length in HP. now rewrite !length_map in HP. }
  repeat split; [exact HP | exact HL |].
  intros Hne. destruct (searchMovesOrdered gs q) as [|m rest]; [|now eauto].
  destruct (searchMovesOrdered gs p); [congruence | discriminate].
Qed.

End GeneratorClaims.

(** ** The recursive search *)

Section Core.

Variable g_board_size : Z.
Variable remoteCell : list Z -> Z -> Z -> bool.
Variable evalMove : list Z -> Z -> Z -> Z -> Z.
Variable kRenjuAiEvalWinningScore : Z.
Variable kRenjuAiEvalThreateningScore : Z.
Variable sort_moves : list Move.t -> list Move.t.
Variable clock : nat -> Z.
Variable CLOCKS_PER_SEC : Z.

Local Abbreviation getCell := (getCell g_board_size).
Local Abbreviation setCell := (setCell g_board_size).
Local Abbreviation searchMovesOrdered :=
  (searchMovesOrdered g_board_size remoteCell evalMove sort_moves).
Local Abbreviation search_step := (search_step g_board_size).
Local Abbreviation search_loop := (search_loop g_board_size).
Local Abbreviation threatened := (threatened kRenjuAiEvalThreateningScore).
Local Abbreviation candidates := (candidates evalMove kRenjuAiEvalThreateningScore).
Local Abbreviation heuristicNegamax_node :=
  (heuristicNegamax_node g_board_size remoteCell evalMove kRenjuAiEvalWinningScore
                         kRenjuAiEvalThreateningScore sort_moves).
Local Abbreviation heuristicNegamax :=
  (heuristicNegamax g_board_size remoteCell evalMove kRenjuAiEvalWinningScore
                    kRenjuAiEvalThreateningScore sort_moves).
Local Abbreviation iterative_deepening :=
  (iterative_deepening g_board_size remoteCell evalMove kRenjuAiEvalWinningScore
                       kRenjuAiEvalThreateningScore sort_moves clock CLOCKS_PER_SEC).
Local Abbreviation heuristicNegamax_driver :=
  (heuristicNegamax_driver g_board_size remoteCell evalMove kRenjuAiEvalWinningScore
                           kRenjuAiEvalThreateningScore sort_moves clock CLOCKS_PER_SEC).

Lemma setCell_restore (gs : list Z) (r c v : Z) :
  getCell gs r c = 0 -> setCell (setCell gs r c v) r c 0 = gs.
Proof. apply array_set_restore. Qed.

Lemma heuristicNegamax_S
    (n : Z) (gs : list Z) (player initial_depth : Z) (d : nat)
    (enable_ab_pruning : bool) (alpha beta : Z) :
  heuristicNegamax n gs player initial_depth (S d) enable_ab_pruning alpha beta =
  heuristicNegamax_node
    (fun n' gs' player' alpha' beta' =>
       heuristicNegamax n' gs' player' initial_depth d enable_ab_pruning alpha' beta')
    n gs player initial_depth (Z.of_nat (S d)) enable_ab_pruning alpha beta.
Proof. reflexivity. Qed.

(** *** The shortcuts *)

(** C8. At depth >= 1, when the candidate list of the moving player is
    empty, the recursive [heuristicNegamax] returns the score 0 and writes
    nothing through [move_r] and [move_c]: whatever the slots held, they
    hold it afterwards. The board is untouched and the node is counted. *)
Theorem heuristicNegamax_no_candidate
    (n : Z) (gs : list Z) (player initial_depth : Z) (d : nat)
    (enable_ab_pruning : bool) (alpha beta : Z) :
  searchMovesOrdered gs player = [] ->
  let res := heuristicNegamax n gs player initial_depth (S d)
                              enable_ab_pruning alpha beta in
  score res = 0 /\ written res = None
  /\ (forall old : option (Z * Z), store (written res) old = old)
  /\ res = mkOutcome 0 gs None (n + 1).
Proof.
  intros H res.
  assert (E : res = mkOutcome 0 gs None (n + 1)).
  { subst res. rewrite heuristicNegamax_S. unfold heuristicNegamax_node.
    now rewrite H. }
  rewrite E. simpl. repeat split; reflexivity.
Qed.

(** C5. At depth >= 1, if the ordered candidate list of the moving player
    has exactly one entry, or its first entry has a [heuristic_val] at or
    above the winning threshold, the search returns that candidate's cell
    as the move and its [heuristic_val] as the score. It makes no recursive
    call: the node gives this result whatever the recursive call [child]
    would compute, the board is the one it was given, and the node counter
    has advanced by this node alone. *)
Theorem heuristicNegamax_shortcut
    (n : Z) (gs : list Z) (player initial_depth : Z) (d : nat)
    (enable_ab_pruning : bool) (alpha beta : Z) (top : Move.t) (others : list Move.t) :
  searchMovesOrdered gs player = top :: others ->
  others = [] \/ Move.heuristic_val top >= kRenjuAiEvalWinningScore ->
  heuristicNegamax n gs player initial_depth (S d) enable_ab_pruning alpha beta
  = mkOutcome (Move.heuristic_val top) gs (Some (Move.r top, Move.c top)) (n + 1)
  /\ forall child,
       heuristicNegamax_node child n gs player initial_depth (Z.of_nat (S d))
                             enable_ab_pruning alpha beta
       = mkOutcome (Move.heuristic_val top) gs (Some (Move.r top, Move.c top)) (n + 1).
Proof.
  intros H Hcase.
  assert (E : forall child,
       heuristicNegamax_node child n gs player initial_depth (Z.of_nat (S d))
                             enable_ab_pruning alpha beta
       = mkOutcome (Move.heuristic_val top) gs (Some (Move.r top, Move.c top)) (n + 1)).
  { intros child. unfold heuristicNegamax_node. rewrite H.
    replace ((length (top :: others) =? 1)%nat
             || (Move.heuristic_val top >=? kRenjuAiEvalWinningScore)) with true;
      [reflexivity|].
    symmetry. apply orb_true_iff. destruct Hcase as [->|Hw].
    - now left.
    - right. apply Z.geb_le. lia. }
  split; [|exact E]. rewrite heuristicNegamax_S. apply E.
Qed.

(** *** The board is restored *)

Lemma search_step_board
    (child : Z -> list Z -> Z -> Z -> Z -> Outcome)
    (player : Z) (enable_ab_pruning : bool) (beta : Z)
    (st : Frame) (i : nat) (move : Move.t) :
  (forall n g p a b, board (child n g p a b) = g) ->
  getCell (f_gs st) (Move.r move) (Move.c move) = 0 ->
  f_gs (fst (search_step child player enable_ab_pruning beta st i move)) = f_gs st.
Proof.
  intros Hchild H0. unfold search_step; simpl.
  rewrite Hchild. now apply setCell_restore.
Qed.

Lemma search_loop_cons
    (child : Z -> list Z -> Z -> Z -> Z -> Outcome)
    (player : Z) (enable_ab_pruning : bool) (beta : Z)
    (move : Move.t) (rest : list Move.t) (i : nat) (st : Frame) :
  search_loop child player enable_ab_pruning beta (move :: rest) i st =
  (if snd (search_step child player enable_ab_pruning beta st i move)
   then fst (search_step child player enable_ab_pruning beta st i move)
   else search_loop child player enable_ab_pruning beta rest (S i)
                    (fst (search_step child player enable_ab_pruning beta st i move))).
Proof.
  simpl. reflexivity.
Qed.

Lemma search_loop_board
    (child : Z -> list Z -> Z -> Z -> Z -> Outcome)
    (player : Z) (enable_ab_pruning : bool) (beta : Z)
    (todo : list Move.t) (i : nat) (st : Frame) :
  (forall n g p a b, board (child n g p a b) = g) ->
  Forall (fun m => getCell (f_gs st) (Move.r m) (Move.c m) = 0) todo ->
  f_gs (search_loop child player enable_ab_pruning beta todo i st) = f_gs st.
Proof.
  intros Hchild. revert i st.
  induction todo as [|move rest IH]; intros i st Hall; [reflexivity|].
  rewrite search_loop_cons.
  inversion Hall as [|? ? H0 Hrest]; subst.
  pose proof (search_step_board child player enable_ab_pruning beta st i move
                                Hchild H0) as Hstep.
  destruct (snd _); [exact Hstep|].
  rewrite IH; [exact Hstep|]. now rewrite Hstep.
Qed.

Hypothesis sort_perm : forall l, Permutation (sort_moves l) l.

Lemma candidates_empty_cells (gs : list Z) (player depth initial_depth : Z) :
  Forall (fun m => getCell gs (Move.r m) (Move.c m) = 0)
         (candidates gs player depth initial_depth
                     (searchMovesOrdered gs player)
                     (searchMovesOrdered gs (opponent_of player))).
Proof.
  apply Forall_forall. intros m Hm. unfold candidates in Hm.
  apply in_app_or in Hm as [Hm|Hm].
  - destruct (threatened _); [|contradiction].
    apply in_map_iff in Hm as (m' & <- & Hm'). simpl.
    apply in_firstn in Hm'.
    exact (searchMovesOrdered_empty_cell g_board_size remoteCell evalMove
             sort_moves sort_perm gs _ m' Hm').
  - apply in_firstn in Hm.
    exact (searchMovesOrdered_empty_cell g_board_size remoteCell evalMove
             sort_moves sort_perm gs _ m Hm).
Qed.

Lemma heuristicNegamax_node_board
    (child : Z -> list Z -> Z -> Z -> Z -> Outcome)
    (n : Z) (gs : list Z) (player initial_depth depth : Z)
    (enable_ab_pruning : bool) (alpha beta : Z) :
  (forall n g p a b, board (child n g p a b) = g) ->
  board (heuristicNegamax_node child n gs player initial_depth depth
                               enable_ab_pruning alpha beta) = gs.
Proof.
  intros Hchild. unfold heuristicNegamax_node.
  pose proof (candidates_empty_cells gs player depth initial_depth) as Hc.
  destruct (searchMovesOrdered gs player) as [|top others] eqn:E; [reflexivity|].
  destruct (_ || _); [reflexivity|].
  destruct (blocking_override _ _ _ _) as [result mv]; simpl.
  now rewrite search_loop_board.
Qed.

Lemma heuristicNegamax_board
    (n : Z) (gs : list Z) (player initial_depth : Z) (depth : nat)
    (enable_ab_pruning : bool) (alpha beta : Z) :
  board (heuristicNegamax n gs player initial_depth depth
                          enable_ab_pruning alpha beta) = gs.
Proof.
  revert n gs player alpha beta.
  induction depth as [|d IH]; intros n gs player alpha beta; [reflexivity|].
  rewrite heuristicNegamax_S. apply heuristicNegamax_node_board.
  intros n' g p a b. apply IH.
Qed.

(** *** The public overload *)

Lemma iterative_deepening_eq
    (fuel : nat) (gs : list Z) (gs_size player time_limit : Z)
    (enable_ab_pruning : bool) (c_start d : Z) (ticks : nat)
    (n : Z) (mv : option (Z * Z)) :
  iterative_deepening fuel gs gs_size player time_limit enable_ab_pruning
                      c_start d ticks n mv =
  let res := heuristicNegamax n (memcpy gs gs_size) player d (Z.to_nat d)
                              enable_ab_pruning full_alpha full_beta in
  if (d >=? kAvgMaximumDepth)
     || (Z.quot ((clock (ticks + 2)%nat - c_start) * 1000) CLOCKS_PER_SEC
         + Z.quot ((clock (ticks + 1)%nat - clock ticks) * 1000) CLOCKS_PER_SEC
           * kAvgBranchingFactor * 2 >? time_limit)
  then Some (mkReport gs (Some d) (store (written res) mv) (node_count res) (ticks + 3))
  else
    match fuel with
    | O => None
    | S fuel' =>
        iterative_deepening fuel' gs gs_size player time_limit enable_ab_pruning
                            c_start (d + 2) (ticks + 3) (node_count res)
                            (store (written res) mv)
    end.
Proof. destruct fuel; reflexivity. Qed.

(** The deepening loop ends within the turns left before
    [kAvgMaximumDepth], and hands back the caller's board. *)
Lemma iterative_deepening_total
    (fuel : nat) (gs : list Z) (gs_size player time_limit : Z)
    (enable_ab_pruning : bool) (c_start d : Z) (ticks : nat)
    (n : Z) (mv : option (Z * Z)) :
  kAvgMaximumDepth <= d + 2 * Z.of_nat fuel ->
  exists rep,
    iterative_deepening fuel gs gs_size player time_limit enable_ab_pruning
                        c_start d ticks n mv = Some rep
    /\ caller_gs rep = gs.
Proof.
  revert d ticks n mv.
  induction fuel as [|fuel IH]; intros d ticks n mv Hd;
    rewrite iterative_deepening_eq; cbv zeta.
  - replace (d >=? kAvgMaximumDepth) with true by (symmetry; apply Z.geb_le; lia).
    simpl. eauto.
  - destruct (_ || _); [simpl; eauto|]. apply IH. lia.
Qed.

Lemma heuristicNegamax_driver_total
    (n : Z) (gs : list Z) (player depth time_limit : Z) (enable_ab_pruning : bool) :
  exists rep,
    heuristicNegamax_driver n gs player depth time_limit enable_ab_pruning = Some rep
    /\ caller_gs rep = gs.
Proof.
  unfold heuristicNegamax_driver.
  destruct (_ || _); [simpl; eauto|].
  destruct (_ >? 0); [simpl; eauto|].
  apply iterative_deepening_total. unfold kAvgMaximumDepth. lia.
Qed.

(** C1. When the recursive [heuristicNegamax] returns, the board array is
    the one it was given, for every board, player, depth, pruning flag and
    window: every stone placed in the candidate loop has been removed. And
    the public overload returns (its deepening loop ends), leaving the
    caller's board as it was: it searches a private copy. *)
Theorem board_restored :
  (forall (n : Z) (gs : list Z) (player initial_depth : Z) (depth : nat)
          (enable_ab_pruning : bool) (alpha beta : Z),
      board (heuristicNegamax n gs player initial_depth depth
                              enable_ab_pruning alpha beta) = gs)
  /\ (forall (n : Z) (gs : list Z) (player depth time_limit : Z)
             (enable_ab_pruning : bool),
        exists rep,
          heuristicNegamax_driver n gs player depth time_limit enable_ab_pruning
          = Some rep
          /\ caller_gs rep = gs).
Proof.
  split.
  - intros. apply heuristicNegamax_board.
  - intros. apply heuristicNegamax_driver_total.
Qed.

Local Abbreviation search_at :=
  (search_at g_board_size remoteCell evalMove kRenjuAiEvalWinningScore
             kRenjuAiEvalThreateningScore sort_moves).
Local Abbreviation deepening_run :=
  (deepening_run g_board_size remoteCell evalMove kRenjuAiEvalWinningScore
                 kRenjuAiEvalThreateningScore sort_moves).
Local Abbreviation deepening_stop := (deepening_stop clock CLOCKS_PER_SEC).
Local Abbreviation deepening_before :=
  (deepening_before g_board_size remoteCell evalMove kRenjuAiEvalWinningScore
                    kRenjuAiEvalThreateningScore sort_moves).

Lemma heuristicNegamax_driver_count
    (n : Z) (gs : list Z) (player depth time_limit : Z) (enable_ab_pruning : bool) :
  Z.of_nat (length gs) = g_board_size * g_board_size ->
  depth = -1 \/ 0 < depth ->
  heuristicNegamax_driver n gs player depth time_limit enable_ab_pruning =
  let depth' := if Z.of_nat (stones gs) <=? 2 then 6 else depth in
  if depth' >? 0 then
    let res := heuristicNegamax n gs player depth' (Z.to_nat depth')
                                enable_ab_pruning full_alpha full_beta in
    Some (mkReport gs (Some depth') (written res) (node_count res) 0)
  else
    iterative_deepening 6 gs (g_board_size * g_board_size) player time_limit
                        enable_ab_pruning (clock 0%nat) 4 1 n None.
Proof.
  intros Hlen Hd. unfold heuristicNegamax_driver.
  replace ((depth =? 0) || (depth <? -1)) with false.
  - rewrite <- Hlen, memcpy_all, count_stones_stones. reflexivity.
  - symmetry. apply orb_false_iff. split; [apply Z.eqb_neq | apply Z.ltb_ge]; lia.
Qed.

(** C9. On a board with at most 2 occupied cells, every call of the public
    overload that searches at all (a depth of -1, or a positive one) makes
    exactly the one search at depth 6, with the full window, and reports 6
    as the actual depth: it is the call with the depth 6 requested. *)
Theorem opening_shortcut
    (n : Z) (gs : list Z) (player depth time_limit : Z) (enable_ab_pruning : bool) :
  Z.of_nat (length gs) = g_board_size * g_board_size ->
  (stones gs <= 2)%nat ->
  depth = -1 \/ 0 < depth ->
  let res := heuristicNegamax n gs player 6 6 enable_ab_pruning full_alpha full_beta in
  heuristicNegamax_driver n gs player depth time_limit enable_ab_pruning
  = Some (mkReport gs (Some 6) (written res) (node_count res) 0)
  /\ heuristicNegamax_driver n gs player depth time_limit enable_ab_pruning
     = heuristicNegamax_driver n gs player 6 time_limit enable_ab_pruning.
Proof.
  intros Hlen Hcnt Hd res.
  assert (E : forall depth', depth' = -1 \/ 0 < depth' ->
            heuristicNegamax_driver n gs player depth' time_limit enable_ab_pruning
            = Some (mkReport gs (Some 6) (written res) (node_count res) 0)).
  { intros depth' Hd'. rewrite (heuristicNegamax_driver_count _ _ _ _ _ Hlen Hd').
    replace (Z.of_nat (stones gs) <=? 2) with true
      by (symmetry; apply Z.leb_le; lia).
    reflexivity. }
  split; [now apply E|]. rewrite (E depth Hd), (E 6); [reflexivity | lia].
Qed.

Lemma deepening_run_step (n : Z) (gs : list Z) (player : Z)
    (enable_ab_pruning : bool) (k : nat) :
  deepening_run n gs player enable_ab_pruning k =
  search_at gs player enable_ab_pruning (4 + 2 * Z.of_nat k)
            (deepening_before n gs player enable_ab_pruning k).
Proof. destruct k; reflexivity. Qed.

Lemma iterative_deepening_run
    (n : Z) (gs : list Z) (player time_limit : Z) (enable_ab_pruning : bool)
    (fuel k0 : nat) :
  kAvgMaximumDepth <= 4 + 2 * Z.of_nat k0 + 2 * Z.of_nat fuel ->
  (forall j, (j < k0)%nat -> deepening_stop time_limit j = false) ->
  exists k,
    (k0 <= k <= k0 + fuel)%nat
    /\ (forall j, (j < k)%nat -> deepening_stop time_limit j = false)
    /\ deepening_stop time_limit k = true
    /\ iterative_deepening fuel gs (g_board_size * g_board_size) player time_limit
         enable_ab_pruning (clock 0%nat) (4 + 2 * Z.of_nat k0) (3 * k0 + 1)
         (fst (deepening_before n gs player enable_ab_pruning k0))
         (snd (deepening_before n gs player enable_ab_pruning k0))
       = Some (mkReport gs (Some (4 + 2 * Z.of_nat k))
                        (snd (deepening_run n gs player enable_ab_pruning k))
                        (fst (deepening_run n gs player enable_ab_pruning k))
                        (3 * k + 4)).
Proof.
  revert k0. induction fuel as [|fuel IH]; intros k0 Hmax Hbefore;
    rewrite iterative_deepening_eq; cbv zeta;
    replace (3 * k0 + 1 + 2)%nat with (3 * k0 + 3)%nat by lia;
    replace (3 * k0 + 1 + 1)%nat with (3 * k0 + 2)%nat by lia;
    replace (3 * k0 + 1 + 3)%nat with (3 * k0 + 4)%nat by lia;
    fold (deepening_stop time_limit k0);
    pose proof (deepening_run_step n gs player enable_ab_pruning k0) as Hrun;
    unfold search_at in Hrun.
  - assert (Hstop : deepening_stop time_limit k0 = true).
    { unfold deepening_stop. apply orb_true_iff. left. apply Z.geb_le. lia. }
    rewrite Hstop. exists k0. repeat split; try lia; try assumption.
    rewrite Hrun. reflexivity.
  - destruct (deepening_stop time_limit k0) eqn:Hstop.
    + exists k0. repeat split; try lia; try assumption.
      rewrite Hrun. reflexivity.
    + destruct (IH (S k0)) as (k & Hk & Hfalse & Htrue & Heq).
      * lia.
      * intros j Hj. destruct (Nat.eq_dec j k0) as [->|]; [exact Hstop|].
        apply Hbefore. lia.
      * exists k. repeat split; try lia; try assumption.
        rewrite <- Heq. simpl deepening_before. rewrite Hrun. simpl fst; simpl snd.
        f_equal; lia.
Qed.

(** C3, amended. For a depth argument that is 0 or negative, only the depth
    -1 searches. On a board with more than two stones it selects the
    iterative deepening, which runs the searches at depths 4, 6, ..., 4 + 2k
    in this order, each on a fresh copy of the board, until the first k (at
    most 6, depth 16) whose stop test holds, and then reports 4 + 2k as the
    actual depth together with the move slots and node counter these
    searches leave. On a board with at most two stones it makes the one
    search at depth 6 and reports 6. Any other such depth (0, or below -1)
    returns at once and writes neither a move nor a depth. *)
Theorem non_positive_depth
    (n : Z) (gs : list Z) (player depth time_limit : Z) (enable_ab_pruning : bool) :
  depth <= 0 ->
  Z.of_nat (length gs) = g_board_size * g_board_size ->
  (depth = -1 /\ (2 < stones gs)%nat
   /\ exists k,
        (k <= 6)%nat
        /\ (forall j, (j < k)%nat -> deepening_stop time_limit j = false)
        /\ deepening_stop time_limit k = true
        /\ heuristicNegamax_driver n gs player depth time_limit enable_ab_pruning
           = Some (mkReport gs (Some (4 + 2 * Z.of_nat k))
                            (snd (deepening_run n gs player enable_ab_pruning k))
                            (fst (deepening_run n gs player enable_ab_pruning k))
                            (3 * k + 4)))
  \/ (depth = -1 /\ (stones gs <= 2)%nat
      /\ let res := heuristicNegamax n gs player 6 6 enable_ab_pruning
                                     full_alpha full_beta in
         heuristicNegamax_driver n gs player depth time_limit enable_ab_pruning
         = Some (mkReport gs (Some 6) (written res) (node_count res) 0))
  \/ (depth <> -1
      /\ heuristicNegamax_driver n gs player depth time_limit enable_ab_pruning
         = Some (mkReport gs None None n 0)).
Proof.
  intros Hd Hlen. destruct (Z.eq_dec depth (-1)) as [->|Hne].
  - rewrite (heuristicNegamax_driver_count _ _ _ _ _ Hlen (or_introl eq_refl)).
    destruct (Z.leb_spec (Z.of_nat (stones gs)) 2) as [Hcnt|Hcnt].
    + right. left. split; [reflexivity|]. split; [lia|]. reflexivity.
    + left. split; [reflexivity|]. split; [lia|].
      cbv zeta. change (-1 >? 0) with false. cbv iota.
      destruct (@iterative_deepening_run n gs player time_limit enable_ab_pruning 6 0)
        as (k & Hk & Hfalse & Htrue & Heq).
      * unfold kAvgMaximumDepth. lia.
      * intros j Hj. lia.
      * exists k. repeat split; try lia; try assumption.
  - right. right. split; [exact Hne|]. unfold heuristicNegamax_driver.
    replace ((depth =? 0) || (depth <? -1)) with true; [reflexivity|].
    symmetry. apply orb_true_iff.
    destruct (Z.eq_dec depth 0) as [->|]; [now left|].
    right. apply Z.ltb_lt. lia.
Qed.

End Core.

(** ** Conversion of a non-zero int to float *)

Section FloatFacts.

Lemma shr_1_pos (mrs : shr_record) (q : positive) :
  shr_m mrs = Z.pos q -> 1 < Z.pos (digits2_pos q) ->
  exists q', shr_m (shr_1 mrs) = Z.pos q'
             /\ Z.pos (digits2_pos q') = Z.pos (digits2_pos q) - 1.
Proof.
  destruct mrs as [m r s]; cbn [shr_m]. intros -> H.
  destruct q as [q|q|]; cbn [shr_1 shr_m digits2_pos] in *;
    [exists q | exists q | lia]; split; try reflexivity; lia.
Qed.

Lemma iter_shr_1_pos (n : positive) :
  forall (mrs : shr_record) (q : positive),
    shr_m mrs = Z.pos q -> Z.pos n < Z.pos (digits2_pos q) ->
    exists q', shr_m (iter_pos shr_1 n mrs) = Z.pos q'
               /\ Z.pos (digits2_pos q') = Z.pos (digits2_pos q) - Z.pos n.
Proof.
  induction n as [n IH|n IH|]; intros mrs q Hm Hn; cbn [iter_pos].
  - destruct (shr_1_pos mrs Hm) as (q1 & H1 & D1); [lia|].
    destruct (IH _ _ H1) as (q2 & H2 & D2); [lia|].
    destruct (IH _ _ H2) as (q3 & H3 & D3); [lia|].
    exists q3. split; [exact H3|lia].
  - destruct (IH _ _ Hm) as (q2 & H2 & D2); [lia|].
    destruct (IH _ _ H2) as (q3 & H3 & D3); [lia|].
    exists q3. split; [exact H3|lia].
  - apply shr_1_pos; assumption.
Qed.

Lemma shr_fexp_pos (q : positive) (e : Z) (l : location) :
  emin F32.prec F32.emax <= e ->
  exists q', shr_m (fst (shr_fexp F32.prec F32.emax (Z.pos q) e l)) = Z.pos q'
             /\ emin F32.prec F32.emax <= snd (shr_fexp F32.prec F32.emax (Z.pos q) e l).
Proof.
  intros H. unfold shr_fexp, shr. cbn [Zdigits2].
  assert (Hrec : shr_m (shr_record_of_loc (Z.pos q) l) = Z.pos q)
    by (destruct l as [|[| |]]; reflexivity).
  destruct (fexp F32.prec F32.emax (Z.pos (digits2_pos q) + e) - e) as [|n|n] eqn:E;
    cbn [fst snd]; try (exists q; split; [exact Hrec|lia]).
  destruct (@iter_shr_1_pos n _ _ Hrec) as (q' & Hq' & _).
  - unfold fexp, F32.prec in *. lia.
  - exists q'. split; [exact Hq'|lia].
Qed.

Lemma round_nearest_even_pos (q : positive) (l : location) :
  exists q', round_nearest_even (Z.pos q) l = Z.pos q'.
Proof.
  destruct l as [|[| |]]; cbn [round_nearest_even].
  - now exists q.
  - destruct (Z.even (Z.pos q)); [now exists q|]. now exists (q + 1)%positive.
  - now exists q.
  - now exists (q + 1)%positive.
Qed.

Lemma binary_round_aux_nonzero (s : bool) (q : positive) (e : Z) :
  emin F32.prec F32.emax <= e ->
  F32.is_zero (binary_round_aux F32.prec F32.emax s (Z.pos q) e loc_Exact) = false.
Proof.
  intros H. unfold binary_round_aux.
  destruct (shr_fexp_pos q loc_Exact H) as (q1 & H1 & E1).
  destruct (shr_fexp F32.prec F32.emax (Z.pos q) e loc_Exact) as [mrs' e'].
  cbn [fst snd] in H1, E1. rewrite H1.
  destruct (round_nearest_even_pos q1 (loc_of_shr_record mrs')) as (q2 & ->).
  destruct (shr_fexp_pos q2 loc_Exact E1) as (q3 & H3 & _).
  destruct (shr_fexp F32.prec F32.emax (Z.pos q2) e' loc_Exact) as [mrs'' e''].
  cbn [fst snd] in H3. rewrite H3. now destruct (e'' <=? _).
Qed.

Lemma binary_round_nonzero (s : bool) (p : positive) :
  F32.is_zero (binary_round F32.prec F32.emax s p 0) = false.
Proof.
  unfold binary_round, shl_align.
  destruct (fexp F32.prec F32.emax (Z.pos (digits2_pos p) + 0) - 0) as [|d|d] eqn:E;
    apply binary_round_aux_nonzero; unfold fexp, emin, F32.prec, F32.emax in *; lia.
Qed.

(** A non-zero [int] converts to a non-zero [float]. *)
Lemma of_int_nonzero (z : Z) : z <> 0 -> F32.is_zero (F32.of_int z) = false.
Proof.
  intros H. unfold F32.of_int, binary_normalize.
  destruct z; [congruence| |]; apply binary_round_nonzero.
Qed.

Lemma wrap_in_range (z : Z) : Int32.in_range (Int32.wrap z).
Proof.
  unfold Int32.in_range, Int32.wrap, Int32.INT_MIN, Int32.INT_MAX.
  pose proof (Z.mod_pos_bound (z + 2147483648) 4294967296). lia.
Qed.

Lemma wrap_id (z : Z) : Int32.in_range z -> Int32.wrap z = z.
Proof.
  unfold Int32.in_range, Int32.wrap, Int32.INT_MIN, Int32.INT_MAX. intros H.
  rewrite Z.mod_small; lia.
Qed.

Lemma abs_nonzero (z : Z) : Int32.in_range z -> z <> 0 -> Int32.abs z <> 0.
Proof.
  unfold Int32.abs, Int32.in_range, Int32.INT_MIN, Int32.INT_MAX. intros H Hz.
  destruct (Z.eq_dec z (-2147483648)) as [->|Hne]; [now vm_compute|].
  rewrite wrap_id; [lia|]. unfold Int32.in_range, Int32.INT_MIN, Int32.INT_MAX. lia.
Qed.

End FloatFacts.

(** ** The blocking override *)

(** ** The quotient of the override in exact arithmetic

    The [float] division of two converted [int]s, followed through the
    rounding of [SpecFloat], and its comparison with the [double] 0.2. *)

Lemma digits2_size (p : positive) : digits2_pos p = Pos.size p.
Proof. induction p; simpl; congruence. Qed.

Lemma Zdigits2_bounds (z d : Z) :
  0 < d -> 2 ^ (d - 1) <= z < 2 ^ d -> Zdigits2 z = d.
Proof.
  intros Hd [Hlo Hhi].
  assert (Hz : 0 < z) by (pose proof (Z.pow_pos_nonneg 2 (d - 1)); lia).
  destruct z as [|p|p]; try lia. cbn [Zdigits2]. rewrite digits2_size.
  pose proof (Pos.size_gt p) as Hgt. pose proof (Pos.size_le p) as Hle.
  apply Pos2Z.pos_lt_pos in Hgt. apply Pos2Z.pos_le_pos in Hle.
  rewrite Pos2Z.inj_pow in Hgt, Hle.
  change (Z.pos p~0) with (2 * Z.pos p) in Hle.
  assert (Hn : 0 < Z.pos (Pos.size p)) by lia.
  generalize dependent (Z.pos (Pos.size p)). intros n Hgt Hle Hn.
  destruct (Z.lt_trichotomy n d) as [H|[H|H]]; [|exact H|]; exfalso.
  - assert (2 ^ n <= 2 ^ (d - 1)) by (apply Z.pow_le_mono_r; lia). lia.
  - assert (2 ^ d <= 2 ^ (n - 1)) by (apply Z.pow_le_mono_r; lia).
    replace n with (Z.succ (n - 1)) in Hle by lia.
    rewrite Z.pow_succ_r in Hle by lia. lia.
Qed.

Lemma iter_xO (m n : positive) : Z.pos (Pos.iter xO m n) = Z.pos m * 2 ^ Z.pos n.
Proof.
  induction n as [|n IH] using Pos.peano_ind.
  - cbn [Pos.iter]. rewrite Pos2Z.inj_xO. change (2 ^ 1) with 2. lia.
  - rewrite Pos.iter_succ, Pos2Z.inj_xO, IH, Pos2Z.inj_succ, Z.pow_succ_r by lia. lia.
Qed.

Lemma loc_record (m : Z) (l : location) :
  shr_m (shr_record_of_loc m l) = m
  /\ loc_of_shr_record (shr_record_of_loc m l) = l.
Proof. destruct l as [|[]]; split; reflexivity. Qed.

Section Round.
Variables prec emax : Z.
Hypothesis prec_pos : 0 < prec.

(** A mantissa of [prec] digits is kept as it is. *)
Lemma binary_round_aux_exact (s : bool) (m : positive) (e : Z) :
  Zdigits2 (Z.pos m) = prec -> emin prec emax <= e -> e <= emax - prec ->
  binary_round_aux prec emax s (Z.pos m) e loc_Exact = S754_finite s m e.
Proof.
  intros Hd He1 He2. unfold binary_round_aux, shr_fexp.
  assert (H0 : fexp prec emax (Zdigits2 (Z.pos m) + e) - e = 0)
    by (rewrite Hd; unfold fexp; lia).
  rewrite H0. cbn [shr shr_record_of_loc loc_of_shr_record shr_m round_nearest_even].
  rewrite H0. cbn [shr shr_record_of_loc shr_m].
  replace (e <=? emax - prec) with true by (symmetry; apply Z.leb_le; lia).
  reflexivity.
Qed.

(** A mantissa of [d <= prec] digits is shifted to [prec] digits. *)
Lemma binary_round_normal (s : bool) (m : positive) (e d : Z) :
  Zdigits2 (Z.pos m) = d -> d <= prec ->
  emin prec emax <= d + e - prec -> d + e <= emax ->
  exists m',
    binary_round prec emax s m e = S754_finite s m' (d + e - prec)
    /\ Z.pos m' = Z.pos m * 2 ^ (prec - d).
Proof.
  intros Hd Hle He1 He2. unfold binary_round.
  change (Z.pos (digits2_pos m)) with (Zdigits2 (Z.pos m)). rewrite Hd.
  assert (Hf : fexp prec emax (d + e) = d + e - prec) by (unfold fexp; lia).
  rewrite Hf. unfold shl_align.
  assert (Hdpos : 0 < d) by (subst d; cbn; lia).
  destruct (d + e - prec - e) as [|n|n] eqn:En; try lia.
  - exists m. split.
    + replace (d + e - prec) with e by lia. apply binary_round_aux_exact; lia.
    + replace (prec - d) with 0 by lia. lia.
  - exists (Pos.iter xO m n). split.
    + apply binary_round_aux_exact; try lia.
      apply Zdigits2_bounds; [lia|]. rewrite iter_xO.
      assert (Hb : 2 ^ (d - 1) <= Z.pos m < 2 ^ d).
      { rewrite <- Hd. cbn [Zdigits2]. rewrite digits2_size.
        pose proof (Pos.size_gt m) as Hgt. pose proof (Pos.size_le m) as Hl.
        apply Pos2Z.pos_lt_pos in Hgt. apply Pos2Z.pos_le_pos in Hl.
        rewrite Pos2Z.inj_pow in Hgt, Hl.
        change (Z.pos m~0) with (2 * Z.pos m) in Hl.
        replace (Z.pos (Pos.size m)) with (Z.succ (Z.pos (Pos.size m) - 1)) in Hl at 1
          by lia.
        rewrite Z.pow_succ_r in Hl by lia. lia. }
      assert (Hp : 2 ^ prec = 2 ^ d * 2 ^ Z.pos n)
        by (rewrite <- Z.pow_add_r by lia; f_equal; lia).
      assert (Hp1 : 2 ^ (prec - 1) = 2 ^ (d - 1) * 2 ^ Z.pos n)
        by (rewrite <- Z.pow_add_r by lia; f_equal; lia).
      rewrite Hp, Hp1.
      pose proof (Z.pow_pos_nonneg 2 (Z.pos n)). nia.
    + rewrite iter_xO. f_equal. f_equal. lia.
Qed.
End Round.

(** Rounding a 24-digit quotient. *)
Lemma binary_round_aux_24 (s : bool) (q e : Z) (l : location) :
  P23 <= q < P24 -> -149 <= e -> e + 1 <= 104 ->
  binary_round_aux 24 128 s q e l
  = (let m := round_nearest_even q l in
     if m <? P24 then S754_finite s (Z.to_pos m) e
     else S754_finite s (Z.to_pos P23) (e + 1)).
Proof.
  intros Hq He1 He2. unfold P23, P24 in *.
  unfold binary_round_aux, shr_fexp.
  assert (Hd : Zdigits2 q = 24) by (apply Zdigits2_bounds; [lia|]; simpl; lia).
  assert (H0 : fexp 24 128 (Zdigits2 q + e) - e = 0)
    by (rewrite Hd; unfold fexp, emin; lia).
  rewrite H0. cbn [shr].
  destruct (loc_record q l) as [-> ->].
  set (m := round_nearest_even q l). cbv zeta.
  assert (Hm : q <= m <= q + 1).
  { subst m. destruct l as [|[]]; cbn [round_nearest_even]; try lia.
    destruct (Z.even q); lia. }
  destruct (Z.ltb_spec m 16777216) as [Hlt|Hge].
  - assert (Hdm : Zdigits2 m = 24) by (apply Zdigits2_bounds; [lia|]; simpl; lia).
    assert (H1 : fexp 24 128 (Zdigits2 m + e) - e = 0)
      by (rewrite Hdm; unfold fexp, emin; lia).
    rewrite H1. cbn [shr shr_record_of_loc shr_m].
    destruct m as [|p|p]; try lia.
    replace (e <=? 128 - 24) with true by (symmetry; apply Z.leb_le; lia).
    reflexivity.
  - assert (m = 16777216) as -> by lia.
    assert (H1 : fexp 24 128 (Zdigits2 16777216 + e) - e = 1)
      by (cbn [Zdigits2 digits2_pos Pos.succ]; unfold fexp, emin; lia).
    rewrite H1. cbn [shr iter_pos shr_record_of_loc shr_1 shr_m orb].
    replace (e + 1 <=? 128 - 24) with true by (symmetry; apply Z.leb_le; lia).
    reflexivity.
Qed.

(** Rounding a 25-digit quotient [2 * h + b]: one bit is shifted out. *)
Lemma binary_round_aux_25 (s : bool) (h e : Z) (b : bool) (l : location) :
  P23 <= h < P24 -> -149 <= e -> e + 2 <= 104 ->
  binary_round_aux 24 128 s (2 * h + (if b then 1 else 0)) e l
  = (let l' := loc_of_shr_record
                 (Build_shr_record h b (match l with loc_Exact => false | _ => true end)) in
     let m := round_nearest_even h l' in
     if m <? P24 then S754_finite s (Z.to_pos m) (e + 1)
     else S754_finite s (Z.to_pos P23) (e + 1 + 1)).
Proof.
  intros Hh He1 He2. unfold P23, P24 in *.
  set (q := 2 * h + (if b then 1 else 0)).
  assert (Hq : 16777216 <= q < 33554432) by (subst q; destruct b; lia).
  unfold binary_round_aux, shr_fexp.
  assert (Hd : Zdigits2 q = 25) by (apply Zdigits2_bounds; [lia|]; simpl; lia).
  assert (H0 : fexp 24 128 (Zdigits2 q + e) - e = 1)
    by (rewrite Hd; unfold fexp, emin; lia).
  rewrite H0. cbn [shr iter_pos].
  assert (Hs : shr_1 (shr_record_of_loc q l)
               = Build_shr_record h b (match l with loc_Exact => false | _ => true end)).
  { destruct h as [|p|p]; try lia. subst q.
    destruct b, l as [|[]]; reflexivity. }
  rewrite Hs. cbn [shr_m].
  set (l' := loc_of_shr_record _). set (m := round_nearest_even h l'). cbv zeta.
  assert (Hm : h <= m <= h + 1).
  { subst m. destruct l' as [|[]]; cbn [round_nearest_even]; try lia.
    destruct (Z.even h); lia. }
  destruct (Z.ltb_spec m 16777216) as [Hlt|Hge].
  - assert (Hdm : Zdigits2 m = 24) by (apply Zdigits2_bounds; [lia|]; simpl; lia).
    assert (H1 : fexp 24 128 (Zdigits2 m + (e + 1)) - (e + 1) = 0)
      by (rewrite Hdm; unfold fexp, emin; lia).
    rewrite H1. cbn [shr shr_record_of_loc shr_m].
    destruct m as [|p|p]; try lia.
    replace (e + 1 <=? 128 - 24) with true by (symmetry; apply Z.leb_le; lia).
    reflexivity.
  - assert (m = 16777216) as -> by lia.
    assert (H1 : fexp 24 128 (Zdigits2 16777216 + (e + 1)) - (e + 1) = 1)
      by (cbn [Zdigits2 digits2_pos Pos.succ]; unfold fexp, emin; lia).
    rewrite H1. cbn [shr iter_pos shr_record_of_loc shr_1 shr_m orb].
    replace (e + 1 + 1 <=? 128 - 24) with true by (symmetry; apply Z.leb_le; lia).
    reflexivity.
Qed.

(** The position of the remainder [r] of a division by [m]. *)
Lemma new_location_cases (m r : Z) :
  0 < m -> 0 <= r < m ->
  new_location m r = if r =? 0 then loc_Exact else loc_Inexact (2 * r ?= m).
Proof.
  intros Hm Hr. unfold new_location, new_location_even, new_location_odd.
  destruct (Z.even m) eqn:Ev; [reflexivity|].
  destruct (r =? 0); [reflexivity|]. f_equal.
  assert (Hodd : Z.odd m = true) by (rewrite <- Z.negb_even, Ev; reflexivity).
  apply Z.odd_spec in Hodd as [k Hk].
  destruct (Z.compare_spec (2 * r + 1) m), (Z.compare_spec (2 * r) m);
    try reflexivity; lia.
Qed.

(** The quotient of two floats with 24-digit mantissas, before rounding. *)
Lemma SFdiv_24 (s1 s2 : bool) (m1 m2 : positive) (e1 e2 : Z) :
  Zdigits2 (Z.pos m1) = 24 -> Zdigits2 (Z.pos m2) = 24 ->
  -125 <= e1 - e2 ->
  F32.div (S754_finite s1 m1 e1) (S754_finite s2 m2 e2)
  = binary_round_aux 24 128 (xorb s1 s2)
      (Z.pos m1 * P24 / Z.pos m2) (e1 - e2 - 24)
      (new_location (Z.pos m2) ((Z.pos m1 * P24) mod Z.pos m2)).
Proof.
  intros H1 H2 He. unfold F32.div, F32.prec, F32.emax, SFdiv, SFdiv_core_binary.
  rewrite H1, H2.
  assert (Hmin : Z.min (fexp 24 128 (24 + e1 - (24 + e2))) (e1 - e2) = e1 - e2 - 24)
    by (unfold fexp, emin; lia).
  rewrite Hmin.
  replace (e1 - e2 - (e1 - e2 - 24)) with 24 by lia.
  rewrite Z.shiftl_mul_pow2 by lia. change (2 ^ 24) with P24.
  unfold Z.div, Z.modulo.
  destruct (Z.div_eucl (Z.pos m1 * P24) (Z.pos m2)) as [q r]. reflexivity.
Qed.

(** The promotion of a 24-digit float to [double] is exact. *)
Lemma to_double_24 (s : bool) (m : positive) (e : Z) :
  Zdigits2 (Z.pos m) = 24 -> -149 <= e <= 104 ->
  exists m', F32.to_double (S754_finite s m e) = S754_finite s m' (e - 29)
             /\ Z.pos m' = Z.pos m * 536870912.
Proof.
  intros Hd He. unfold F32.to_double.
  destruct (@binary_round_normal 53 1024 ltac:(lia) s m e 24 Hd ltac:(lia))
    as (m' & Hr & Hm').
  - unfold emin. lia.
  - lia.
  - exists m'. split.
    + destruct s; cbn [cond_Zopp Z.opp binary_normalize]; rewrite Hr; f_equal; lia.
    + rewrite Hm'. reflexivity.
Qed.

(** A positive 24-digit float is below the [double] 0.2 when it is at most
    13421772 * 2^-26, the [float] just below 0.2. *)
Lemma lt_0_2_pos (m : positive) (e : Z) :
  Zdigits2 (Z.pos m) = 24 -> -149 <= e <= 104 ->
  SFltb (F32.to_double (S754_finite false m e)) F32.c0_2
  = (e <? -26) || ((e =? -26) && (Z.pos m <=? N02)).
Proof.
  intros Hd He. destruct (@to_double_24 false m e Hd He) as (m' & -> & Hm').
  unfold SFltb, SFcompare, F32.c0_2, N02.
  destruct (Z.compare_spec (e - 29) (-55)) as [E|E|E].
  - replace (e <? -26) with false by (symmetry; apply Z.ltb_ge; lia).
    replace (e =? -26) with true by (symmetry; apply Z.eqb_eq; lia).
    cbn [orb andb]. rewrite Pos.compare_cont_spec, Pos2Z.inj_compare, Hm'.
    destruct (Z.compare_spec (Z.pos m * 536870912) 7205759403792794);
      destruct (Z.leb_spec (Z.pos m) 13421772); cbn [Pos.switch_Eq];
      try reflexivity; lia.
  - replace (e <? -26) with true by (symmetry; apply Z.ltb_lt; lia). reflexivity.
  - replace (e <? -26) with false by (symmetry; apply Z.ltb_ge; lia).
    replace (e =? -26) with false by (symmetry; apply Z.eqb_neq; lia). reflexivity.
Qed.

Lemma lt_0_2_neg (m : positive) (e : Z) :
  Zdigits2 (Z.pos m) = 24 -> -149 <= e <= 104 ->
  SFltb (F32.to_double (S754_finite true m e)) F32.c0_2 = true.
Proof.
  intros Hd He. destruct (@to_double_24 true m e Hd He) as (m' & -> & Hm').
  reflexivity.
Qed.

(** The conversion of a positive [int] below 2^24 is exact. *)
Lemma of_int_exact (s : bool) (p : positive) :
  Z.pos p < P24 ->
  exists m a,
    binary_round 24 128 s p 0 = S754_finite s m (- a)
    /\ 0 <= a <= 23
    /\ Z.pos m = Z.pos p * 2 ^ a
    /\ Zdigits2 (Z.pos m) = 24.
Proof.
  intros Hp. unfold P24 in Hp.
  set (d := Zdigits2 (Z.pos p)).
  assert (Hd : 1 <= d <= 24).
  { subst d. cbn [Zdigits2]. rewrite digits2_size. split; [lia|].
    pose proof (Pos.size_le p) as Hl. apply Pos2Z.pos_le_pos in Hl.
    rewrite Pos2Z.inj_pow in Hl. change (Z.pos p~0) with (2 * Z.pos p) in Hl.
    destruct (Z.le_gt_cases (Z.pos (Pos.size p)) 24) as [H|H]; [exact H|exfalso].
    assert (2 ^ 25 <= 2 ^ Z.pos (Pos.size p)) by (apply Z.pow_le_mono_r; lia).
    change (2 ^ 25) with 33554432 in *. lia. }
  destruct (@binary_round_normal 24 128 ltac:(lia) s p 0 d eq_refl ltac:(lia))
    as (m & Hr & Hm).
  - unfold emin. lia.
  - lia.
  - exists m, (24 - d). split; [rewrite Hr; f_equal; lia|].
    split; [lia|]. split; [exact Hm|].
    apply Zdigits2_bounds; [lia|]. rewrite Hm.
    assert (Hb : 2 ^ (d - 1) <= Z.pos p < 2 ^ d).
    { subst d. cbn [Zdigits2]. rewrite digits2_size.
      pose proof (Pos.size_gt p) as Hgt. pose proof (Pos.size_le p) as Hl.
      apply Pos2Z.pos_lt_pos in Hgt. apply Pos2Z.pos_le_pos in Hl.
      rewrite Pos2Z.inj_pow in Hgt, Hl.
      change (Z.pos p~0) with (2 * Z.pos p) in Hl.
      replace (Z.pos (Pos.size p)) with (Z.succ (Z.pos (Pos.size p) - 1)) in Hl at 1
        by lia.
      rewrite Z.pow_succ_r in Hl by lia. lia. }
    assert (Hp1 : 2 ^ 24 = 2 ^ d * 2 ^ (24 - d))
      by (rewrite <- Z.pow_add_r by lia; f_equal; lia).
    assert (Hp2 : 2 ^ (24 - 1) = 2 ^ (d - 1) * 2 ^ (24 - d))
      by (rewrite <- Z.pow_add_r by lia; f_equal; lia).
    rewrite Hp1, Hp2. pose proof (Z.pow_pos_nonneg 2 (24 - d)). nia.
Qed.

(** Rounding to nearest even against the threshold: a 24-digit quotient. *)
Lemma round_le_24 (M1 M2 q r : Z) :
  0 < M2 -> M1 * P24 = q * M2 + r -> 0 <= r < M2 ->
  (round_nearest_even q (if r =? 0 then loc_Exact else loc_Inexact (2 * r ?= M2))
   <=? N02)
  = (2 * (M1 * P24) <=? (2 * N02 + 1) * M2).
Proof.
  intros HM Hq Hr. rewrite Hq. unfold N02.
  destruct (Z.lt_trichotomy q 13421772) as [H|[H|H]].
  - assert (Hm : (q + 1) * M2 <= 13421772 * M2)
      by (apply Z.mul_le_mono_nonneg_r; lia).
    replace (2 * (q * M2 + r) <=? (2 * 13421772 + 1) * M2) with true
      by (symmetry; apply Z.leb_le; lia).
    apply Z.leb_le.
    destruct (r =? 0); [cbn; lia|].
    destruct (2 * r ?= M2); cbn [round_nearest_even]; try lia.
    destruct (Z.even q); lia.
  - subst q. destruct (Z.eqb_spec r 0) as [->|Hr0].
    + cbn [round_nearest_even].
      transitivity true; [apply Z.leb_le; lia|symmetry; apply Z.leb_le; lia].
    + destruct (Z.compare_spec (2 * r) M2) as [E|E|E]; cbn [round_nearest_even].
      * change (Z.even 13421772) with true. cbv iota.
        transitivity true; [apply Z.leb_le; lia|symmetry; apply Z.leb_le; lia].
      * transitivity true; [apply Z.leb_le; lia|symmetry; apply Z.leb_le; lia].
      * transitivity false; [apply Z.leb_gt; lia|symmetry; apply Z.leb_gt; lia].
  - assert (Hm : 13421773 * M2 <= q * M2)
      by (apply Z.mul_le_mono_nonneg_r; lia).
    replace (2 * (q * M2 + r) <=? (2 * 13421772 + 1) * M2) with false
      by (symmetry; apply Z.leb_gt; lia).
    apply Z.leb_gt.
    destruct (r =? 0); [cbn; lia|].
    destruct (2 * r ?= M2); cbn [round_nearest_even]; try lia.
    destruct (Z.even q); lia.
Qed.

(** The same for a 25-digit quotient [2 * h + b], of which one bit goes. *)
Lemma round_le_25 (M1 M2 h r : Z) (b : bool) :
  0 < M2 -> M1 * P24 = (2 * h + (if b then 1 else 0)) * M2 + r -> 0 <= r < M2 ->
  (round_nearest_even h
     (loc_of_shr_record
        (Build_shr_record h b
           (match (if r =? 0 then loc_Exact else loc_Inexact (2 * r ?= M2)) with
            | loc_Exact => false
            | _ => true
            end)))
   <=? N02)
  = (M1 * P24 <=? (2 * N02 + 1) * M2).
Proof.
  intros HM Hq Hr. rewrite Hq. unfold N02.
  destruct (Z.lt_trichotomy h 13421772) as [H|[H|H]].
  - assert (Hm : (2 * h + 2) * M2 <= (2 * 13421772) * M2)
      by (apply Z.mul_le_mono_nonneg_r; lia).
    replace ((2 * h + (if b then 1 else 0)) * M2 + r <=? (2 * 13421772 + 1) * M2)
      with true by (symmetry; apply Z.leb_le; destruct b; lia).
    apply Z.leb_le.
    destruct b, (r =? 0); cbn [loc_of_shr_record round_nearest_even]; try lia.
    destruct (Z.even h); lia.
  - subst h. destruct b; destruct (Z.eqb_spec r 0) as [->|Hr0];
      cbn [loc_of_shr_record round_nearest_even];
      try change (Z.even 13421772) with true; cbv iota.
    + transitivity true; [apply Z.leb_le; lia|symmetry; apply Z.leb_le; lia].
    + transitivity false; [apply Z.leb_gt; lia|symmetry; apply Z.leb_gt; lia].
    + transitivity true; [apply Z.leb_le; lia|symmetry; apply Z.leb_le; lia].
    + transitivity true; [apply Z.leb_le; lia|symmetry; apply Z.leb_le; lia].
  - assert (Hm : (2 * 13421772 + 2) * M2 <= (2 * h) * M2)
      by (apply Z.mul_le_mono_nonneg_r; lia).
    replace ((2 * h + (if b then 1 else 0)) * M2 + r <=? (2 * 13421772 + 1) * M2)
      with false by (symmetry; apply Z.leb_gt; destruct b; lia).
    apply Z.leb_gt.
    destruct b, (r =? 0); cbn [loc_of_shr_record round_nearest_even]; try lia.
    destruct (Z.even h); lia.
Qed.

Lemma Zdigits2_range (m : positive) (d : Z) :
  Zdigits2 (Z.pos m) = d -> 2 ^ (d - 1) <= Z.pos m < 2 ^ d.
Proof.
  intros <-. cbn [Zdigits2]. rewrite digits2_size.
  pose proof (Pos.size_gt m) as Hgt. pose proof (Pos.size_le m) as Hl.
  apply Pos2Z.pos_lt_pos in Hgt. apply Pos2Z.pos_le_pos in Hl.
  rewrite Pos2Z.inj_pow in Hgt, Hl.
  change (Z.pos m~0) with (2 * Z.pos m) in Hl.
  replace (Z.pos (Pos.size m)) with (Z.succ (Z.pos (Pos.size m) - 1)) in Hl at 1
    by lia.
  rewrite Z.pow_succ_r in Hl by lia. lia.
Qed.

Lemma leb_mul_pos (x y c : Z) : 0 < c -> (x * c <=? y * c) = (x <=? y).
Proof.
  intros Hc. destruct (Z.leb_spec x y) as [H|H].
  - apply Z.leb_le. now apply Z.mul_le_mono_nonneg_r; [lia|].
  - apply Z.leb_gt. now apply Z.mul_lt_mono_pos_r.
Qed.

Lemma pow2_split (a b : Z) :
  0 <= b <= a -> 2 ^ a = 2 ^ b * 2 ^ (a - b) /\ 0 < 2 ^ b /\ 0 < 2 ^ (a - b).
Proof.
  intros H. rewrite <- Z.pow_add_r by lia. replace (b + (a - b)) with a by lia.
  split; [reflexivity|]. split; apply Z.pow_pos_nonneg; lia.
Qed.

(** The comparison of a rounded quotient with 0.2, by the exponent. *)
Lemma lt_0_2_rounded (m e : Z) :
  P23 <= m -> -149 <= e -> e + 1 <= 104 ->
  SFltb (F32.to_double
           (if m <? P24 then S754_finite false (Z.to_pos m) e
            else S754_finite false (Z.to_pos P23) (e + 1)))
        F32.c0_2
  = (e <? -26) || ((e =? -26) && (m <=? N02)).
Proof.
  intros Hm He1 He2. unfold P23, P24, N02 in *.
  destruct (Z.ltb_spec m 16777216) as [Hlt|Hge].
  - rewrite lt_0_2_pos; [|apply Zdigits2_bounds; [lia|]; rewrite Z2Pos.id by lia;
                          simpl; lia|lia].
    rewrite Z2Pos.id by lia. reflexivity.
  - rewrite lt_0_2_pos; [|reflexivity|lia].
    change (Z.pos (Z.to_pos 8388608) <=? N02) with true. rewrite andb_true_r.
    replace (m <=? 13421772) with false by (symmetry; apply Z.leb_gt; lia).
    rewrite andb_false_r, orb_false_r.
    destruct (Z.ltb_spec (e + 1) (-26)), (Z.eqb_spec (e + 1) (-26)),
             (Z.ltb_spec e (-26)); try reflexivity; lia.
Qed.

(** The quotient of two positive floats with 24-digit mantissas is below
    the [double] 0.2 exactly when the exact quotient is at most
    26843545 / 2^27, the midpoint of the two [float]s around 0.2. *)
Lemma div_lt_0_2 (m1 m2 : positive) (a b : Z) :
  Zdigits2 (Z.pos m1) = 24 -> Zdigits2 (Z.pos m2) = 24 ->
  0 <= a <= 23 -> 0 <= b <= 23 ->
  SFltb (F32.to_double
           (F32.div (S754_finite false m1 (- a)) (S754_finite false m2 (- b))))
        F32.c0_2
  = (Z.pos m1 * 134217728 * 2 ^ b <=? 26843545 * Z.pos m2 * 2 ^ a).
Proof.
  intros H1 H2 Ha Hb.
  pose proof (Zdigits2_range H1) as R1. pose proof (Zdigits2_range H2) as R2.
  change (2 ^ (24 - 1)) with P23 in *. change (2 ^ 24) with P24 in *.
  rewrite SFdiv_24 by (assumption || lia). cbn [xorb].
  set (M1 := Z.pos m1) in *. set (M2 := Z.pos m2) in *.
  pose proof (Z.div_mod (M1 * P24) M2 ltac:(lia)) as Hqr.
  pose proof (Z.mod_pos_bound (M1 * P24) M2 ltac:(lia)) as Hr.
  set (q := M1 * P24 / M2) in *. set (r := (M1 * P24) mod M2) in *.
  rewrite new_location_cases by lia.
  assert (Hqr' : M1 * P24 = q * M2 + r) by lia.
  set (e := - a - - b - 24).
  assert (He : e = b - a - 24) by (subst e; lia).
  destruct (Z.lt_ge_cases M1 M2) as [Hlt|Hge].
  - (* a 24-digit quotient *)
    assert (Hq : P23 <= q < P24).
    { unfold P23, P24 in *. split.
      - apply Z.div_le_lower_bound; [lia|]. nia.
      - apply Z.div_lt_upper_bound; [lia|]. nia. }
    rewrite binary_round_aux_24 by (assumption || lia). cbv zeta.
    set (l := if r =? 0 then loc_Exact else loc_Inexact (2 * r ?= M2)).
    assert (Hm : q <= round_nearest_even q l).
    { destruct l as [|[]]; cbn [round_nearest_even]; try lia.
      destruct (Z.even q); lia. }
    rewrite lt_0_2_rounded by lia.
    pose proof (@round_le_24 M1 M2 q r ltac:(lia) Hqr' Hr) as Hround.
    fold l in Hround.
    destruct (Z.lt_trichotomy (b - a) (-2)) as [Hk|[Hk|Hk]].
    + replace (e <? -26) with true by (symmetry; apply Z.ltb_lt; lia).
      cbn [orb]. symmetry. apply Z.leb_le.
      destruct (@pow2_split a (b + 3) ltac:(lia)) as (Ea & _ & Hc).
      destruct (@pow2_split (b + 3) b ltac:(lia)) as (Eb & HB & _).
      replace (b + 3 - b) with 3 in Eb by lia. change (2 ^ 3) with 8 in Eb.
      rewrite Ea, Eb. set (B := 2 ^ b) in *. set (C := 2 ^ (a - (b + 3))) in *.
      assert (M1 * 134217728 <= 26843545 * M2 * 8) by lia.
      assert (M1 * 134217728 * B <= 26843545 * M2 * 8 * B)
        by (apply Z.mul_le_mono_nonneg_r; lia).
      assert (26843545 * M2 * 8 * B * 1 <= 26843545 * M2 * 8 * B * C)
        by (apply Z.mul_le_mono_nonneg_l; [nia|lia]).
      lia.
    + replace (e <? -26) with false by (symmetry; apply Z.ltb_ge; lia).
      replace (e =? -26) with true by (symmetry; apply Z.eqb_eq; lia).
      cbn [orb andb]. rewrite Hround.
      destruct (@pow2_split a b ltac:(lia)) as (Ea & HB & _).
      replace (a - b) with 2 in Ea by lia. change (2 ^ 2) with 4 in Ea.
      rewrite Ea. set (B := 2 ^ b) in *.
      replace (M1 * 134217728 * B) with (2 * (M1 * P24) * (4 * B))
        by (unfold P24; ring).
      replace (26843545 * M2 * (B * 4)) with ((2 * N02 + 1) * M2 * (4 * B))
        by (unfold N02; ring).
      symmetry. apply leb_mul_pos. lia.
    + replace (e <? -26) with false by (symmetry; apply Z.ltb_ge; lia).
      replace (e =? -26) with false by (symmetry; apply Z.eqb_neq; lia).
      cbn [orb andb]. symmetry. apply Z.leb_gt.
      destruct (@pow2_split (b + 1) a ltac:(lia)) as (Eb & HA & Hc).
      assert (Eb' : 2 * 2 ^ b = 2 ^ a * 2 ^ (b + 1 - a))
        by (rewrite <- Eb, Z.pow_add_r by lia; change (2 ^ 1) with 2; ring).
      set (A := 2 ^ a) in *. set (B := 2 ^ b) in *. set (C := 2 ^ (b + 1 - a)) in *.
      unfold P23, P24 in *.
      assert (26843545 * M2 * 2 * A < M1 * 134217728 * A)
        by (apply Z.mul_lt_mono_pos_r; lia).
      assert (M1 * 134217728 * A * 1 <= M1 * 134217728 * A * C)
        by (apply Z.mul_le_mono_nonneg_l; [nia|lia]).
      assert (M1 * 134217728 * B * 2 = M1 * 134217728 * A * C)
        by (replace (M1 * 134217728 * B * 2) with (M1 * 134217728 * (2 * B)) by ring;
            rewrite Eb'; ring).
      lia.
  - (* a 25-digit quotient *)
    assert (Hq : P24 <= q < 2 * P24).
    { unfold P23, P24 in *. split.
      - apply Z.div_le_lower_bound; [lia|]. nia.
      - apply Z.div_lt_upper_bound; [lia|]. nia. }
    set (h := q / 2). set (bit := Z.odd q).
    assert (Hq2 : q = 2 * h + (if bit then 1 else 0)).
    { subst h bit. rewrite (Z.div_mod q 2) at 1 by lia.
      rewrite <- Z.bit0_mod, Z.bit0_odd. destruct (Z.odd q); reflexivity. }
    assert (Hh : P23 <= h < P24) by (unfold P23, P24 in *; destruct bit; lia).
    rewrite Hq2.
    rewrite binary_round_aux_25 by (assumption || lia). cbv zeta.
    set (l := if r =? 0 then loc_Exact else loc_Inexact (2 * r ?= M2)).
    set (l' := loc_of_shr_record _).
    assert (Hm : h <= round_nearest_even h l').
    { destruct l' as [|[]]; cbn [round_nearest_even]; try lia.
      destruct (Z.even h); lia. }
    rewrite lt_0_2_rounded by lia.
    rewrite Hq2 in Hqr'.
    pose proof (@round_le_25 M1 M2 h r bit ltac:(lia) Hqr' Hr) as Hround.
    fold l in Hround. fold l' in Hround.
    destruct (Z.lt_trichotomy (b - a) (-3)) as [Hk|[Hk|Hk]].
    + replace (e + 1 <? -26) with true by (symmetry; apply Z.ltb_lt; lia).
      cbn [orb]. symmetry. apply Z.leb_le.
      destruct (@pow2_split a (b + 4) ltac:(lia)) as (Ea & _ & Hc).
      destruct (@pow2_split (b + 4) b ltac:(lia)) as (Eb & HB & _).
      replace (b + 4 - b) with 4 in Eb by lia. change (2 ^ 4) with 16 in Eb.
      rewrite Ea, Eb. set (B := 2 ^ b) in *. set (C := 2 ^ (a - (b + 4))) in *.
      unfold P23, P24 in *.
      assert (M1 * 134217728 <= 26843545 * M2 * 16) by lia.
      assert (M1 * 134217728 * B <= 26843545 * M2 * 16 * B)
        by (apply Z.mul_le_mono_nonneg_r; lia).
      assert (26843545 * M2 * 16 * B * 1 <= 26843545 * M2 * 16 * B * C)
        by (apply Z.mul_le_mono_nonneg_l; [nia|lia]).
      lia.
    + replace (e + 1 <? -26) with false by (symmetry; apply Z.ltb_ge; lia).
      replace (e + 1 =? -26) with true by (symmetry; apply Z.eqb_eq; lia).
      cbn [orb andb]. rewrite Hround.
      destruct (@pow2_split a b ltac:(lia)) as (Ea & HB & _).
      replace (a - b) with 3 in Ea by lia. change (2 ^ 3) with 8 in Ea.
      rewrite Ea. set (B := 2 ^ b) in *.
      replace (M1 * 134217728 * B) with (M1 * P24 * (8 * B))
        by (unfold P24; ring).
      replace (26843545 * M2 * (B * 8)) with ((2 * N02 + 1) * M2 * (8 * B))
        by (unfold N02; ring).
      symmetry. apply leb_mul_pos. lia.
    + replace (e + 1 <? -26) with false by (symmetry; apply Z.ltb_ge; lia).
      replace (e + 1 =? -26) with false by (symmetry; apply Z.eqb_neq; lia).
      cbn [orb andb]. symmetry. apply Z.leb_gt.
      destruct (@pow2_split (b + 2) a ltac:(lia)) as (Eb & HA & Hc).
      assert (Eb' : 4 * 2 ^ b = 2 ^ a * 2 ^ (b + 2 - a))
        by (rewrite <- Eb, Z.pow_add_r by lia; change (2 ^ 2) with 4; ring).
      set (A := 2 ^ a) in *. set (B := 2 ^ b) in *. set (C := 2 ^ (b + 2 - a)) in *.
      unfold P23, P24 in *.
      assert (26843545 * M2 * 4 * A < M1 * 134217728 * A)
        by (apply Z.mul_lt_mono_pos_r; lia).
      assert (M1 * 134217728 * A * 1 <= M1 * 134217728 * A * C)
        by (apply Z.mul_le_mono_nonneg_l; [nia|lia]).
      assert (M1 * 134217728 * B * 4 = M1 * 134217728 * A * C)
        by (replace (M1 * 134217728 * B * 4) with (M1 * 134217728 * (4 * B)) by ring;
            rewrite Eb'; ring).
      lia.
Qed.

(** A negative quotient is below 0.2. *)
Lemma div_neg_lt_0_2 (m1 m2 : positive) (a b : Z) :
  Zdigits2 (Z.pos m1) = 24 -> Zdigits2 (Z.pos m2) = 24 ->
  0 <= a <= 23 -> 0 <= b <= 23 ->
  SFltb (F32.to_double
           (F32.div (S754_finite true m1 (- a)) (S754_finite false m2 (- b))))
        F32.c0_2
  = true.
Proof.
  intros H1 H2 Ha Hb.
  pose proof (Zdigits2_range H1) as R1. pose proof (Zdigits2_range H2) as R2.
  change (2 ^ (24 - 1)) with P23 in *. change (2 ^ 24) with P24 in *.
  rewrite SFdiv_24 by (assumption || lia). cbn [xorb].
  set (M1 := Z.pos m1) in *. set (M2 := Z.pos m2) in *.
  set (q := M1 * P24 / M2). set (l := new_location M2 _).
  assert (Hsign : forall m e, P23 <= m -> -149 <= e -> e + 1 <= 104 ->
            SFltb (F32.to_double
                     (if m <? P24 then S754_finite true (Z.to_pos m) e
                      else S754_finite true (Z.to_pos P23) (e + 1)))
                  F32.c0_2 = true).
  { intros m e Hm He1 He2. unfold P23, P24 in *.
    destruct (Z.ltb_spec m 16777216) as [Hlt|Hge].
    - apply lt_0_2_neg; [|lia]. apply Zdigits2_bounds; [lia|].
      rewrite Z2Pos.id by lia. simpl; lia.
    - apply lt_0_2_neg; [reflexivity|lia]. }
  destruct (Z.lt_ge_cases M1 M2) as [Hlt|Hge].
  - assert (Hq : P23 <= q < P24).
    { unfold P23, P24 in *. subst q. split.
      - apply Z.div_le_lower_bound; [lia|]. nia.
      - apply Z.div_lt_upper_bound; [lia|]. nia. }
    rewrite binary_round_aux_24 by (assumption || lia). cbv zeta.
    apply Hsign; try lia.
    destruct l as [|[]]; cbn [round_nearest_even]; try lia.
    destruct (Z.even q); lia.
  - assert (Hq : P24 <= q < 2 * P24).
    { unfold P23, P24 in *. subst q. split.
      - apply Z.div_le_lower_bound; [lia|]. nia.
      - apply Z.div_lt_upper_bound; [lia|]. nia. }
    set (h := q / 2). set (bit := Z.odd q).
    assert (Hq2 : q = 2 * h + (if bit then 1 else 0)).
    { subst h bit. rewrite (Z.div_mod q 2) at 1 by lia.
      rewrite <- Z.bit0_mod, Z.bit0_odd. destruct (Z.odd q); reflexivity. }
    assert (Hh : P23 <= h < P24) by (unfold P23, P24 in *; destruct bit; lia).
    rewrite Hq2.
    rewrite binary_round_aux_25 by (assumption || lia). cbv zeta.
    set (l' := loc_of_shr_record _).
    apply Hsign; try lia.
    destruct l' as [|[]]; cbn [round_nearest_even]; try lia.
    destruct (Z.even h); lia.
Qed.

(** The test of the override in exact arithmetic: for an [int] x and a
    positive [int] y, both below 2^24 in magnitude, the [float] quotient of
    x by y is below the [double] 0.2 exactly when
    x * 2^27 <= 26843545 * y. *)
Lemma quotient_lt_0_2 (x y : Z) :
  - P24 < x < P24 -> 0 < y < P24 ->
  SFltb (F32.to_double (F32.div (F32.of_int x) (F32.of_int y))) F32.c0_2
  = (x * 134217728 <=? 26843545 * y).
Proof.
  intros Hx Hy. unfold F32.of_int, F32.prec, F32.emax.
  destruct y as [|py|py]; try lia. cbn [binary_normalize].
  destruct (@of_int_exact false py ltac:(lia)) as (m2 & b & -> & Hb & Hm2 & Hd2).
  destruct x as [|px|px]; cbn [binary_normalize].
  - symmetry. apply Z.leb_le. lia.
  - destruct (@of_int_exact false px ltac:(lia)) as (m1 & a & -> & Ha & Hm1 & Hd1).
    rewrite div_lt_0_2 by assumption. rewrite Hm1, Hm2.
    assert (HA : 0 < 2 ^ a) by (apply Z.pow_pos_nonneg; lia).
    assert (HB : 0 < 2 ^ b) by (apply Z.pow_pos_nonneg; lia).
    replace (Z.pos px * 2 ^ a * 134217728 * 2 ^ b)
      with (Z.pos px * 134217728 * (2 ^ a * 2 ^ b)) by ring.
    replace (26843545 * (Z.pos py * 2 ^ b) * 2 ^ a)
      with (26843545 * Z.pos py * (2 ^ a * 2 ^ b)) by ring.
    apply leb_mul_pos. nia.
  - destruct (@of_int_exact true px ltac:(lia)) as (m1 & a & -> & Ha & Hm1 & Hd1).
    rewrite div_neg_lt_0_2 by assumption.
    symmetry. apply Z.leb_le. lia.
Qed.

(** The test of the override on [int]s: when the difference and the
    blocking score are below 2^24 in magnitude, the binary32 test is the
    test of the exact quotient, (max_score - b_score) / |b_score| < 0.2. *)
Lemma blocking_close_exact (max_score b_score : Z) :
  Z.abs (max_score - b_score) < P24 -> 0 < Z.abs b_score < P24 ->
  blocking_close max_score b_score
  = (5 * (max_score - b_score) <? Z.abs b_score).
Proof.
  intros Hx Hy. unfold P24 in *. unfold blocking_close, Int32.sub, Int32.abs.
  rewrite !wrap_id
    by (unfold Int32.in_range, Int32.INT_MIN, Int32.INT_MAX; lia).
  rewrite quotient_lt_0_2 by (unfold P24; lia).
  destruct (Z.leb_spec ((max_score - b_score) * 134217728) (26843545 * Z.abs b_score)),
           (Z.ltb_spec (5 * (max_score - b_score)) (Z.abs b_score));
    try reflexivity; lia.
Qed.

Section Override.

Variable g_board_size : Z.
Variable remoteCell : list Z -> Z -> Z -> bool.
Variable evalMove : list Z -> Z -> Z -> Z -> Z.
Variable kRenjuAiEvalWinningScore : Z.
Variable kRenjuAiEvalThreateningScore : Z.
Variable sort_moves : list Move.t -> list Move.t.

Local Abbreviation searchMovesOrdered :=
  (searchMovesOrdered g_board_size remoteCell evalMove sort_moves).
Local Abbreviation search_step := (search_step g_board_size).
Local Abbreviation search_loop := (search_loop g_board_size).
Local Abbreviation candidates := (candidates evalMove kRenjuAiEvalThreateningScore).
Local Abbreviation heuristicNegamax_node :=
  (heuristicNegamax_node g_board_size remoteCell evalMove kRenjuAiEvalWinningScore
                         kRenjuAiEvalThreateningScore sort_moves).

Lemma list_set_tail (A : Type) (x : A) (l : list A) (i : nat) (v : A) :
  (1 <= i)%nat -> hd_error (list_set (x :: l) i v) = Some x.
Proof. destruct i; [lia|reflexivity]. Qed.

(** A turn of the loop at an index other than 0 leaves the first
    candidate alone. *)
Lemma search_step_head
    (child : Z -> list Z -> Z -> Z -> Z -> Outcome)
    (player : Z) (enable_ab_pruning : bool) (beta : Z)
    (st : Frame) (i : nat) (move : Move.t) :
  (1 <= i)%nat ->
  hd_error (f_cands (fst (search_step child player enable_ab_pruning beta st i move)))
  = hd_error (f_cands st).
Proof.
  intros Hi. unfold search_step; cbn [fst f_cands].
  destruct (nth_error (f_cands st) i) as [m|] eqn:E; [|reflexivity].
  destruct (f_cands st) as [|x l]; [now destruct i|].
  now apply list_set_tail.
Qed.

Lemma search_loop_head
    (child : Z -> list Z -> Z -> Z -> Z -> Outcome)
    (player : Z) (enable_ab_pruning : bool) (beta : Z)
    (todo : list Move.t) (i : nat) (st : Frame) :
  (1 <= i)%nat ->
  hd_error (f_cands (search_loop child player enable_ab_pruning beta todo i st))
  = hd_error (f_cands st).
Proof.
  revert i st. induction todo as [|move rest IH]; intros i st Hi; [reflexivity|].
  rewrite search_loop_cons.
  pose proof (search_step_head child player enable_ab_pruning beta st move Hi) as Hs.
  destruct (snd _); [exact Hs|]. rewrite IH; [exact Hs|lia].
Qed.

(** After the loop the first candidate carries the [actual_score] the
    first turn gave it, an [int]. *)
Lemma search_loop_first
    (child : Z -> list Z -> Z -> Z -> Z -> Outcome)
    (player : Z) (enable_ab_pruning : bool) (beta : Z)
    (c0 : Move.t) (todo cands : list Move.t) (st : Frame) :
  f_cands st = c0 :: cands ->
  exists a rest,
    Int32.in_range a
    /\ f_cands (search_loop child player enable_ab_pruning beta (c0 :: todo) 0 st)
       = Move.set_actual_score a c0 :: rest.
Proof.
  intros Hc. rewrite search_loop_cons.
  set (a := Int32.sub (Move.heuristic_val c0)
              (decay (score (child (f_nodes st)
                 (setCell g_board_size (f_gs st) (Move.r c0) (Move.c c0)
                          (Int32.to_char player))
                 (opponent_of player) (Int32.neg beta)
                 (Int32.add (Int32.neg (f_alpha st)) (Move.heuristic_val c0)))))).
  assert (H1 : f_cands (fst (search_step child player enable_ab_pruning beta st 0 c0))
               = Move.set_actual_score a c0 :: cands).
  { unfold search_step; cbn [fst f_cands]. rewrite Hc. reflexivity. }
  exists a. destruct (snd _).
  - exists cands. split; [apply wrap_in_range|exact H1].
  - pose proof (search_loop_head child player enable_ab_pruning beta todo
                  (fst (search_step child player enable_ab_pruning beta st 0 c0))
                  (i := 1) (le_n 1)) as Hh.
    rewrite H1 in Hh.
    destruct (f_cands (search_loop _ _ _ _ _ _ _)) as [|x rest]; [discriminate|].
    injection Hh as ->. exists rest. split; [apply wrap_in_range|reflexivity].
Qed.

(** C4, amended. At the root ([depth] equal to [initial_depth]) of a search
    that leaves the shortcuts aside and is blocking-relevant (the first
    candidate of the opponent reaches the threatening threshold), the first
    entry of [candidate_moves] after the loop is the first threat-blocking
    candidate: it sits on the cell of the opponent's first candidate. Its
    [actual_score] b enters the quotient as 1 when it is zero and unchanged
    otherwise (a negative b is not replaced: the divisor is its absolute
    value), so the divisor [(float)std::abs(b_score)] is never zero.

    When the best score and b are such that both the difference best - b
    and b are below 2^24 in magnitude (the two conversions to [float] are
    exact), the override is decided by the exact quotient: with a negative
    best score and (best - b) / |b| < 0.2, that is 5 * (best - b) < |b|, the
    returned score is b and the returned move is that cell; with a best score
    that is not negative, or a quotient of at least 0.2, score and move are
    the best ones of the loop. Outside that range the decision is the one of
    the binary32 test [blocking_close], which rounds its operands and need
    not agree with the exact quotient. *)
Theorem blocking_override_root
    (child : Z -> list Z -> Z -> Z -> Z -> Outcome)
    (n : Z) (gs : list Z) (player depth : Z)
    (enable_ab_pruning : bool) (alpha beta : Z)
    (top : Move.t) (others : list Move.t) (otop : Move.t) (orest : list Move.t) :
  searchMovesOrdered gs player = top :: others ->
  others <> [] ->
  Move.heuristic_val top < kRenjuAiEvalWinningScore ->
  searchMovesOrdered gs (opponent_of player) = otop :: orest ->
  Move.heuristic_val otop >= kRenjuAiEvalThreateningScore ->
  let cands := candidates gs player depth depth (top :: others) (otop :: orest) in
  let st := search_loop child player enable_ab_pruning beta cands 0
                        (mkFrame gs (n + 1) cands Int32.INT_MIN alpha None) in
  let res := heuristicNegamax_node child n gs player depth depth
                                   enable_ab_pruning alpha beta in
  let blocking_move := hd otop (f_cands st) in
  let b := Move.actual_score blocking_move in
  f_cands st <> []
  /\ Move.cell blocking_move = Move.cell otop
  /\ (b = 0 -> guard_b_score b = 1)
  /\ (b <> 0 -> guard_b_score b = b)
  /\ F32.is_zero (F32.of_int (Int32.abs (guard_b_score b))) = false
  /\ (f_max st < 0 -> blocking_close (f_max st) (guard_b_score b) = true ->
      score res = b /\ written res = Some (Move.cell blocking_move))
  /\ (f_max st >= 0 \/ blocking_close (f_max st) (guard_b_score b) = false ->
      score res = f_max st /\ written res = f_move st)
  /\ (Z.abs (f_max st - guard_b_score b) < 16777216 ->
      Z.abs (guard_b_score b) < 16777216 ->
      (f_max st < 0 ->
       5 * (f_max st - guard_b_score b) < Z.abs (guard_b_score b) ->
       score res = b /\ written res = Some (Move.cell blocking_move))
      /\ (f_max st >= 0
          \/ Z.abs (guard_b_score b) <= 5 * (f_max st - guard_b_score b) ->
          score res = f_max st /\ written res = f_move st)).
Proof.
  intros Hp Hothers Hwin Ho Hthr cands st res.
  assert (Hthreat : threatened kRenjuAiEvalThreateningScore (otop :: orest) = true).
  { unfold threatened. apply Z.geb_le. lia. }
  assert (Hcands : exists crest,
             cands = Move.set_heuristic_val
                       (evalMove gs (Move.r otop) (Move.c otop) player) otop :: crest).
  { subst cands. unfold candidates. rewrite Hthreat. cbn [firstn map app].
    eexists. reflexivity. }
  destruct Hcands as (crest & Hcands).
  assert (Hres : res = let (result, mv) := blocking_override depth depth true st in
                       mkOutcome result (f_gs st) mv (f_nodes st)).
  { subst res. unfold heuristicNegamax_node. rewrite Hp, Ho, Hthreat.
    replace ((length (top :: others) =? 1)%nat
             || (Move.heuristic_val top >=? kRenjuAiEvalWinningScore)) with false;
      [reflexivity|].
    symmetry. apply orb_false_iff. split.
    - destruct others; [congruence|reflexivity].
    - rewrite Z.geb_leb. apply Z.leb_gt. lia. }
  clearbody res.
  assert (Hst0 : st = search_loop child player enable_ab_pruning beta cands 0
                        (mkFrame gs (n + 1) cands Int32.INT_MIN alpha None))
    by reflexivity.
  clearbody st. clearbody cands. subst cands.
  destruct (@search_loop_first child player enable_ab_pruning beta
              (Move.set_heuristic_val
                 (evalMove gs (Move.r otop) (Move.c otop) player) otop)
              crest crest
              (mkFrame gs (n + 1)
                 (Move.set_heuristic_val
                    (evalMove gs (Move.r otop) (Move.c otop) player) otop :: crest)
                 Int32.INT_MIN alpha None) eq_refl)
    as (a & rest & Ha & Hst).
  rewrite <- Hst0 in Hst. clear Hst0.
  rewrite Hst. cbn [hd Move.actual_score Move.set_actual_score].
  split; [discriminate|]. split; [reflexivity|].
  assert (Hguard : guard_b_score a <> 0).
  { unfold guard_b_score. destruct (Z.eqb_spec a 0); lia. }
  assert (Hrange : Int32.in_range (guard_b_score a)).
  { unfold guard_b_score. destruct (Z.eqb_spec a 0); [|exact Ha].
    unfold Int32.in_range, Int32.INT_MIN, Int32.INT_MAX. lia. }
  assert (Hyes : f_max st < 0 -> blocking_close (f_max st) (guard_b_score a) = true ->
                 score res = a
                 /\ written res
                    = Some (Move.cell
                              (Move.set_actual_score a
                                 (Move.set_heuristic_val
                                    (evalMove gs (Move.r otop) (Move.c otop) player)
                                    otop)))).
  { intros Hneg Hclose. rewrite Hres. unfold blocking_override.
    rewrite Z.eqb_refl, Hst.
    replace (f_max st <? 0) with true by (symmetry; apply Z.ltb_lt; lia).
    cbn [andb Move.actual_score Move.set_actual_score]. rewrite Hclose.
    split; reflexivity. }
  assert (Hno : f_max st >= 0 \/ blocking_close (f_max st) (guard_b_score a) = false ->
                score res = f_max st /\ written res = f_move st).
  { intros H. rewrite Hres. unfold blocking_override. rewrite Z.eqb_refl, Hst.
    cbn [andb Move.actual_score Move.set_actual_score].
    destruct H as [H|H].
    - replace (f_max st <? 0) with false by (symmetry; apply Z.ltb_ge; lia).
      split; reflexivity.
    - rewrite H. now destruct (f_max st <? 0). }
  split; [intros ->; reflexivity|].
  split; [intros Hne; unfold guard_b_score; now destruct (Z.eqb_spec a 0)|].
  split; [apply of_int_nonzero, abs_nonzero; assumption|].
  split; [exact Hyes|]. split; [exact Hno|].
  intros Hx Hy.
  assert (Hexact : blocking_close (f_max st) (guard_b_score a)
                   = (5 * (f_max st - guard_b_score a) <? Z.abs (guard_b_score a)))
    by (apply blocking_close_exact; unfold P24; lia).
  split.
  - intros Hneg Hq. apply Hyes; [exact Hneg|].
    rewrite Hexact. apply Z.ltb_lt. exact Hq.
  - intros [H|H]; apply Hno; [now left|right].
    rewrite Hexact. apply Z.ltb_ge. exact H.
Qed.

End Override.

(** ** The exhaustive negamax *)

(** *** Lists in row-major order *)

Lemma zrange_sorted (lo hi : Z) : StronglySorted Z.lt (zrange lo hi).
Proof.
  unfold zrange. generalize (Z.to_nat (hi - lo + 1)). intros n. generalize 0%nat.
  induction n as [|n IH]; intros k; cbn [seq map]; constructor; [apply IH|].
  apply Forall_forall. intros x Hx. apply in_map_iff in Hx as (i & <- & Hi).
  apply in_seq in Hi. lia.
Qed.

Lemma sorted_app (A : Type) (R : A -> A -> Prop) (l1 l2 : list A) :
  StronglySorted R l1 -> StronglySorted R l2 ->
  (forall x y, In x l1 -> In y l2 -> R x y) ->
  StronglySorted R (l1 ++ l2).
Proof.
  intros H1 H2 H. induction H1 as [|x l1 Hs IH Hx]; cbn [app]; [exact H2|].
  constructor.
  - apply IH. intros a b Ha Hb. apply H; [now right|exact Hb].
  - apply Forall_app. split; [exact Hx|].
    apply Forall_forall. intros y Hy. apply H; [now left|exact Hy].
Qed.

Lemma sorted_filter (A : Type) (R : A -> A -> Prop) (f : A -> bool) (l : list A) :
  StronglySorted R l -> StronglySorted R (filter f l).
Proof.
  induction 1 as [|x l Hs IH Hx]; cbn [filter]; [constructor|].
  destruct (f x); [|exact IH]. constructor; [exact IH|].
  apply Forall_forall. intros y Hy. apply filter_In in Hy as [Hy _].
  rewrite Forall_forall in Hx. now apply Hx.
Qed.

Lemma list_prod_sorted (l l' : list Z) :
  StronglySorted Z.lt l -> StronglySorted Z.lt l' ->
  StronglySorted row_major (list_prod l l').
Proof.
  intros Hl Hl'. induction Hl as [|x l Hs IH Hx]; cbn [list_prod]; [constructor|].
  apply sorted_app; [|exact IH|].
  - clear IH. induction Hl' as [|y l' Hs' IH' Hy]; cbn [map]; constructor; [exact IH'|].
    apply Forall_forall. intros p Hp. apply in_map_iff in Hp as (z & <- & Hz).
    rewrite Forall_forall in Hy. right. cbn [fst snd]. split; [reflexivity|].
    now apply Hy.
  - intros p [r c] Hp Hrc. apply in_map_iff in Hp as (z & <- & _).
    apply in_prod_iff in Hrc as [Hr _]. rewrite Forall_forall in Hx.
    left. cbn [fst]. now apply Hx.
Qed.

(** Two lists in strict row-major order with the same cells are equal. *)
Lemma row_major_unique (l1 l2 : list (Z * Z)) :
  StronglySorted row_major l1 -> StronglySorted row_major l2 ->
  (forall x, In x l1 <-> In x l2) ->
  l1 = l2.
Proof.
  intros H1. revert l2. induction H1 as [|x t1 Hs1 IH Hx]; intros l2 H2 Hin.
  - destruct l2 as [|y t2]; [reflexivity|].
    exfalso. apply (proj2 (Hin y)). now left.
  - destruct H2 as [|y t2 Hs2 Hy].
    + exfalso. apply (proj1 (Hin x)). now left.
    + rewrite Forall_forall in Hx, Hy.
      assert (Hirr : forall p, ~ row_major p p) by (intros p [H|[_ H]]; lia).
      assert (Hasym : forall p q, row_major p q -> row_major q p -> False)
        by (intros p q [H|[H H']] [K|[K K']]; lia).
      assert (Exy : x = y).
      { destruct (proj1 (Hin x) (or_introl eq_refl)) as [E|Hxin]; [now symmetry|].
        destruct (proj2 (Hin y) (or_introl eq_refl)) as [E|Hyin]; [exact E|].
        exfalso. exact (Hasym x y (Hx y Hyin) (Hy x Hxin)). }
      subst y. f_equal. apply IH; [exact Hs2|].
      intros z. split; intros Hz.
      * destruct (proj1 (Hin z) (or_intror Hz)) as [E|Hz2]; [|exact Hz2].
        subst z. exfalso. exact (Hirr x (Hx x Hz)).
      * destruct (proj2 (Hin z) (or_intror Hz)) as [E|Hz1]; [|exact Hz1].
        subst z. exfalso. exact (Hirr x (Hy x Hz)).
Qed.

Section PlayableCells.

Variable g_board_size : Z.
Variable remoteCell : list Z -> Z -> Z -> bool.

Local Abbreviation getCell := (getCell g_board_size).
Local Abbreviation playable := (playable g_board_size remoteCell).

Lemma flat_map_list_prod (A B : Type) (l : list A) (l' : list B) :
  flat_map (fun x => map (fun y => (x, y)) l') l = list_prod l l'.
Proof.
  induction l as [|x l IH]; simpl; [reflexivity|]. now rewrite IH.
Qed.

Lemma in_playable (gs : list Z) (r c : Z) :
  In (r, c) (playable gs) <->
  0 <= r < g_board_size /\ 0 <= c < g_board_size
  /\ getCell gs r c = 0 /\ remoteCell gs r c = false.
Proof.
  unfold playable, all_cells. rewrite flat_map_list_prod, filter_In, in_prod_iff,
    !in_zrange.
  unfold free_near; cbn [fst snd]. rewrite andb_true_iff, Z.eqb_eq, negb_true_iff.
  intuition lia.
Qed.

Lemma playable_NoDup (gs : list Z) : NoDup (playable gs).
Proof.
  unfold playable, all_cells. rewrite flat_map_list_prod.
  apply NoDup_filter, NoDup_list_prod; apply NoDup_zrange.
Qed.

Lemma playable_sorted (gs : list Z) : StronglySorted row_major (playable gs).
Proof.
  unfold playable, all_cells. rewrite flat_map_list_prod.
  apply sorted_filter, list_prod_sorted; apply zrange_sorted.
Qed.

End PlayableCells.

Section Exhaustive.

Variable g_board_size : Z.
Variable remoteCell : list Z -> Z -> Z -> bool.
Variable evalState : list Z -> Z -> Z.

Local Abbreviation getCell := (getCell g_board_size).
Local Abbreviation setCell := (setCell g_board_size).
Local Abbreviation negamax_cell := (negamax_cell g_board_size remoteCell).
Local Abbreviation negamax := (negamax g_board_size remoteCell evalState).
Local Abbreviation negamax_value := (negamax_value g_board_size remoteCell evalState).
Local Abbreviation reply_value := (reply_value g_board_size remoteCell evalState).
Local Abbreviation playable := (playable g_board_size remoteCell).
Local Abbreviation all_cells := (all_cells g_board_size).
Local Abbreviation free_near := (free_near g_board_size remoteCell).

Lemma negamax_cell_pure
    (child : list Z -> Z -> Z * list Z) (d : nat) (player : Z)
    (gs : list Z) (mx : Z) (mv : option (Z * Z)) (rc : Z * Z) :
  (forall g p, child g p = (negamax_value g p d, g)) ->
  negamax_cell child player (gs, mx, mv) rc =
  (gs, fst (if free_near gs rc then pick (reply_value gs player d) (mx, mv) rc
            else (mx, mv)),
       snd (if free_near gs rc then pick (reply_value gs player d) (mx, mv) rc
            else (mx, mv))).
Proof.
  intros Hchild. destruct rc as [r c]. unfold negamax_cell, free_near, pick.
  cbn [fst snd].
  destruct (Z.eqb_spec (getCell gs r c) 0) as [E|E]; cbn [negb andb]; [|reflexivity].
  destruct (remoteCell gs r c); cbn [negb]; [reflexivity|].
  rewrite Hchild, (@setCell_restore g_board_size gs r c _ E).
  unfold reply_value; cbn [fst snd].
  now destruct (_ >? mx).
Qed.

Lemma negamax_fold_pure
    (child : list Z -> Z -> Z * list Z) (d : nat) (player : Z)
    (gs : list Z) (l : list (Z * Z)) (st : Z * option (Z * Z)) :
  (forall g p, child g p = (negamax_value g p d, g)) ->
  fold_left (negamax_cell child player) l (gs, fst st, snd st) =
  (gs, fst (fold_left (pick (reply_value gs player d)) (filter (free_near gs) l) st),
       snd (fold_left (pick (reply_value gs player d)) (filter (free_near gs) l) st)).
Proof.
  intros Hchild. revert st.
  induction l as [|rc l IH]; intros [mx mv]; [reflexivity|].
  cbn [fold_left filter fst snd].
  rewrite (@negamax_cell_pure child d player gs mx mv rc Hchild).
  destruct (free_near gs rc).
  - apply (IH (pick (reply_value gs player d) (mx, mv) rc)).
  - apply (IH (mx, mv)).
Qed.

(** The running maximum is the maximum, and the cell kept is the first one
    that attains it, unless nothing exceeds the initial value. *)
Lemma pick_fold (vals : Z * Z -> Z) (l : list (Z * Z)) (m0 : Z) (mv0 : option (Z * Z)) :
  let res := fold_left (pick vals) l (m0, mv0) in
  fst res = fold_left Z.max (map vals l) m0
  /\ ((Forall (fun rc => vals rc <= m0) l /\ fst res = m0 /\ snd res = mv0)
      \/ (exists l1 rc l2,
            l = l1 ++ rc :: l2 /\ vals rc = fst res /\ m0 < fst res
            /\ Forall (fun x => vals x < fst res) l1
            /\ Forall (fun x => vals x <= fst res) l2
            /\ snd res = Some rc)).
Proof.
  revert m0 mv0. induction l as [|rc l IH]; intros m0 mv0; cbn [fold_left map].
  - split; [reflexivity|]. left. repeat split. constructor.
  - assert (Hpick : pick vals (m0, mv0) rc
                    = if vals rc >? m0 then (vals rc, Some rc) else (m0, mv0))
      by reflexivity.
    rewrite Hpick. clear Hpick.
    destruct (Z.gtb_spec (vals rc) m0) as [Hgt|Hle].
    + specialize (IH (vals rc) (Some rc)). cbv zeta in IH.
      destruct IH as (Hmax & Hcase).
      split; [rewrite Hmax; f_equal; lia|].
      right. destruct Hcase as [(Hall & Hm & Hmv)|(l1 & rc' & l2 & -> & Hv & Hlt & H1 & H2 & Hmv)].
      * exists [], rc, l. rewrite Hm. repeat split; try assumption; try lia.
        constructor.
      * exists (rc :: l1), rc', l2. repeat split; try assumption; try lia.
        constructor; [lia|assumption].
    + specialize (IH m0 mv0). cbv zeta in IH.
      destruct IH as (Hmax & Hcase).
      split; [rewrite Hmax; f_equal; lia|].
      destruct Hcase as [(Hall & Hm & Hmv)|(l1 & rc' & l2 & -> & Hv & Hlt & H1 & H2 & Hmv)].
      * left. repeat split; try assumption. constructor; assumption.
      * right. exists (rc :: l1), rc', l2. repeat split; try assumption.
        constructor; [lia|assumption].
Qed.

Lemma negamax_S (gs : list Z) (player : Z) (d : nat) :
  negamax gs player (S d) =
  let '(gs', max_score, mv) :=
    fold_left
      (negamax_cell (fun g p => let '(v, g', _) := negamax g p d in (v, g')) player)
      all_cells (gs, Int32.INT_MIN, None) in
  (max_score, gs', mv).
Proof. reflexivity. Qed.

Lemma negamax_S_pure (gs : list Z) (player : Z) (d : nat) :
  (forall g p, fst (fst (negamax g p d)) = negamax_value g p d
               /\ snd (fst (negamax g p d)) = g) ->
  negamax gs player (S d) =
  (fst (fold_left (pick (reply_value gs player d)) (playable gs) (Int32.INT_MIN, None)),
   gs,
   snd (fold_left (pick (reply_value gs player d)) (playable gs) (Int32.INT_MIN, None))).
Proof.
  intros IH. rewrite negamax_S.
  rewrite (@negamax_fold_pure _ d player gs all_cells (Int32.INT_MIN, None)).
  - reflexivity.
  - intros g p. destruct (IH g p) as [H1 H2].
    destruct (negamax g p d) as [[v g'] m]. cbn [fst snd] in *. now subst.
Qed.

Lemma negamax_value_board (gs : list Z) (player : Z) (depth : nat) :
  fst (fst (negamax gs player depth)) = negamax_value gs player depth
  /\ snd (fst (negamax gs player depth)) = gs.
Proof.
  revert gs player. induction depth as [|d IH]; intros gs player.
  - split; reflexivity.
  - rewrite (@negamax_S_pure gs player d IH). cbn [fst snd]. split; [|reflexivity].
    destruct (pick_fold (reply_value gs player d) (playable gs) Int32.INT_MIN None)
      as [Hmax _].
    rewrite Hmax. reflexivity.
Qed.


End Exhaustive.

(** ** The instance: evaluations *)

(** C3, as stated, fails: with the depth 0, and with the depth -2, the
    public overload returns without a search, writing no move and no depth;
    and with the depth -1 on a board that holds one stone it makes a single
    search, at depth 6, without reading the clock. *)
Lemma non_positive_depth_counterexample :
  Example.driver Example.gs0 0 1000
  = Some (mkReport Example.gs0 None None 0 0)
  /\ Example.driver Example.gs0 (-2) 1000
     = Some (mkReport Example.gs0 None None 0 0)
  /\ Example.driver Example.gs_centre (-1) 1000
     = Some (mkReport Example.gs_centre (Some 6) (Some (2, 2)) 1097 0).
Proof. repeat split; vm_compute; reflexivity. Qed.

(** C4, as stated, fails: a negative blocking score is not treated as 1. At
    the root of the instance the search is blocking-relevant, the loop leaves
    the best score -5, which is negative, and the first candidate, on the
    threatened cell (0,2), has the blocking score -100. With the blocking
    score taken as 1 the quotient (-5 - 1) / 1 is below 0.2; the code keeps
    -100, divides 95 by 100 and returns the best move (1,0), not the
    blocking move. *)
Lemma blocking_override_counterexample :
  threatened Example.kThreatening
             (searchMovesOrdered Example.N Example.remote2
                (Example.block_eval (-100) (-5)) Example.isort Example.gs_block 2)
  = true
  /\ f_max (Example.block_frame (-100) (-5)) = -5
  /\ hd_error (f_cands (Example.block_frame (-100) (-5)))
     = Some (Move.mk 0 2 (-100) (-100))
  /\ guard_b_score (-100) = -100
  /\ blocking_close (-5) 1 = true
  /\ blocking_close (-5) (guard_b_score (-100)) = false
  /\ Example.block_root (-100) (-5)
     = mkOutcome (-5) Example.gs_block (Some (1, 0)) 1.
Proof. repeat split; vm_compute; reflexivity. Qed.


(** ** The instance: the theorems applied *)

(** The search of depth 4 and the deepening call of the instance hand the
    board back. *)
Lemma board_restored_witness :
  board (Example.search true 4) = Example.gs0
  /\ exists rep,
       Example.driver Example.gs0 (-1) 1000 = Some rep
       /\ caller_gs rep = Example.gs0.
Proof.
  pose proof (@board_restored Example.N Example.remote2 Example.table_eval
                Example.kWinning Example.kThreatening Example.isort
                Example.ticks 1000 isort_perm) as [H1 H2].
  split; [apply H1 | apply H2].
Defined.

(** With one free cell left, the search returns it with its score. *)
Lemma heuristicNegamax_shortcut_witness :
  Example.moves Example.gs_one_free 1 = [Move.mk 2 2 8 0]
  /\ Example.search_from Example.gs_one_free true 1
     = mkOutcome 8 Example.gs_one_free (Some (2, 2)) 1.
Proof.
  split; [reflexivity|].
  exact (proj1 (@heuristicNegamax_shortcut Example.N Example.remote2 Example.table_eval
                  Example.kWinning Example.kThreatening Example.isort
                  0 Example.gs_one_free 1 1 0%nat true full_alpha full_beta
                  (Move.mk 2 2 8 0) [] eq_refl (or_introl eq_refl))).
Defined.

(** On the empty board the generator returns nothing and the search
    returns 0 without a move. *)
Lemma heuristicNegamax_no_candidate_witness :
  Example.moves Example.gs_empty 1 = []
  /\ Example.search_from Example.gs_empty true 4
     = mkOutcome 0 Example.gs_empty None 1.
Proof.
  split; [reflexivity|].
  exact (proj2 (proj2 (proj2
    (@heuristicNegamax_no_candidate Example.N Example.remote2 Example.table_eval
       Example.kWinning Example.kThreatening Example.isort
       0 Example.gs_empty 1 4 3%nat true full_alpha full_beta eq_refl)))).
Defined.

(** The generator on the board of the instance. *)
Lemma searchMovesOrdered_spec_witness :
  Example.N <= Int32.INT_MAX
  /\ occupied Example.N Example.gs0 0 0
  /\ exists rmin cmin rmax cmax,
       bounding_box Example.N Example.gs0 rmin cmin rmax cmax
       /\ NoDup (map Move.cell (Example.moves Example.gs0 1))
       /\ StronglySorted Move.ge (Example.moves Example.gs0 1).
Proof.
  assert (HN : Example.N <= Int32.INT_MAX) by (vm_compute; discriminate).
  assert (Hocc : occupied Example.N Example.gs0 0 0)
    by (repeat split; vm_compute; discriminate).
  split; [exact HN|]. split; [exact Hocc|].
  destruct (@searchMovesOrdered_spec Example.N Example.remote2 Example.table_eval
              Example.isort isort_perm isort_sorted Example.gs0 1 0 0 HN Hocc)
    as (rmin & cmin & rmax & cmax & Hbox & H).
  exists rmin, cmin, rmax, cmax. split; [exact Hbox|]. exact (proj2 (proj2 H)).
Defined.

(** Both players get the same cells on the board of the instance. *)
Lemma searchMovesOrdered_same_cells_witness :
  Permutation (map Move.cell (Example.moves Example.gs0 1))
              (map Move.cell (Example.moves Example.gs0 2)).
Proof.
  exact (proj1
    (@searchMovesOrdered_same_cells Example.N Example.remote2 Example.table_eval
       Example.isort isort_perm Example.gs0 1 2)).
Defined.

(** With a single stone on the board, the depth -1 is the depth 6. *)
Lemma opening_shortcut_witness :
  (stones Example.gs_centre <= 2)%nat
  /\ Example.driver Example.gs_centre (-1) 1000
     = Example.driver Example.gs_centre 6 1000.
Proof.
  assert (Hcnt : (stones Example.gs_centre <= 2)%nat) by (vm_compute; lia).
  split; [exact Hcnt|].
  exact (proj2
    (@opening_shortcut Example.N Example.remote2 Example.table_eval
       Example.kWinning Example.kThreatening Example.isort Example.ticks 1000
       0 Example.gs_centre 1 (-1) 1000 true eq_refl Hcnt (or_introl eq_refl))).
Defined.

(** With four stones on the board, the depth -1 runs the deepening. *)
Lemma non_positive_depth_witness :
  (2 < stones Example.gs0)%nat
  /\ exists k,
       Example.driver Example.gs0 (-1) 1000
       = Some (mkReport Example.gs0 (Some (4 + 2 * Z.of_nat k))
                 (snd (deepening_run Example.N Example.remote2 Example.table_eval
                         Example.kWinning Example.kThreatening Example.isort
                         0 Example.gs0 1 true k))
                 (fst (deepening_run Example.N Example.remote2 Example.table_eval
                         Example.kWinning Example.kThreatening Example.isort
                         0 Example.gs0 1 true k))
                 (3 * k + 4)).
Proof.
  assert (Hcnt : (2 < stones Example.gs0)%nat) by (vm_compute; lia).
  split; [exact Hcnt|].
  destruct (@non_positive_depth Example.N Example.remote2 Example.table_eval
              Example.kWinning Example.kThreatening Example.isort Example.ticks 1000
              0 Example.gs0 1 (-1) 1000 true ltac:(lia) eq_refl)
    as [(_ & _ & k & _ & _ & _ & H)|[(_ & Hle & _)|(Hne & _)]].
  - exists k. exact H.
  - exfalso. lia.
  - exfalso. apply Hne. reflexivity.
Defined.


(** Best score -9, blocking score -10: the exact quotient is 0.1, below
    0.2, and the root returns the blocking move (0,2) with the score -10. *)
Lemma blocking_override_root_witness :
  f_max (Example.block_frame (-10) (-9)) = -9
  /\ 5 * (-9 - guard_b_score (-10)) < Z.abs (guard_b_score (-10))
  /\ score (Example.block_root (-10) (-9)) = -10
  /\ written (Example.block_root (-10) (-9)) = Some (0, 2).
Proof.
  pose proof (@blocking_override_root Example.N Example.remote2
                (Example.block_eval (-10) (-9)) Example.kWinning Example.kThreatening
                Example.isort (Example.block_leaf (-10) (-9)) 0 Example.gs_block 1 1
                true full_alpha full_beta
                (Move.mk 1 0 (-9) 0)
                [Move.mk 0 2 (-10) 0; Move.mk 1 1 (-204) 0; Move.mk 1 2 (-205) 0;
                 Move.mk 2 0 (-206) 0; Move.mk 2 1 (-207) 0; Move.mk 2 2 (-208) 0]
                (Move.mk 0 2 50 0)
                [Move.mk 2 2 8 0; Move.mk 2 1 7 0; Move.mk 2 0 6 0;
                 Move.mk 1 2 5 0; Move.mk 1 1 4 0; Move.mk 1 0 3 0]
                eq_refl ltac:(discriminate) eq_refl eq_refl ltac:(discriminate)) as H.
  cbv zeta in H. destruct H as (_ & _ & _ & _ & _ & _ & _ & Hexact).
  split; [vm_compute; reflexivity|]. split; [vm_compute; reflexivity|].
  apply Hexact; vm_compute; reflexivity.
Defined.

(** Outside the exact range the binary32 test need not follow the exact
    quotient: with the best score -40000001 and the blocking score -50000001
    the quotient 10000000 / 50000001 is below 0.2, but [(float)50000001] is
    50000000, the [float] quotient is the [float] nearest to 0.2, which is
    not below the [double] 0.2, and the test fails. *)
Lemma blocking_close_rounds_operands :
  5 * (-40000001 - -50000001) < Z.abs (-50000001)
  /\ F32.of_int (Int32.abs (-50000001)) = F32.of_int 50000000
  /\ blocking_close (-40000001) (-50000001) = false.
Proof. repeat split; vm_compute; reflexivity. Qed.

(** ** The result does not depend on the choice of std::sort

    [std::sort] leaves the order of equal elements open. When the scores of
    the candidates of a node are pairwise distinct, every sort that meets the
    contract returns the same list. *)

Lemma NoDup_map_inj_in (A B : Type) (f : A -> B) (l : list A) :
  (forall x y, In x l -> In y l -> f x = f y -> x = y) ->
  NoDup l -> NoDup (map f l).
Proof.
  intros Hf Hl; induction Hl as [|x l Hx Hl IH]; simpl; constructor.
  - rewrite in_map_iff. intros (y & Hy & Hin).
    apply Hf in Hy; [subst; contradiction | now right | now left].
  - apply IH. intros y z Hy Hz. apply Hf; now right.
Qed.

Lemma sorted_unique (l1 l2 : list Move.t) :
  StronglySorted Move.ge l1 -> StronglySorted Move.ge l2 ->
  Permutation l1 l2 ->
  NoDup (map Move.heuristic_val l1) ->
  l1 = l2.
Proof.
  intros H1; revert l2.
  induction H1 as [|x t1 Ht1 IH Hx]; intros l2 H2 HP Hnd.
  - apply Permutation_nil in HP. now subst.
  - destruct H2 as [|y t2 Ht2 Hy].
    + apply Permutation_sym, Permutation_nil in HP. discriminate.
    + assert (Exy : x = y).
      { assert (Hxin : In x (y :: t2)) by (apply (Permutation_in _ HP); now left).
        assert (Hyin : In y (x :: t1))
          by (apply (Permutation_in _ (Permutation_sym HP)); now left).
        destruct Hxin as [->|Hxin]; [reflexivity|].
        destruct Hyin as [->|Hyin]; [reflexivity|].
        exfalso. rewrite Forall_forall in Hx, Hy.
        specialize (Hx y Hyin). specialize (Hy x Hxin). unfold Move.ge in *.
        simpl in Hnd. apply NoDup_cons_iff in Hnd as [Hnot _].
        apply Hnot. replace (Move.heuristic_val x) with (Move.heuristic_val y) by lia.
        now apply in_map. }
      subst y. f_equal. apply IH; [assumption| |].
      * now apply Permutation_cons_inv in HP.
      * simpl in Hnd. now apply NoDup_cons_iff in Hnd.
Qed.

Section SortIndependence.

Variable g_board_size : Z.
Variable remoteCell : list Z -> Z -> Z -> bool.
Variable evalMove : list Z -> Z -> Z -> Z -> Z.
Variable kRenjuAiEvalWinningScore : Z.
Variable kRenjuAiEvalThreateningScore : Z.
Variables sort1 sort2 : list Move.t -> list Move.t.

Hypothesis sorts_agree :
  forall gs player,
    sort1 (scan g_board_size remoteCell evalMove gs player
                (clamp_extent g_board_size (find_extent g_board_size gs)))
    = sort2 (scan g_board_size remoteCell evalMove gs player
                  (clamp_extent g_board_size (find_extent g_board_size gs))).

Lemma search_loop_ext
    (child1 child2 : Z -> list Z -> Z -> Z -> Z -> Outcome)
    (player : Z) (enable_ab_pruning : bool) (beta : Z)
    (todo : list Move.t) (i : nat) (st : Frame) :
  (forall n g p a b, child1 n g p a b = child2 n g p a b) ->
  search_loop g_board_size child1 player enable_ab_pruning beta todo i st
  = search_loop g_board_size child2 player enable_ab_pruning beta todo i st.
Proof.
  intros Hchild. revert i st.
  induction todo as [|move rest IH]; intros i st; [reflexivity|].
  rewrite !search_loop_cons.
  assert (E : search_step g_board_size child1 player enable_ab_pruning beta st i move
              = search_step g_board_size child2 player enable_ab_pruning beta st i move).
  { unfold search_step. now rewrite Hchild. }
  rewrite E. destruct (snd _); [reflexivity|]. apply IH.
Qed.

Lemma heuristicNegamax_sort_ext
    (n : Z) (gs : list Z) (player initial_depth : Z) (depth : nat)
    (enable_ab_pruning : bool) (alpha beta : Z) :
  heuristicNegamax g_board_size remoteCell evalMove kRenjuAiEvalWinningScore
                   kRenjuAiEvalThreateningScore sort1
                   n gs player initial_depth depth enable_ab_pruning alpha beta
  = heuristicNegamax g_board_size remoteCell evalMove kRenjuAiEvalWinningScore
                     kRenjuAiEvalThreateningScore sort2
                     n gs player initial_depth depth enable_ab_pruning alpha beta.
Proof.
  revert n gs player alpha beta.
  induction depth as [|d IH]; intros n gs player alpha beta; [reflexivity|].
  rewrite !heuristicNegamax_S. unfold heuristicNegamax_node, searchMovesOrdered.
  rewrite !sorts_agree.
  destruct (sort2 _) as [|top others]; [reflexivity|].
  destruct (_ || _); [reflexivity|].
  rewrite (@search_loop_ext _ _ player enable_ab_pruning beta _ 0 _
             (fun n' g p a b => IH n' g p a b)).
  reflexivity.
Qed.

End SortIndependence.

(** The scan stays on the board, whatever extent the first loop has found. *)
Lemma scan_in_board (g_board_size : Z) (e : Extent) (r c : Z) :
  In (r, c) (list_prod (zrange (min_r (clamp_extent g_board_size e) - 2)
                               (max_r (clamp_extent g_board_size e) + 2))
                       (zrange (min_c (clamp_extent g_board_size e) - 2)
                               (max_c (clamp_extent g_board_size e) + 2))) ->
  0 <= r < g_board_size /\ 0 <= c < g_board_size.
Proof.
  rewrite in_prod_iff, !in_zrange. unfold clamp_extent; cbn [min_r min_c max_r max_c].
  destruct (Z.ltb_spec (min_r e - 2) 0), (Z.ltb_spec (min_c e - 2) 0),
           (Z.geb_spec (max_r e + 2) g_board_size),
           (Z.geb_spec (max_c e + 2) g_board_size); lia.
Qed.

(** *** The scores of the instance are pairwise distinct *)

Lemma score_row_NoDup (gs : list Z) (player : Z) :
  NoDup (Example.score_row gs player) /\ length (Example.score_row gs player) = 9%nat.
Proof.
  unfold Example.score_row. generalize (stones gs - 4)%nat. intros k.
  destruct (player =? 1); destruct k as [|[|[|[|[|k]]]]]; cbn; (split; [|reflexivity]);
    repeat (constructor; [cbn; intuition discriminate|]); constructor.
Qed.

Lemma table_eval_inj (gs : list Z) (player r c r' c' : Z) :
  0 <= r < 3 -> 0 <= c < 3 -> 0 <= r' < 3 -> 0 <= c' < 3 ->
  Example.table_eval gs r c player = Example.table_eval gs r' c' player ->
  (r, c) = (r', c').
Proof.
  intros Hr Hc Hr' Hc' H. unfold Example.table_eval, Example.N in H.
  destruct (score_row_NoDup gs player) as [Hnd Hlen].
  pose proof (proj1 (NoDup_nth (Example.score_row gs player) 0) Hnd
                (Z.to_nat (3 * r + c)) (Z.to_nat (3 * r' + c'))) as Hinj.
  rewrite Hlen in Hinj. specialize (Hinj ltac:(lia) ltac:(lia) H).
  f_equal; lia.
Qed.

Lemma instance_scan_scores_NoDup (gs : list Z) (player : Z) :
  NoDup (map Move.heuristic_val
             (scan Example.N Example.remote2 Example.table_eval gs player
                   (clamp_extent Example.N (find_extent Example.N gs)))).
Proof.
  rewrite scan_as_filter, map_map. apply NoDup_map_inj_in.
  - intros [r c] [r' c'] H1 H2 H. cbn in H.
    apply filter_In in H1 as [H1 _]. apply filter_In in H2 as [H2 _].
    apply scan_in_board in H1, H2.
    unfold Example.N in H1, H2. apply (table_eval_inj gs player); tauto.
  - apply NoDup_filter, NoDup_list_prod; apply NoDup_zrange.
Qed.

(** On the scans of the instance every conforming sort is the insertion
    sort. *)
Lemma instance_sort_forced (sort_moves : list Move.t -> list Move.t) :
  (forall l, Permutation (sort_moves l) l) ->
  (forall l, StronglySorted Move.ge (sort_moves l)) ->
  forall gs player,
    sort_moves (scan Example.N Example.remote2 Example.table_eval gs player
                     (clamp_extent Example.N (find_extent Example.N gs)))
    = Example.isort (scan Example.N Example.remote2 Example.table_eval gs player
                          (clamp_extent Example.N (find_extent Example.N gs))).
Proof.
  intros Hperm Hsorted gs player. symmetry. apply sorted_unique.
  - apply isort_sorted.
  - apply Hsorted.
  - rewrite isort_perm. symmetry. apply Hperm.
  - apply (Permutation_NoDup
             (Permutation_map Move.heuristic_val (Permutation_sym (isort_perm _)))).
    apply instance_scan_scores_NoDup.
Qed.

(** C2. The search of depth 4 from the board [gs0], player 1 to move, with
    the scores of the instance and whichever [std::sort] that meets its
    contract: with alpha-beta pruning it returns the score 23 and the move
    (1,1); without it, the score 22 and the move (1,0). The pruning flag
    changes the result of the search, not only the number of nodes visited
    (41 against 86). *)
Theorem pruning_changes_result (sort_moves : list Move.t -> list Move.t) :
  (forall l, Permutation (sort_moves l) l) ->
  (forall l, StronglySorted Move.ge (sort_moves l)) ->
  heuristicNegamax Example.N Example.remote2 Example.table_eval
                   Example.kWinning Example.kThreatening sort_moves
                   0 Example.gs0 1 4 4 true full_alpha full_beta
  = mkOutcome 23 Example.gs0 (Some (1, 1)) 41
  /\ heuristicNegamax Example.N Example.remote2 Example.table_eval
                      Example.kWinning Example.kThreatening sort_moves
                      0 Example.gs0 1 4 4 false full_alpha full_beta
     = mkOutcome 22 Example.gs0 (Some (1, 0)) 86.
Proof.
  intros Hperm Hsorted.
  rewrite !(@heuristicNegamax_sort_ext Example.N Example.remote2 Example.table_eval
              Example.kWinning Example.kThreatening sort_moves Example.isort
              (@instance_sort_forced sort_moves Hperm Hsorted)).
  split; vm_compute; reflexivity.
Qed.

(** The same two searches with the insertion sort. *)
Lemma pruning_changes_result_witness :
  Example.search true 4 = mkOutcome 23 Example.gs0 (Some (1, 1)) 41
  /\ Example.search false 4 = mkOutcome 22 Example.gs0 (Some (1, 0)) 86.
Proof. exact (@pruning_changes_result Example.isort isort_perm isort_sorted). Defined.

(** The exhaustive search of depth 2 on the board of the instance, with the
    count of stones as the state evaluation: the value is 2 and the first
    cell that attains it is (0,2). *)
Example negamax_instance :
  negamax Example.N Example.remote2 Example.state_eval Example.gs0 1 2
  = (2, Example.gs0, Some (0, 2))
  /\ negamax_value Example.N Example.remote2 Example.state_eval Example.gs0 1 2 = 2.
Proof. split; vm_compute; reflexivity. Qed.

(** ** Further properties of the generator *)

Section GeneratorEdges.

Variable g_board_size : Z.
Variable remoteCell : list Z -> Z -> Z -> bool.
Variable evalMove : list Z -> Z -> Z -> Z -> Z.
Variable sort_moves : list Move.t -> list Move.t.

Hypothesis sort_perm : forall l, Permutation (sort_moves l) l.

Local Abbreviation getCell := (getCell g_board_size).
Local Abbreviation scan := (scan g_board_size remoteCell evalMove).
Local Abbreviation find_extent := (find_extent g_board_size).
Local Abbreviation clamp_extent := (clamp_extent g_board_size).
Local Abbreviation searchMovesOrdered :=
  (searchMovesOrdered g_board_size remoteCell evalMove sort_moves).

Lemma sort_moves_nil : sort_moves [] = [].
Proof. apply Permutation_nil, Permutation_sym, sort_perm. Qed.

Lemma searchMovesOrdered_in_scan (gs : list Z) (player : Z) (m : Move.t) :
  In m (searchMovesOrdered gs player) <->
  In m (scan gs player (clamp_extent (find_extent gs))).
Proof.
  unfold searchMovesOrdered. split; apply Permutation_in;
    [apply sort_perm | apply Permutation_sym, sort_perm].
Qed.

(** Whatever the board holds, every move the generator returns sits on the
    board, so that the index [g_board_size * r + c] of its cell is inside
    the array; the cell is empty and not remote, and the move carries the
    score of the cell for the player. *)
Lemma searchMovesOrdered_member (gs : list Z) (player : Z) (m : Move.t) :
  In m (searchMovesOrdered gs player) ->
  0 <= Move.r m < g_board_size
  /\ 0 <= Move.c m < g_board_size
  /\ 0 <= g_board_size * Move.r m + Move.c m < g_board_size * g_board_size
  /\ getCell gs (Move.r m) (Move.c m) = 0
  /\ remoteCell gs (Move.r m) (Move.c m) = false
  /\ Move.heuristic_val m = evalMove gs (Move.r m) (Move.c m) player.
Proof.
  intros H. apply searchMovesOrdered_in_scan, in_scan in H.
  destruct H as (Hr & Hc & H0 & Hrem & Hm).
  assert (Hin : 0 <= Move.r m < g_board_size /\ 0 <= Move.c m < g_board_size).
  { apply (@scan_in_board g_board_size (find_extent gs)).
    apply in_prod_iff. now rewrite !in_zrange. }
  destruct Hin as [Hr' Hc'].
  repeat split; try lia; try assumption; try nia.
  rewrite Hm. reflexivity.
Qed.

(** When no cell of the board is both empty and not remote (a full board,
    or free cells that are all remote), the generator returns nothing. *)
Lemma searchMovesOrdered_none_playable (gs : list Z) (player : Z) :
  (forall r c, 0 <= r < g_board_size -> 0 <= c < g_board_size ->
               getCell gs r c <> 0 \/ remoteCell gs r c = true) ->
  searchMovesOrdered gs player = [].
Proof.
  intros H. destruct (searchMovesOrdered gs player) as [|m l] eqn:E; [reflexivity|].
  exfalso.
  assert (Hm : In m (searchMovesOrdered gs player)) by (rewrite E; now left).
  apply searchMovesOrdered_member in Hm as (Hr & Hc & _ & H0 & Hrem & _).
  destruct (H _ _ Hr Hc) as [Hne|Ht]; congruence.
Qed.

Lemma find_extent_no_stone (gs : list Z) :
  (forall i, array_get gs i = 0) ->
  find_extent gs = mkExtent Int32.INT_MAX Int32.INT_MAX Int32.INT_MIN Int32.INT_MIN.
Proof.
  intros Hz. rewrite find_extent_flat.
  pose proof (extent_fold g_board_size gs
    (list_prod (zrange 0 (g_board_size - 1)) (zrange 0 (g_board_size - 1)))
    (mkExtent Int32.INT_MAX Int32.INT_MAX Int32.INT_MIN Int32.INT_MIN)) as H.
  set (e := fold_left _ _ _) in *. cbn [min_r min_c max_r max_c] in H.
  destruct H as (_ & _ & H1 & H2 & H3 & H4).
  assert (Hno : forall rc, ~ nonzero_at g_board_size gs rc).
  { intros rc Hnz. apply Hnz. apply Hz. }
  destruct H1 as [H1|(x & _ & Hx)]; [|now apply Hno in Hx].
  destruct H2 as [H2|(x & _ & Hx)]; [|now apply Hno in Hx].
  destruct H3 as [H3|(x & _ & Hx)]; [|now apply Hno in Hx].
  destruct H4 as [H4|(x & _ & Hx)]; [|now apply Hno in Hx].
  destruct e; cbn [min_r min_c max_r max_c] in *; congruence.
Qed.

Lemma all_zero_array_get (gs : list Z) (i : Z) :
  Forall (fun x => x = 0) gs -> array_get gs i = 0.
Proof.
  intros H. unfold array_get. destruct (i <? 0); [reflexivity|].
  generalize (Z.to_nat i). induction H as [|x l Hx Hl IH]; intros [|k]; simpl;
    try reflexivity; [exact Hx | apply IH].
Qed.

Lemma all_zero_stones (gs : list Z) : Forall (fun x => x = 0) gs -> stones gs = 0%nat.
Proof.
  unfold stones. induction 1 as [|x l Hx Hl IH]; [reflexivity|].
  simpl. subst x. exact IH.
Qed.

(** On a board without stones the first loop leaves its extent at
    [INT_MAX] and [INT_MIN], the second loop is not entered, and the
    generator returns nothing. *)
Lemma searchMovesOrdered_no_stone (gs : list Z) (player : Z) :
  0 <= g_board_size ->
  Forall (fun x => x = 0) gs ->
  searchMovesOrdered gs player = [].
Proof.
  intros HN Hz. unfold searchMovesOrdered.
  rewrite find_extent_no_stone by (intros i; now apply all_zero_array_get).
  replace (scan gs player _) with (@nil Move.t); [apply sort_moves_nil|].
  symmetry. unfold scan, clamp_extent. cbn [min_r min_c max_r max_c].
  change (Int32.INT_MAX - 2 <? 0) with false. cbv iota.
  replace (Int32.INT_MIN + 2 >=? g_board_size) with false.
  - reflexivity.
  - symmetry. rewrite Z.geb_leb. apply Z.leb_gt. unfold Int32.INT_MIN. lia.
Qed.

(** *** The cells of the generator and the cells of the exhaustive search *)

Local Abbreviation playable := (playable g_board_size remoteCell).
Local Abbreviation occupied := (occupied g_board_size).

Lemma searchMovesOrdered_cells_NoDup (gs : list Z) (player : Z) :
  NoDup (map Move.cell (searchMovesOrdered gs player)).
Proof.
  apply (Permutation_NoDup
           (l := map Move.cell (scan gs player (clamp_extent (find_extent gs))))).
  - apply Permutation_map, Permutation_sym, sort_perm.
  - apply scan_cells_NoDup.
Qed.

Lemma searchMovesOrdered_in_playable (gs : list Z) (player : Z) (rc : Z * Z) :
  In rc (map Move.cell (searchMovesOrdered gs player)) -> In rc (playable gs).
Proof.
  intros H. apply in_map_iff in H as (m & <- & Hm).
  apply searchMovesOrdered_member in Hm as (Hr & Hc & _ & H0 & Hrem & _).
  apply in_playable. now repeat split.
Qed.

Lemma playable_in_searchMovesOrdered (gs : list Z) (player : Z) (r c : Z) :
  g_board_size <= Int32.INT_MAX ->
  (forall r c, 0 <= r < g_board_size -> 0 <= c < g_board_size ->
     remoteCell gs r c = false ->
     exists r' c', occupied gs r' c' /\ Z.abs (r - r') <= 2 /\ Z.abs (c - c') <= 2) ->
  In (r, c) (playable gs) ->
  In (r, c) (map Move.cell (searchMovesOrdered gs player)).
Proof.
  intros HN Hnear H. apply in_playable in H as (Hr & Hc & H0 & Hrem).
  destruct (Hnear r c Hr Hc Hrem) as (r' & c' & Hocc & Hdr & Hdc).
  pose proof (find_extent_is_box HN Hocc) as Hbox.
  destruct Hbox as (Hin & _). destruct (Hin r' c' Hocc) as [Hr' Hc'].
  apply in_map_iff. exists (scored evalMove gs player (r, c)). split; [reflexivity|].
  apply searchMovesOrdered_in_scan, in_scan.
  destruct (find_extent gs) as [a b a' b'].
  rewrite clamp_extent_rows. cbn [min_r min_c max_r max_c] in *.
  unfold scored; cbn [fst snd Move.r Move.c].
  repeat split; try assumption; lia.
Qed.


(** X2. When [remoteCell] accepts only cells within 2 rows and 2 columns of
    a stone (the radius the extent of [searchMovesOrdered] is built for),
    the bounding box loses nothing: the cells of the moves returned are, each
    once, the empty non-remote cells of the whole board, that is the cells
    the exhaustive [negamax] loops over. *)
Theorem searchMovesOrdered_all_playable (gs : list Z) (player : Z) :
  g_board_size <= Int32.INT_MAX ->
  (forall r c, 0 <= r < g_board_size -> 0 <= c < g_board_size ->
     remoteCell gs r c = false ->
     exists r' c', occupied gs r' c' /\ Z.abs (r - r') <= 2 /\ Z.abs (c - c') <= 2) ->
  Permutation (map Move.cell (searchMovesOrdered gs player)) (playable gs).
Proof.
  intros HN Hnear. apply NoDup_Permutation.
  - apply searchMovesOrdered_cells_NoDup.
  - apply playable_NoDup.
  - intros [r c]. split.
    + apply searchMovesOrdered_in_playable.
    + now apply playable_in_searchMovesOrdered.
Qed.

End GeneratorEdges.

(** ** Further properties of the search *)

Section SearchEdges.

Variable g_board_size : Z.
Variable remoteCell : list Z -> Z -> Z -> bool.
Variable evalMove : list Z -> Z -> Z -> Z -> Z.
Variable kRenjuAiEvalWinningScore : Z.
Variable kRenjuAiEvalThreateningScore : Z.
Variable sort_moves : list Move.t -> list Move.t.
Variable clock : nat -> Z.
Variable CLOCKS_PER_SEC : Z.

Local Abbreviation getCell := (getCell g_board_size).
Local Abbreviation setCell := (setCell g_board_size).
Local Abbreviation searchMovesOrdered :=
  (searchMovesOrdered g_board_size remoteCell evalMove sort_moves).
Local Abbreviation search_step := (search_step g_board_size).
Local Abbreviation search_loop := (search_loop g_board_size).
Local Abbreviation threatened := (threatened kRenjuAiEvalThreateningScore).
Local Abbreviation candidates := (candidates evalMove kRenjuAiEvalThreateningScore).
Local Abbreviation heuristicNegamax_node :=
  (heuristicNegamax_node g_board_size remoteCell evalMove kRenjuAiEvalWinningScore
                         kRenjuAiEvalThreateningScore sort_moves).
Local Abbreviation heuristicNegamax :=
  (heuristicNegamax g_board_size remoteCell evalMove kRenjuAiEvalWinningScore
                    kRenjuAiEvalThreateningScore sort_moves).
Local Abbreviation iterative_deepening :=
  (iterative_deepening g_board_size remoteCell evalMove kRenjuAiEvalWinningScore
                       kRenjuAiEvalThreateningScore sort_moves clock CLOCKS_PER_SEC).
Local Abbreviation heuristicNegamax_driver :=
  (heuristicNegamax_driver g_board_size remoteCell evalMove kRenjuAiEvalWinningScore
                           kRenjuAiEvalThreateningScore sort_moves clock CLOCKS_PER_SEC).

Lemma heuristicNegamax_nil
    (n : Z) (gs : list Z) (player initial_depth : Z) (d : nat)
    (enable_ab_pruning : bool) (alpha beta : Z) :
  searchMovesOrdered gs player = [] ->
  heuristicNegamax n gs player initial_depth (S d) enable_ab_pruning alpha beta
  = mkOutcome 0 gs None (n + 1).
Proof.
  intros H. rewrite heuristicNegamax_S. unfold heuristicNegamax_node. now rewrite H.
Qed.

(** *** The node counter *)

Lemma candidates_length (gs : list Z) (player depth initial_depth : Z)
    (moves_player moves_opponent : list Move.t) :
  (length (candidates gs player depth initial_depth moves_player moves_opponent)
   <= 14)%nat.
Proof.
  unfold candidates. rewrite length_app.
  assert (H1 : (length (firstn (Z.to_nat (breadth_at depth initial_depth)) moves_player)
                <= 12)%nat).
  { etransitivity; [apply firstn_le_length|].
    unfold breadth_at, kTopLayerSearchBreadth, kSearchBreadth.
    destruct (_ =? _); lia. }
  destruct (threatened moves_opponent); [|simpl; lia].
  rewrite length_map.
  pose proof (firstn_le_length 2 moves_opponent). lia.
Qed.

Lemma search_loop_nodes
    (child : Z -> list Z -> Z -> Z -> Z -> Outcome)
    (player : Z) (enable_ab_pruning : bool) (beta : Z) (B : Z)
    (todo : list Move.t) (i : nat) (st : Frame) :
  0 <= B ->
  (forall n g p a b, n <= node_count (child n g p a b) <= n + B) ->
  f_nodes st
  <= f_nodes (search_loop child player enable_ab_pruning beta todo i st)
  <= f_nodes st + Z.of_nat (length todo) * B.
Proof.
  intros HB Hchild. revert i st.
  induction todo as [|move rest IH]; intros i st; [simpl; lia|].
  rewrite search_loop_cons.
  set (st' := fst (search_step child player enable_ab_pruning beta st i move)).
  assert (Hst : f_nodes st <= f_nodes st' <= f_nodes st + B).
  { subst st'. unfold search_step; cbn [fst f_nodes]. apply Hchild. }
  cbn [length]. destruct (snd _); [nia|].
  specialize (IH (S i) st'). nia.
Qed.

Lemma heuristicNegamax_nodes
    (n : Z) (gs : list Z) (player initial_depth : Z) (depth : nat)
    (enable_ab_pruning : bool) (alpha beta : Z) :
  n <= node_count (heuristicNegamax n gs player initial_depth depth
                                    enable_ab_pruning alpha beta)
    <= n + node_bound depth
  /\ 0 <= node_bound depth.
Proof.
  revert n gs player alpha beta.
  induction depth as [|d IH]; intros n gs player alpha beta; [simpl; lia|].
  assert (HB : 0 <= node_bound d) by (apply (IH 0 [] 0 0 0)).
  rewrite heuristicNegamax_S. unfold heuristicNegamax_node.
  cbn [node_bound]. unfold kTopLayerSearchBreadth.
  destruct (searchMovesOrdered gs player) as [|top others] eqn:E;
    [cbn [node_count]; lia|].
  destruct (_ || _); [cbn [node_count]; lia|].
  destruct (blocking_override _ _ _ _) as [result mv]; cbn [node_count].
  pose proof (candidates_length gs player (Z.of_nat (S d)) initial_depth
                (top :: others) (searchMovesOrdered gs (opponent_of player))) as Hlen.
  match goal with
  | |- context [f_nodes (search_loop ?c ?p ?e ?b ?t ?i ?s)] =>
      pose proof (@search_loop_nodes c p e b (node_bound d) t i s HB
                    (fun n' g p' a b' => proj1 (IH n' g p' a b'))) as Hloop
  end.
  cbn [f_nodes] in Hloop. nia.
Qed.

(** *** The move written *)

Lemma map_list_set (A B : Type) (f : A -> B) (l : list A) (i : nat) (m v : A) :
  nth_error l i = Some m -> f v = f m -> map f (list_set l i v) = map f l.
Proof.
  revert i; induction l as [|x l IH]; intros [|j]; simpl; try discriminate.
  - intros [= ->] ->. reflexivity.
  - intros H Hf. now rewrite (IH j H Hf).
Qed.

Lemma search_step_cells
    (child : Z -> list Z -> Z -> Z -> Z -> Outcome)
    (player : Z) (enable_ab_pruning : bool) (beta : Z)
    (st : Frame) (i : nat) (move : Move.t) :
  map Move.cell (f_cands (fst (search_step child player enable_ab_pruning beta st i move)))
  = map Move.cell (f_cands st).
Proof.
  unfold search_step; cbn [fst f_cands].
  destruct (nth_error (f_cands st) i) as [m|] eqn:E; [|reflexivity].
  now apply map_list_set with (m := m).
Qed.

Lemma search_loop_cells
    (child : Z -> list Z -> Z -> Z -> Z -> Outcome)
    (player : Z) (enable_ab_pruning : bool) (beta : Z)
    (todo : list Move.t) (i : nat) (st : Frame) :
  map Move.cell (f_cands (search_loop child player enable_ab_pruning beta todo i st))
  = map Move.cell (f_cands st).
Proof.
  revert i st. induction todo as [|move rest IH]; intros i st; [reflexivity|].
  rewrite search_loop_cons.
  pose proof (search_step_cells child player enable_ab_pruning beta st i move) as Hs.
  destruct (snd _); [exact Hs|]. now rewrite IH.
Qed.

(** A turn of the loop either keeps the best score and the move, or raises
    the score and writes the cell of its candidate. *)
Lemma search_step_best
    (child : Z -> list Z -> Z -> Z -> Z -> Outcome)
    (player : Z) (enable_ab_pruning : bool) (beta : Z)
    (st : Frame) (i : nat) (move : Move.t) :
  let st' := fst (search_step child player enable_ab_pruning beta st i move) in
  (f_move st' = f_move st /\ f_max st' = f_max st)
  \/ (f_move st' = Some (Move.cell move) /\ f_max st < f_max st').
Proof.
  unfold search_step; cbn [fst f_move f_max].
  destruct (Z.gtb_spec
              (Int32.sub (Move.heuristic_val move)
                 (decay (score (child (f_nodes st)
                    (setCell (f_gs st) (Move.r move) (Move.c move) (Int32.to_char player))
                    (opponent_of player) (Int32.neg beta)
                    (Int32.add (Int32.neg (f_alpha st)) (Move.heuristic_val move))))))
              (f_max st)) as [Hgt|Hle].
  - right. split; [reflexivity|lia].
  - left. split; reflexivity.
Qed.

Lemma search_loop_best
    (child : Z -> list Z -> Z -> Z -> Z -> Outcome)
    (player : Z) (enable_ab_pruning : bool) (beta : Z)
    (todo : list Move.t) (i : nat) (st : Frame) :
  let st' := search_loop child player enable_ab_pruning beta todo i st in
  (f_move st' = f_move st /\ f_max st' = f_max st)
  \/ (exists m, In m todo /\ f_move st' = Some (Move.cell m) /\ f_max st < f_max st').
Proof.
  revert i st. induction todo as [|move rest IH]; intros i st; [left; split; reflexivity|].
  cbv zeta. rewrite search_loop_cons.
  pose proof (search_step_best child player enable_ab_pruning beta st i move) as Hs.
  cbv zeta in Hs.
  set (st1 := fst (search_step child player enable_ab_pruning beta st i move)) in *.
  destruct (snd _).
  - destruct Hs as [Hs|[Hm Hx]]; [now left|].
    right. exists move. split; [now left|]. split; assumption.
  - specialize (IH (S i) st1). cbv zeta in IH.
    destruct IH as [[Hm Hx]|(m & Hin & Hm & Hx)].
    + rewrite Hm, Hx. destruct Hs as [Hs|[Hm1 Hx1]]; [now left|].
      right. exists move. split; [now left|]. split; assumption.
    + right. exists m. split; [now right|]. split; [exact Hm|].
      destruct Hs as [[_ Hs]|[_ Hs]]; lia.
Qed.

Hypothesis sort_perm : forall l, Permutation (sort_moves l) l.

Lemma candidates_cells (gs : list Z) (player depth initial_depth : Z) (m : Move.t) :
  In m (candidates gs player depth initial_depth
                   (searchMovesOrdered gs player)
                   (searchMovesOrdered gs (opponent_of player))) ->
  In (Move.cell m) (map Move.cell (searchMovesOrdered gs player)).
Proof.
  unfold candidates. intros Hm. apply in_app_or in Hm as [Hm|Hm].
  - destruct (threatened _); [|contradiction].
    apply in_map_iff in Hm as (m' & <- & Hm'). apply in_firstn in Hm'.
    apply (Permutation_in _
             (searchMovesOrdered_cells g_board_size remoteCell evalMove sort_moves
                sort_perm gs (opponent_of player) player)).
    change (Move.cell (Move.set_heuristic_val _ m')) with (Move.cell m').
    now apply in_map.
  - apply in_firstn in Hm. now apply in_map.
Qed.

(** What a node writes: a cell of the candidate list of the player; and it
    writes nothing only with no candidate, or with the score [INT_MIN]. *)
Lemma heuristicNegamax_node_written
    (child : Z -> list Z -> Z -> Z -> Z -> Outcome)
    (n : Z) (gs : list Z) (player initial_depth depth : Z)
    (enable_ab_pruning : bool) (alpha beta : Z) :
  let res := heuristicNegamax_node child n gs player initial_depth depth
                                   enable_ab_pruning alpha beta in
  match written res with
  | Some rc => In rc (map Move.cell (searchMovesOrdered gs player))
  | None => searchMovesOrdered gs player = [] \/ score res = Int32.INT_MIN
  end.
Proof.
  cbv zeta. unfold heuristicNegamax_node.
  pose proof (candidates_cells gs player depth initial_depth) as Hcells.
  destruct (searchMovesOrdered gs player) as [|top others] eqn:E; [now left|].
  destruct (_ || _); [cbn [written]; now left|].
  set (cands := candidates _ _ _ _ _ _) in *.
  set (st0 := mkFrame gs (n + 1) cands Int32.INT_MIN alpha None).
  pose proof (search_loop_best child player enable_ab_pruning beta cands 0 st0) as Hbest.
  pose proof (search_loop_cells child player enable_ab_pruning beta cands 0 st0) as Hc.
  cbv zeta in Hbest.
  set (st := search_loop child player enable_ab_pruning beta cands 0 st0) in *.
  change (map Move.cell (f_cands st) = map Move.cell cands) in Hc.
  change (f_move st0) with (@None (Z * Z)) in Hbest.
  change (f_max st0) with Int32.INT_MIN in Hbest.
  assert (Hkeep : match f_move st with
                  | Some rc => In rc (map Move.cell (top :: others))
                  | None => f_max st = Int32.INT_MIN
                  end).
  { destruct Hbest as [[-> Hx]|(m & Hin & -> & _)]; [exact Hx|]. now apply Hcells. }
  unfold blocking_override.
  destruct ((depth =? initial_depth) && _ && (f_max st <? 0)).
  - destruct (f_cands st) as [|bm rest] eqn:Ecs.
    + cbn [written score]. destruct (f_move st); [exact Hkeep|now right].
    + destruct (blocking_close _ _); cbn [written score].
      * assert (Hbm : In (Move.cell bm) (map Move.cell cands))
          by (rewrite <- Hc; now left).
        apply in_map_iff in Hbm as (m & Heq & Hin).
        change (In (Move.cell bm) (map Move.cell (top :: others))).
        rewrite <- Heq. now apply Hcells.
      * destruct (f_move st); [exact Hkeep|now right].
  - cbn [written score]. destruct (f_move st); [exact Hkeep|now right].
Qed.

Lemma heuristicNegamax_written
    (n : Z) (gs : list Z) (player initial_depth : Z) (depth : nat)
    (enable_ab_pruning : bool) (alpha beta : Z) (rc : Z * Z) :
  written (heuristicNegamax n gs player initial_depth depth
                            enable_ab_pruning alpha beta) = Some rc ->
  In rc (map Move.cell (searchMovesOrdered gs player)).
Proof.
  destruct depth as [|d]; [discriminate|]. rewrite heuristicNegamax_S. intros H.
  pose proof (heuristicNegamax_node_written
                (fun n' gs' player' alpha' beta' =>
                   heuristicNegamax n' gs' player' initial_depth d
                                    enable_ab_pruning alpha' beta')
                n gs player initial_depth (Z.of_nat (S d))
                enable_ab_pruning alpha beta) as Hw.
  cbv zeta in Hw. now rewrite H in Hw.
Qed.

(** *** The window without pruning *)

Lemma search_loop_window
    (child : Z -> list Z -> Z -> Z -> Z -> Outcome)
    (player beta1 beta2 : Z) (todo : list Move.t) (i : nat) (st1 st2 : Frame) :
  (forall n g p a b a' b', child n g p a b = child n g p a' b') ->
  f_gs st1 = f_gs st2 -> f_nodes st1 = f_nodes st2 -> f_cands st1 = f_cands st2 ->
  f_max st1 = f_max st2 -> f_move st1 = f_move st2 ->
  let r1 := search_loop child player false beta1 todo i st1 in
  let r2 := search_loop child player false beta2 todo i st2 in
  f_gs r1 = f_gs r2 /\ f_nodes r1 = f_nodes r2 /\ f_cands r1 = f_cands r2
  /\ f_max r1 = f_max r2 /\ f_move r1 = f_move r2.
Proof.
  intros Hchild. revert i st1 st2.
  induction todo as [|move rest IH]; intros i st1 st2 Hg Hn Hc Hx Hm; [now repeat split|].
  cbv zeta. rewrite !search_loop_cons.
  unfold search_step at 1 3. cbn [snd andb].
  apply IH; unfold search_step; cbn [fst f_gs f_nodes f_cands f_max f_move];
    rewrite ?Hg, ?Hn, ?Hc, ?Hx, ?Hm;
    rewrite (Hchild (f_nodes st2)
               (setCell (f_gs st2) (Move.r move) (Move.c move) (Int32.to_char player))
               (opponent_of player) (Int32.neg beta1)
               (Int32.add (Int32.neg (f_alpha st1)) (Move.heuristic_val move))
               (Int32.neg beta2)
               (Int32.add (Int32.neg (f_alpha st2)) (Move.heuristic_val move)));
    reflexivity.
Qed.

Lemma heuristicNegamax_node_window
    (child : Z -> list Z -> Z -> Z -> Z -> Outcome)
    (n : Z) (gs : list Z) (player initial_depth depth : Z)
    (alpha beta alpha' beta' : Z) :
  (forall n g p a b a' b', child n g p a b = child n g p a' b') ->
  heuristicNegamax_node child n gs player initial_depth depth false alpha beta
  = heuristicNegamax_node child n gs player initial_depth depth false alpha' beta'.
Proof.
  intros Hchild. unfold heuristicNegamax_node.
  destruct (searchMovesOrdered gs player) as [|top others] eqn:E; [reflexivity|].
  destruct (_ || _); [reflexivity|].
  set (cands := candidates _ _ _ _ _ _).
  pose proof (@search_loop_window child player beta beta' cands 0
                (mkFrame gs (n + 1) cands Int32.INT_MIN alpha None)
                (mkFrame gs (n + 1) cands Int32.INT_MIN alpha' None)
                Hchild eq_refl eq_refl eq_refl eq_refl eq_refl)
    as (Hg & Hn & Hc & Hx & Hm).
  unfold blocking_override. rewrite Hg, Hn, Hc, Hx, Hm. reflexivity.
Qed.

Lemma heuristicNegamax_window
    (n : Z) (gs : list Z) (player initial_depth : Z) (depth : nat)
    (alpha beta alpha' beta' : Z) :
  heuristicNegamax n gs player initial_depth depth false alpha beta
  = heuristicNegamax n gs player initial_depth depth false alpha' beta'.
Proof.
  revert n gs player alpha beta alpha' beta'.
  induction depth as [|d IH]; intros; [reflexivity|].
  rewrite !heuristicNegamax_S. apply heuristicNegamax_node_window.
  intros. apply IH.
Qed.

(** *** The nodes visited with and without pruning *)

Lemma search_loop_pruned_nodes
    (child1 child2 : Z -> list Z -> Z -> Z -> Z -> Outcome)
    (player beta1 beta2 B : Z) (todo : list Move.t) (i1 i2 : nat) (st1 st2 : Frame) :
  0 <= B ->
  (forall n g p a b, board (child1 n g p a b) = g) ->
  (forall n g p a b, board (child2 n g p a b) = g) ->
  (forall n g p a b, n <= node_count (child2 n g p a b) <= n + B) ->
  (forall n1 n2 g p a1 b1 a2 b2,
      node_count (child1 n1 g p a1 b1) - n1 <= node_count (child2 n2 g p a2 b2) - n2) ->
  Forall (fun m => getCell (f_gs st1) (Move.r m) (Move.c m) = 0) todo ->
  f_gs st1 = f_gs st2 ->
  f_nodes (search_loop child1 player true beta1 todo i1 st1) - f_nodes st1
  <= f_nodes (search_loop child2 player false beta2 todo i2 st2) - f_nodes st2.
Proof.
  intros HB Hb1 Hb2 Hmono Hle. revert i1 i2 st1 st2.
  induction todo as [|move rest IH]; intros i1 i2 st1 st2 Hall Hg; [simpl; lia|].
  inversion Hall as [|? ? H0 Hrest]; subst.
  rewrite !search_loop_cons.
  pose proof (search_step_board g_board_size child1 player true beta1 st1 i1 move Hb1 H0) as Hg1.
  assert (H0' : getCell (f_gs st2) (Move.r move) (Move.c move) = 0) by now rewrite <- Hg.
  pose proof (search_step_board g_board_size child2 player false beta2 st2 i2 move Hb2 H0') as Hg2.
  set (s1 := fst (search_step child1 player true beta1 st1 i1 move)) in *.
  set (s2 := fst (search_step child2 player false beta2 st2 i2 move)) in *.
  assert (Hstep : f_nodes s1 - f_nodes st1 <= f_nodes s2 - f_nodes st2).
  { unfold s1, s2, search_step; cbn [fst f_nodes]. rewrite Hg. apply Hle. }
  replace (snd (search_step child2 player false beta2 st2 i2 move)) with false
    by reflexivity.
  destruct (snd _).
  - pose proof (@search_loop_nodes child2 player false beta2 B rest (S i2) s2 HB Hmono).
    lia.
  - assert (Hrec : f_nodes (search_loop child1 player true beta1 rest (S i1) s1)
                   - f_nodes s1
                   <= f_nodes (search_loop child2 player false beta2 rest (S i2) s2)
                      - f_nodes s2).
    { apply IH; [now rewrite Hg1 | now rewrite Hg1, Hg2]. }
    lia.
Qed.

Lemma heuristicNegamax_pruned_nodes
    (depth : nat) (n1 n2 : Z) (gs : list Z) (player initial_depth : Z)
    (a1 b1 a2 b2 : Z) :
  node_count (heuristicNegamax n1 gs player initial_depth depth true a1 b1) - n1
  <= node_count (heuristicNegamax n2 gs player initial_depth depth false a2 b2) - n2.
Proof.
  revert n1 n2 gs player a1 b1 a2 b2.
  induction depth as [|d IH]; intros; [simpl; lia|].
  rewrite !heuristicNegamax_S. unfold heuristicNegamax_node.
  pose proof (@candidates_empty_cells g_board_size remoteCell evalMove
                kRenjuAiEvalThreateningScore sort_moves sort_perm
                gs player (Z.of_nat (S d)) initial_depth) as Hc.
  destruct (searchMovesOrdered gs player) as [|top others] eqn:E;
    [cbn [node_count]; lia|].
  destruct (_ || _); [cbn [node_count]; lia|].
  set (cands := candidates _ _ _ _ _ _) in *.
  destruct (blocking_override _ _ _ _) as [result1 mv1].
  destruct (blocking_override _ _ _ _) as [result2 mv2].
  cbn [node_count].
  pose proof (@search_loop_pruned_nodes
                (fun n gs' player' alpha' beta' =>
                   heuristicNegamax n gs' player' initial_depth d true alpha' beta')
                (fun n gs' player' alpha' beta' =>
                   heuristicNegamax n gs' player' initial_depth d false alpha' beta')
                player b1 b2 (node_bound d) cands 0 0
                (mkFrame gs (n1 + 1) cands Int32.INT_MIN a1 None)
                (mkFrame gs (n2 + 1) cands Int32.INT_MIN a2 None)) as Hloop.
  cbn [f_nodes f_gs] in Hloop.
  assert (Hgoal : forall x y, x - (n1 + 1) <= y - (n2 + 1) -> x - n1 <= y - n2)
    by (intros; lia).
  apply Hgoal, Hloop.
  - apply (heuristicNegamax_nodes 0 gs player initial_depth d false 0 0).
  - intros. apply (@heuristicNegamax_board g_board_size remoteCell evalMove
                     kRenjuAiEvalWinningScore kRenjuAiEvalThreateningScore
                     sort_moves sort_perm).
  - intros. apply (@heuristicNegamax_board g_board_size remoteCell evalMove
                     kRenjuAiEvalWinningScore kRenjuAiEvalThreateningScore
                     sort_moves sort_perm).
  - intros. apply heuristicNegamax_nodes.
  - intros. apply IH.
  - exact Hc.
  - reflexivity.
Qed.

(** *** The public overload *)

Local Abbreviation search_at :=
  (search_at g_board_size remoteCell evalMove kRenjuAiEvalWinningScore
             kRenjuAiEvalThreateningScore sort_moves).
Local Abbreviation deepening_run :=
  (deepening_run g_board_size remoteCell evalMove kRenjuAiEvalWinningScore
                 kRenjuAiEvalThreateningScore sort_moves).
Local Abbreviation deepening_stop := (deepening_stop clock CLOCKS_PER_SEC).

Lemma memcpy_board (gs : list Z) :
  Z.of_nat (length gs) = g_board_size * g_board_size ->
  memcpy gs (g_board_size * g_board_size) = gs.
Proof. intros <-. apply memcpy_all. Qed.

Lemma search_at_move
    (gs : list Z) (player : Z) (enable_ab_pruning : bool) (d : Z)
    (st : Z * option (Z * Z)) (rc : Z * Z) :
  Z.of_nat (length gs) = g_board_size * g_board_size ->
  (forall rc', snd st = Some rc' ->
               In rc' (map Move.cell (searchMovesOrdered gs player))) ->
  snd (search_at gs player enable_ab_pruning d st) = Some rc ->
  In rc (map Move.cell (searchMovesOrdered gs player)).
Proof.
  intros Hlen Hst. unfold search_at. cbn [snd]. rewrite (memcpy_board gs Hlen).
  destruct (written _) as [w|] eqn:E; cbn [store].
  - intros [= <-]. exact (heuristicNegamax_written _ _ _ _ _ _ _ _ E).
  - apply Hst.
Qed.

Lemma deepening_run_move
    (n : Z) (gs : list Z) (player : Z) (enable_ab_pruning : bool) (k : nat)
    (rc : Z * Z) :
  Z.of_nat (length gs) = g_board_size * g_board_size ->
  snd (deepening_run n gs player enable_ab_pruning k) = Some rc ->
  In rc (map Move.cell (searchMovesOrdered gs player)).
Proof.
  intros Hlen. revert rc. induction k as [|k IH]; intros rc H.
  - apply (@search_at_move gs player enable_ab_pruning 4 (n, None) rc Hlen);
      [discriminate|exact H].
  - exact (@search_at_move gs player enable_ab_pruning (4 + 2 * Z.of_nat (S k))
             (deepening_run n gs player enable_ab_pruning k) rc Hlen IH H).
Qed.

(** What a searching call of the public overload reports: one search at a
    positive depth, or the deepening up to its search number [k]. *)
Lemma heuristicNegamax_driver_report
    (n : Z) (gs : list Z) (player depth time_limit : Z) (enable_ab_pruning : bool) :
  Z.of_nat (length gs) = g_board_size * g_board_size ->
  depth = -1 \/ 0 < depth ->
  (exists d, 0 < d
     /\ (((stones gs <= 2)%nat /\ d = 6) \/ ((2 < stones gs)%nat /\ d = depth))
     /\ heuristicNegamax_driver n gs player depth time_limit enable_ab_pruning
        = Some (mkReport gs (Some d)
                  (written (heuristicNegamax n gs player d (Z.to_nat d)
                              enable_ab_pruning full_alpha full_beta))
                  (node_count (heuristicNegamax n gs player d (Z.to_nat d)
                                 enable_ab_pruning full_alpha full_beta))
                  0))
  \/ (exists k, (k <= 6)%nat
        /\ depth = -1 /\ (2 < stones gs)%nat
        /\ (forall j, (j < k)%nat -> deepening_stop time_limit j = false)
        /\ deepening_stop time_limit k = true
        /\ heuristicNegamax_driver n gs player depth time_limit enable_ab_pruning
           = Some (mkReport gs (Some (4 + 2 * Z.of_nat k))
                     (snd (deepening_run n gs player enable_ab_pruning k))
                     (fst (deepening_run n gs player enable_ab_pruning k))
                     (3 * k + 4))).
Proof.
  intros Hlen Hd.
  rewrite (@heuristicNegamax_driver_count g_board_size remoteCell evalMove
             kRenjuAiEvalWinningScore kRenjuAiEvalThreateningScore sort_moves
             clock CLOCKS_PER_SEC n gs player depth time_limit enable_ab_pruning
             Hlen Hd).
  cbv zeta.
  destruct (Z.leb_spec (Z.of_nat (stones gs)) 2) as [Hcnt|Hcnt].
  - left. exists 6. split; [lia|]. split; [left; split; [lia|reflexivity]|].
    reflexivity.
  - destruct (Z.gtb_spec depth 0) as [Hpos|Hneg].
    + left. exists depth. split; [lia|]. split; [right; split; [lia|reflexivity]|].
      reflexivity.
    + right. assert (depth = -1) as -> by lia.
      destruct (@iterative_deepening_run g_board_size remoteCell evalMove
                  kRenjuAiEvalWinningScore kRenjuAiEvalThreateningScore sort_moves
                  clock CLOCKS_PER_SEC n gs player time_limit enable_ab_pruning 6 0)
        as (k & Hk & Hfalse & Htrue & Heq).
      * unfold kAvgMaximumDepth. lia.
      * intros j Hj. lia.
      * exists k. split; [lia|]. split; [reflexivity|]. split; [lia|].
        split; [exact Hfalse|]. split; [exact Htrue|]. exact Heq.
Qed.

Lemma heuristicNegamax_driver_move
    (n : Z) (gs : list Z) (player depth time_limit : Z) (enable_ab_pruning : bool)
    (rep : Report) (rc : Z * Z) :
  Z.of_nat (length gs) = g_board_size * g_board_size ->
  heuristicNegamax_driver n gs player depth time_limit enable_ab_pruning = Some rep ->
  move rep = Some rc ->
  In rc (map Move.cell (searchMovesOrdered gs player)).
Proof.
  intros Hlen Hrep Hmv.
  destruct (Z.eq_dec depth (-1)) as [Hd|Hd]; [|destruct (Z.ltb_spec 0 depth) as [Hp|Hp]].
  1, 2: assert (Hs : depth = -1 \/ 0 < depth) by lia;
    destruct (heuristicNegamax_driver_report n gs player time_limit enable_ab_pruning
                Hlen Hs) as [(d & _ & _ & E)|(k & _ & _ & _ & _ & _ & E)];
    rewrite E in Hrep; injection Hrep as <-; cbn [move] in Hmv;
    [exact (heuristicNegamax_written _ _ _ _ _ _ _ _ Hmv)
    |exact (deepening_run_move _ _ _ _ _ Hlen Hmv)].
  exfalso. unfold heuristicNegamax_driver in Hrep.
  replace ((depth =? 0) || (depth <? -1)) with true in Hrep.
  - injection Hrep as <-. discriminate.
  - symmetry. apply orb_true_iff.
    destruct (Z.eq_dec depth 0) as [->|H0]; [now left|right]. apply Z.ltb_lt. lia.
Qed.

Lemma deepening_stop_mono (t1 t2 : Z) (k : nat) :
  t1 <= t2 -> deepening_stop t2 k = true -> deepening_stop t1 k = true.
Proof.
  unfold deepening_stop. intros Ht H.
  apply orb_true_iff in H as [H|H]; apply orb_true_iff; [now left|right].
  apply Z.gtb_lt in H. apply Z.gtb_lt. lia.
Qed.

Lemma breadth_at_wide (depth initial_depth : Z) :
  breadth_at depth initial_depth = kTopLayerSearchBreadth <->
  2 * (initial_depth / 2) - 1 <= depth <= 2 * (initial_depth / 2).
Proof.
  unfold breadth_at. rewrite !Z.shiftr_div_pow2 by lia. change (2 ^ 1) with 2.
  destruct (Z.eqb_spec ((depth + 1) / 2) (initial_depth / 2)) as [E|E].
  - split; [intros _|reflexivity].
    pose proof (Z.div_mod (depth + 1) 2 ltac:(lia)).
    pose proof (Z.mod_pos_bound (depth + 1) 2 ltac:(lia)). lia.
  - split; [discriminate|]. intros H. exfalso. apply E.
    symmetry. apply (Z.div_unique _ 2 _ (depth + 1 - 2 * (initial_depth / 2))); lia.
Qed.

Lemma heuristicNegamax_nodes_pos
    (n : Z) (gs : list Z) (player initial_depth : Z) (d : nat)
    (enable_ab_pruning : bool) (alpha beta : Z) :
  n + 1 <= node_count (heuristicNegamax n gs player initial_depth (S d)
                                        enable_ab_pruning alpha beta).
Proof.
  rewrite heuristicNegamax_S. unfold heuristicNegamax_node.
  destruct (searchMovesOrdered gs player) as [|top others] eqn:E;
    [cbn [node_count]; lia|].
  destruct (_ || _); [cbn [node_count]; lia|].
  destruct (blocking_override _ _ _ _) as [result mv]; cbn [node_count].
  match goal with
  | |- context [f_nodes (search_loop ?c ?p ?e ?b ?t ?i ?s)] =>
      pose proof (@search_loop_nodes c p e b (node_bound d) t i s
                    (proj2 (heuristicNegamax_nodes 0 [] 0 initial_depth d
                              enable_ab_pruning 0 0))
                    (fun n' g p' a b' =>
                       proj1 (heuristicNegamax_nodes n' g p' initial_depth d
                                enable_ab_pruning a b'))) as Hloop
  end.
  cbn [f_nodes] in Hloop. lia.
Qed.

Lemma node_bound_closed (depth : nat) : 13 * node_bound depth = 14 ^ Z.of_nat depth - 1.
Proof.
  induction depth as [|d IH]; [reflexivity|].
  rewrite Nat2Z.inj_succ, Z.pow_succ_r by lia.
  cbn [node_bound]. unfold kTopLayerSearchBreadth. lia.
Qed.

Lemma candidates_length_breadth (gs : list Z) (player depth initial_depth : Z)
    (moves_player moves_opponent : list Move.t) :
  (length (candidates gs player depth initial_depth moves_player moves_opponent)
   <= 2 + Z.to_nat (breadth_at depth initial_depth))%nat.
Proof.
  unfold candidates. rewrite length_app.
  pose proof (firstn_le_length (Z.to_nat (breadth_at depth initial_depth)) moves_player).
  destruct (threatened moves_opponent); [|simpl; lia].
  rewrite length_map.
  pose proof (firstn_le_length 2 moves_opponent). lia.
Qed.

(** X3. On a board without a stone the first loop of [searchMovesOrdered]
    leaves the extent at [INT_MAX] and [INT_MIN], so the generator returns
    no move for either player, whatever [remoteCell] says; a searching call of
    the public overload (depth -1 or positive) then makes the one search at
    depth 6, counts its root node and leaves the move slots unwritten. *)
Theorem empty_board_no_move
    (n : Z) (gs : list Z) (player depth time_limit : Z) (enable_ab_pruning : bool) :
  0 <= g_board_size ->
  Z.of_nat (length gs) = g_board_size * g_board_size ->
  Forall (fun x => x = 0) gs ->
  depth = -1 \/ 0 < depth ->
  (forall p, searchMovesOrdered gs p = [])
  /\ heuristicNegamax_driver n gs player depth time_limit enable_ab_pruning
     = Some (mkReport gs (Some 6) None (n + 1) 0).
Proof.
  intros HN Hlen Hz Hd.
  assert (Hnil : forall p, searchMovesOrdered gs p = [])
    by (intros p; exact (searchMovesOrdered_no_stone remoteCell evalMove sort_moves
                           sort_perm p HN Hz)).
  split; [exact Hnil|].
  rewrite (@heuristicNegamax_driver_count g_board_size remoteCell evalMove
             kRenjuAiEvalWinningScore kRenjuAiEvalThreateningScore sort_moves
             clock CLOCKS_PER_SEC n gs player depth time_limit enable_ab_pruning
             Hlen Hd).
  rewrite (all_zero_stones Hz). cbv zeta. change (Z.of_nat 0 <=? 2) with true.
  cbv iota. change (6 >? 0) with true. cbv iota. change (Z.to_nat 6) with 6%nat.
  rewrite (@heuristicNegamax_nil n gs player 6 5 enable_ab_pruning
             full_alpha full_beta (Hnil player)).
  reflexivity.
Qed.

(** X4. The move the recursive [heuristicNegamax] writes, at any depth and
    with any window, is a cell of the board that is empty and not remote on
    the board it was given. It writes no move only at depth 0, with no
    candidate, or when it returns [INT_MIN] (no candidate scored above the
    initial maximum). *)
Theorem written_move_playable
    (n : Z) (gs : list Z) (player initial_depth : Z) (depth : nat)
    (enable_ab_pruning : bool) (alpha beta : Z) :
  let res := heuristicNegamax n gs player initial_depth depth
                              enable_ab_pruning alpha beta in
  match written res with
  | Some (r, c) =>
      0 <= r < g_board_size /\ 0 <= c < g_board_size
      /\ getCell gs r c = 0 /\ remoteCell gs r c = false
  | None =>
      depth = 0%nat \/ searchMovesOrdered gs player = []
      \/ score res = Int32.INT_MIN
  end.
Proof.
  cbv zeta. destruct (written _) as [[r c]|] eqn:E.
  - apply heuristicNegamax_written in E.
    apply (@searchMovesOrdered_in_playable g_board_size remoteCell evalMove
             sort_moves sort_perm gs player (r, c)) in E.
    now apply in_playable in E.
  - destruct depth as [|d]; [now left|right].
    rewrite heuristicNegamax_S in *.
    pose proof (heuristicNegamax_node_written
                  (fun n' gs' player' alpha' beta' =>
                     heuristicNegamax n' gs' player' initial_depth d
                                      enable_ab_pruning alpha' beta')
                  n gs player initial_depth (Z.of_nat (S d))
                  enable_ab_pruning alpha beta) as Hw.
    cbv zeta in Hw. now rewrite E in Hw.
Qed.

(** X5. A search of depth d counts at most (14^d - 1) / 13 nodes, the size
    of the tree with 2 + [kTopLayerSearchBreadth] = 14 children per node, and
    at least its root when d is positive; [g_node_count] never decreases. *)
Theorem node_count_bound
    (n : Z) (gs : list Z) (player initial_depth : Z) (depth : nat)
    (enable_ab_pruning : bool) (alpha beta : Z) :
  let res := heuristicNegamax n gs player initial_depth depth
                              enable_ab_pruning alpha beta in
  n + (match depth with O => 0 | S _ => 1 end) <= node_count res
  /\ node_count res <= n + node_bound depth
  /\ 13 * node_bound depth = 14 ^ Z.of_nat depth - 1.
Proof.
  cbv zeta. split; [|split].
  - destruct depth as [|d]; [simpl; lia|apply heuristicNegamax_nodes_pos].
  - apply heuristicNegamax_nodes.
  - apply node_bound_closed.
Qed.

(** X6. With [enable_ab_pruning] false the window is not used: the score,
    the move, the board and the node count of the recursive
    [heuristicNegamax] are the same for every [alpha] and [beta]. *)
Theorem window_unused_without_pruning
    (n : Z) (gs : list Z) (player initial_depth : Z) (depth : nat)
    (alpha beta alpha' beta' : Z) :
  heuristicNegamax n gs player initial_depth depth false alpha beta
  = heuristicNegamax n gs player initial_depth depth false alpha' beta'.
Proof. apply heuristicNegamax_window. Qed.

(** X7. From the same node counter, a search with [enable_ab_pruning] true
    never counts more nodes than the search of the same board, player and
    depth with it false, whatever the two windows are. *)
Theorem pruning_visits_no_more_nodes
    (n : Z) (gs : list Z) (player initial_depth : Z) (depth : nat)
    (a1 b1 a2 b2 : Z) :
  node_count (heuristicNegamax n gs player initial_depth depth true a1 b1)
  <= node_count (heuristicNegamax n gs player initial_depth depth false a2 b2).
Proof.
  pose proof (heuristicNegamax_pruned_nodes depth n n gs player initial_depth
                a1 b1 a2 b2). lia.
Qed.

(** X8. On a board with more than two stones a positive depth selects the
    fixed-depth mode: the public overload makes one search at exactly that
    depth with the window [INT_MIN / 2], [INT_MAX / 2], reports that depth
    with the move and node counter of this search, does not read the clock
    and does not use [time_limit]; the search counts between 1 and
    (14^depth - 1) / 13 nodes. *)
Theorem fixed_depth_search
    (n : Z) (gs : list Z) (player depth time_limit : Z) (enable_ab_pruning : bool) :
  Z.of_nat (length gs) = g_board_size * g_board_size ->
  (2 < stones gs)%nat ->
  0 < depth ->
  let res := heuristicNegamax n gs player depth (Z.to_nat depth)
                              enable_ab_pruning full_alpha full_beta in
  heuristicNegamax_driver n gs player depth time_limit enable_ab_pruning
  = Some (mkReport gs (Some depth) (written res) (node_count res) 0)
  /\ n + 1 <= node_count res <= n + node_bound (Z.to_nat depth).
Proof.
  intros Hlen Hcnt Hd res. split.
  - rewrite (@heuristicNegamax_driver_count g_board_size remoteCell evalMove
               kRenjuAiEvalWinningScore kRenjuAiEvalThreateningScore sort_moves
               clock CLOCKS_PER_SEC n gs player depth time_limit enable_ab_pruning
               Hlen (or_intror Hd)).
    replace (Z.of_nat (stones gs) <=? 2) with false by (symmetry; apply Z.leb_gt; lia).
    cbv zeta iota.
    replace (depth >? 0) with true by (symmetry; apply Z.gtb_lt; lia).
    reflexivity.
  - subst res. split; [|apply heuristicNegamax_nodes].
    destruct (Z.to_nat depth) as [|d] eqn:E; [lia|apply heuristicNegamax_nodes_pos].
Qed.

(** X9. In the deepening mode (depth -1), with the same clock readings, a
    larger [time_limit] never gives a shallower search: the depth reported
    with the budget t1 is at most the one reported with t2 >= t1, and both
    lie between 4 and 16. *)
Theorem larger_budget_deeper
    (n : Z) (gs : list Z) (player t1 t2 : Z) (enable_ab_pruning : bool) :
  Z.of_nat (length gs) = g_board_size * g_board_size ->
  t1 <= t2 ->
  exists r1 r2 d1 d2,
    heuristicNegamax_driver n gs player (-1) t1 enable_ab_pruning = Some r1
    /\ heuristicNegamax_driver n gs player (-1) t2 enable_ab_pruning = Some r2
    /\ actual_depth r1 = Some d1 /\ actual_depth r2 = Some d2
    /\ 4 <= d1 <= d2 /\ d2 <= 16.
Proof.
  intros Hlen Ht.
  destruct (heuristicNegamax_driver_report n gs player t1 enable_ab_pruning
              Hlen (or_introl eq_refl))
    as [(d1 & Hd1 & Hc1 & E1)|(k1 & Hk1 & _ & Hs1 & Hf1 & Hstop1 & E1)];
  destruct (heuristicNegamax_driver_report n gs player t2 enable_ab_pruning
              Hlen (or_introl eq_refl))
    as [(d2 & Hd2 & Hc2 & E2)|(k2 & Hk2 & _ & Hs2 & Hf2 & Hstop2 & E2)].
  - do 2 eexists. exists d1, d2. repeat split; try eassumption; try reflexivity; lia.
  - exfalso. lia.
  - exfalso. lia.
  - do 2 eexists. exists (4 + 2 * Z.of_nat k1), (4 + 2 * Z.of_nat k2).
    assert (Hle : (k1 <= k2)%nat).
    { destruct (Nat.le_gt_cases k1 k2) as [H|H]; [exact H|].
      pose proof (deepening_stop_mono k2 Ht Hstop2) as Hs.
      rewrite (Hf1 k2 H) in Hs. discriminate. }
    repeat split; try eassumption; try reflexivity; lia.
Qed.

(** X10. Whatever the depth, the budget and the pruning flag, a move the
    public overload reports is a cell of the board that is empty and not
    remote on the caller's board. *)
Theorem driver_move_playable
    (n : Z) (gs : list Z) (player depth time_limit : Z) (enable_ab_pruning : bool)
    (rep : Report) (r c : Z) :
  Z.of_nat (length gs) = g_board_size * g_board_size ->
  heuristicNegamax_driver n gs player depth time_limit enable_ab_pruning = Some rep ->
  move rep = Some (r, c) ->
  0 <= r < g_board_size /\ 0 <= c < g_board_size
  /\ getCell gs r c = 0 /\ remoteCell gs r c = false.
Proof.
  intros Hlen Hrep Hmv.
  pose proof (heuristicNegamax_driver_move _ _ _ _ _ _ Hlen Hrep Hmv) as H.
  apply (@searchMovesOrdered_in_playable g_board_size remoteCell evalMove
           sort_moves sort_perm gs player (r, c)) in H.
  now apply in_playable in H.
Qed.

(** X11. The wide breadth [kTopLayerSearchBreadth] is used exactly at the
    depths d with 2 * (initial_depth / 2) - 1 <= d <= 2 * (initial_depth / 2),
    the narrow one [kSearchBreadth] elsewhere; at the root (d =
    initial_depth) the breadth is the wide one only when [initial_depth] is
    even. A node has at most 2 candidates more than its breadth. *)
Theorem breadth_top_layers (gs : list Z) (player depth initial_depth : Z)
    (moves_player moves_opponent : list Move.t) :
  (breadth_at depth initial_depth
   = if (2 * (initial_depth / 2) - 1 <=? depth) && (depth <=? 2 * (initial_depth / 2))
     then kTopLayerSearchBreadth else kSearchBreadth)
  /\ breadth_at initial_depth initial_depth
     = (if Z.even initial_depth then kTopLayerSearchBreadth else kSearchBreadth)
  /\ (length (candidates gs player depth initial_depth moves_player moves_opponent)
      <= 2 + Z.to_nat (breadth_at depth initial_depth))%nat.
Proof.
  assert (Hgen : forall d,
             breadth_at d initial_depth
             = if (2 * (initial_depth / 2) - 1 <=? d) && (d <=? 2 * (initial_depth / 2))
               then kTopLayerSearchBreadth else kSearchBreadth).
  { intros d. pose proof (breadth_at_wide d initial_depth) as Hw.
    destruct (Z.leb_spec (2 * (initial_depth / 2) - 1) d);
      destruct (Z.leb_spec d (2 * (initial_depth / 2))); cbn [andb];
      try (apply Hw; lia);
      unfold breadth_at in *; destruct (_ =? _); try reflexivity;
      exfalso; assert (Hr := proj1 Hw eq_refl); lia. }
  split; [apply Hgen|]. split; [|apply candidates_length_breadth].
  rewrite Hgen.
  pose proof (Z.div_mod initial_depth 2 ltac:(lia)) as Hdm.
  pose proof (Zmod_even initial_depth) as Hev.
  destruct (Z.even initial_depth);
    destruct (Z.leb_spec (2 * (initial_depth / 2) - 1) initial_depth);
    destruct (Z.leb_spec initial_depth (2 * (initial_depth / 2))); cbn [andb];
    try reflexivity; exfalso; lia.
Qed.

(** *** The search without pruning as a function of the board *)

Local Abbreviation actual_of := (actual_of g_board_size).
Local Abbreviation node_result :=
  (node_result g_board_size remoteCell evalMove kRenjuAiEvalWinningScore
               kRenjuAiEvalThreateningScore sort_moves).
Local Abbreviation search_result :=
  (search_result g_board_size remoteCell evalMove kRenjuAiEvalWinningScore
                 kRenjuAiEvalThreateningScore sort_moves).

Lemma search_loop_result
    (child : Z -> list Z -> Z -> Z -> Z -> Outcome) (value : list Z -> Z -> Z)
    (player beta : Z) (gs : list Z) (todo : list Move.t) (i : nat) (st : Frame) :
  (forall n g p a b, score (child n g p a b) = value g p) ->
  (forall n g p a b, board (child n g p a b) = g) ->
  f_gs st = gs ->
  Forall (fun m => getCell gs (Move.r m) (Move.c m) = 0) todo ->
  let r := search_loop child player false beta todo i st in
  (f_max r, f_move r)
  = fold_left (fun acc m => if actual_of value gs player m >? fst acc
                            then (actual_of value gs player m, Some (Move.cell m))
                            else acc)
              todo (f_max st, f_move st).
Proof.
  intros Hscore Hboard. revert i st.
  induction todo as [|m rest IH]; intros i st Hg Hall; [reflexivity|].
  inversion Hall as [|? ? H0 Hrest]; subst.
  cbv zeta. rewrite search_loop_cons.
  replace (snd (search_step child player false beta st i m)) with false by reflexivity.
  pose proof (search_step_board g_board_size child player false beta st i m
                Hboard H0) as Hg'.
  specialize (IH (S i) (fst (search_step child player false beta st i m)) Hg' Hrest).
  cbv zeta in IH. rewrite IH. cbn [fold_left]. f_equal.
  unfold search_step; cbn [fst f_max f_move]. rewrite Hscore.
  fold (actual_of value (f_gs st) player m).
  destruct (_ >? _); reflexivity.
Qed.

Lemma search_loop_first_score
    (child : Z -> list Z -> Z -> Z -> Z -> Outcome) (value : list Z -> Z -> Z)
    (player : Z) (enable_ab_pruning : bool) (beta : Z)
    (c0 : Move.t) (todo cands : list Move.t) (st : Frame) :
  (forall n g p a b, score (child n g p a b) = value g p) ->
  f_cands st = c0 :: cands ->
  hd_error (f_cands (search_loop child player enable_ab_pruning beta (c0 :: todo) 0 st))
  = Some (Move.set_actual_score (actual_of value (f_gs st) player c0) c0).
Proof.
  intros Hscore Hc. rewrite search_loop_cons.
  assert (H1 : f_cands (fst (search_step child player enable_ab_pruning beta st 0 c0))
               = Move.set_actual_score (actual_of value (f_gs st) player c0) c0 :: cands).
  { unfold search_step; cbn [fst f_cands]. rewrite Hc, Hscore. reflexivity. }
  destruct (snd _); [now rewrite H1|].
  rewrite (@search_loop_head g_board_size child player enable_ab_pruning beta todo 1
             (fst (search_step child player enable_ab_pruning beta st 0 c0)) (le_n 1)).
  now rewrite H1.
Qed.

Lemma heuristicNegamax_node_result
    (child : Z -> list Z -> Z -> Z -> Z -> Outcome) (value : list Z -> Z -> Z)
    (n : Z) (gs : list Z) (player initial_depth depth : Z) (alpha beta : Z) :
  (forall n g p a b, score (child n g p a b) = value g p) ->
  (forall n g p a b, board (child n g p a b) = g) ->
  let res := heuristicNegamax_node child n gs player initial_depth depth
                                   false alpha beta in
  (score res, written res) = node_result value gs player initial_depth depth.
Proof.
  intros Hscore Hboard. cbv zeta. unfold heuristicNegamax_node, node_result.
  pose proof (@candidates_empty_cells g_board_size remoteCell evalMove
                kRenjuAiEvalThreateningScore sort_moves sort_perm
                gs player depth initial_depth) as Hc.
  destruct (searchMovesOrdered gs player) as [|top others] eqn:E; [reflexivity|].
  destruct (_ || _); [reflexivity|].
  set (cands := candidates _ _ _ _ _ _) in *.
  set (st0 := mkFrame gs (n + 1) cands Int32.INT_MIN alpha None).
  pose proof (@search_loop_result child value player beta gs cands 0 st0
                Hscore Hboard eq_refl Hc) as Hloop.
  cbv zeta in Hloop. change (f_max st0, f_move st0) with (Int32.INT_MIN, @None (Z * Z))
    in Hloop.
  fold (best_of (actual_of value gs player) cands) in Hloop.
  set (best := best_of (actual_of value gs player) cands) in *.
  assert (Hmax : f_max (search_loop child player false beta cands 0 st0) = fst best)
    by (rewrite <- Hloop; reflexivity).
  assert (Hmv : f_move (search_loop child player false beta cands 0 st0) = snd best)
    by (rewrite <- Hloop; reflexivity).
  unfold blocking_override. rewrite Hmax, Hmv.
  destruct ((depth =? initial_depth) && _ && (fst best <? 0));
    [|cbn [score written]; now destruct best].
  destruct cands as [|bm rest] eqn:Ecands.
  - cbn [search_loop f_cands st0]. cbn [score written]. now destruct best.
  - pose proof (@search_loop_first_score child value player false beta bm rest rest st0
                  Hscore eq_refl) as Hhd.
    change (f_gs st0) with gs in Hhd.
    destruct (f_cands (search_loop child player false beta (bm :: rest) 0 st0))
      as [|x l]; [discriminate|].
    injection Hhd as ->. cbn [Move.actual_score Move.set_actual_score Move.r Move.c].
    destruct (blocking_close _ _); cbn [score written]; [reflexivity|now destruct best].
Qed.

Lemma heuristicNegamax_result
    (n : Z) (gs : list Z) (player initial_depth : Z) (depth : nat) (alpha beta : Z) :
  let res := heuristicNegamax n gs player initial_depth depth false alpha beta in
  (score res, written res) = search_result gs player initial_depth depth.
Proof.
  revert n gs player alpha beta.
  induction depth as [|d IH]; intros n gs player alpha beta; [reflexivity|].
  cbv zeta. rewrite heuristicNegamax_S.
  apply (@heuristicNegamax_node_result
           (fun n' gs' player' alpha' beta' =>
              heuristicNegamax n' gs' player' initial_depth d false alpha' beta')
           (fun g p => fst (search_result g p initial_depth d))).
  - intros n' g p a b. specialize (IH n' g p a b). cbv zeta in IH.
    now rewrite <- IH.
  - intros n' g p a b.
    apply (@heuristicNegamax_board g_board_size remoteCell evalMove
             kRenjuAiEvalWinningScore kRenjuAiEvalThreateningScore
             sort_moves sort_perm).
Qed.

Lemma best_of_max (actual : Move.t -> Z) (cands : list Move.t) :
  fst (best_of actual cands) = fold_left Z.max (map actual cands) Int32.INT_MIN.
Proof.
  unfold best_of. generalize (@None (Z * Z)). generalize Int32.INT_MIN.
  induction cands as [|m rest IH]; intros x mv; [reflexivity|].
  cbn [fold_left map fst].
  destruct (Z.gtb_spec (actual m) x) as [H|H].
  - rewrite IH. f_equal. lia.
  - rewrite IH. f_equal. lia.
Qed.

(** *** The node counter does not steer the search *)

Lemma search_loop_shift
    (child : Z -> list Z -> Z -> Z -> Z -> Outcome)
    (player : Z) (enable_ab_pruning : bool) (beta k : Z)
    (todo : list Move.t) (i : nat) (st : Frame) :
  (forall n g p a b, child (n + k) g p a b = shift_nodes k (child n g p a b)) ->
  search_loop child player enable_ab_pruning beta todo i
              (mkFrame (f_gs st) (f_nodes st + k) (f_cands st) (f_max st)
                       (f_alpha st) (f_move st))
  = let r := search_loop child player enable_ab_pruning beta todo i st in
    mkFrame (f_gs r) (f_nodes r + k) (f_cands r) (f_max r) (f_alpha r) (f_move r).
Proof.
  intros Hchild. revert i st.
  induction todo as [|m rest IH]; intros i st; [reflexivity|].
  cbv zeta. rewrite !search_loop_cons.
  assert (Hstep : search_step child player enable_ab_pruning beta
                    (mkFrame (f_gs st) (f_nodes st + k) (f_cands st) (f_max st)
                             (f_alpha st) (f_move st)) i m
                  = (let s := fst (search_step child player enable_ab_pruning beta st i m) in
                     mkFrame (f_gs s) (f_nodes s + k) (f_cands s) (f_max s)
                             (f_alpha s) (f_move s),
                     snd (search_step child player enable_ab_pruning beta st i m))).
  { unfold search_step. cbn [f_gs f_nodes f_cands f_max f_alpha f_move fst snd].
    rewrite Hchild. reflexivity. }
  rewrite Hstep. cbn [fst snd]. cbv zeta.
  destruct (snd _); [reflexivity|]. apply IH.
Qed.

Lemma heuristicNegamax_shift
    (n k : Z) (gs : list Z) (player initial_depth : Z) (depth : nat)
    (enable_ab_pruning : bool) (alpha beta : Z) :
  heuristicNegamax (n + k) gs player initial_depth depth enable_ab_pruning alpha beta
  = shift_nodes k (heuristicNegamax n gs player initial_depth depth
                                    enable_ab_pruning alpha beta).
Proof.
  revert n gs player alpha beta.
  induction depth as [|d IH]; intros n gs player alpha beta; [reflexivity|].
  rewrite !heuristicNegamax_S. unfold heuristicNegamax_node.
  destruct (searchMovesOrdered gs player) as [|top others] eqn:E;
    [unfold shift_nodes; cbn; f_equal; lia|].
  destruct (_ || _); [unfold shift_nodes; cbn; f_equal; lia|].
  set (cands := candidates _ _ _ _ _ _).
  pose proof (@search_loop_shift
                (fun n' gs' player' alpha' beta' =>
                   heuristicNegamax n' gs' player' initial_depth d
                                    enable_ab_pruning alpha' beta')
                player enable_ab_pruning beta k cands 0
                (mkFrame gs (n + 1) cands Int32.INT_MIN alpha None)
                (fun n' g p a b => IH n' g p a b)) as Hloop.
  cbn [f_gs f_nodes f_cands f_max f_alpha f_move] in Hloop. cbv zeta in Hloop.
  replace (n + k + 1) with (n + 1 + k) by lia. rewrite Hloop.
  unfold blocking_override. cbn [f_gs f_nodes f_cands f_max f_alpha f_move].
  destruct (_ && _ && _); [destruct (f_cands _); [|destruct (blocking_close _ _)]|];
    reflexivity.
Qed.

Lemma heuristicNegamax_written_counter
    (n n' : Z) (gs : list Z) (player initial_depth : Z) (depth : nat)
    (enable_ab_pruning : bool) (alpha beta : Z) :
  written (heuristicNegamax n' gs player initial_depth depth
                            enable_ab_pruning alpha beta)
  = written (heuristicNegamax n gs player initial_depth depth
                              enable_ab_pruning alpha beta).
Proof.
  replace n' with (n + (n' - n)) by lia. now rewrite heuristicNegamax_shift.
Qed.

(** X12. With [enable_ab_pruning] false the recursive [heuristicNegamax]
    computes the breadth-limited negamax with decay [search_result], a
    function of the board, the player and the depths alone: 0 and no move at
    depth 0 or without candidate; the first candidate and its heuristic value
    at a shortcut; otherwise the maximum over the candidates, from [INT_MIN],
    of the heuristic value minus the decayed score of the reply, with the cell
    of the first candidate that reaches it, unless the root override picks
    the first blocking candidate. The board is handed back unchanged. *)
Theorem search_without_pruning
    (n : Z) (gs : list Z) (player initial_depth : Z) (depth : nat) (alpha beta : Z) :
  let res := heuristicNegamax n gs player initial_depth depth false alpha beta in
  score res = fst (search_result gs player initial_depth depth)
  /\ written res = snd (search_result gs player initial_depth depth)
  /\ board res = gs
  /\ (forall actual cands,
        fst (best_of actual cands)
        = fold_left Z.max (map actual cands) Int32.INT_MIN).
Proof.
  cbv zeta.
  pose proof (heuristicNegamax_result n gs player initial_depth depth alpha beta) as H.
  cbv zeta in H. rewrite <- H. cbn [fst snd].
  split; [reflexivity|]. split; [reflexivity|]. split; [|apply best_of_max].
  apply (@heuristicNegamax_board g_board_size remoteCell evalMove
           kRenjuAiEvalWinningScore kRenjuAiEvalThreateningScore
           sort_moves sort_perm).
Qed.

(** X13. [g_node_count] is a diagnostic only: started from a counter k
    higher, the recursive [heuristicNegamax] returns the same score, board
    and move, and a counter k higher, with or without pruning. *)
Theorem node_counter_diagnostic
    (n k : Z) (gs : list Z) (player initial_depth : Z) (depth : nat)
    (enable_ab_pruning : bool) (alpha beta : Z) :
  let res := heuristicNegamax n gs player initial_depth depth
                              enable_ab_pruning alpha beta in
  let res' := heuristicNegamax (n + k) gs player initial_depth depth
                               enable_ab_pruning alpha beta in
  score res' = score res /\ board res' = board res /\ written res' = written res
  /\ node_count res' = node_count res + k.
Proof.
  cbv zeta. rewrite heuristicNegamax_shift. repeat split.
Qed.

(** X14. The deepening agrees with the fixed depth it stops at: when the
    public overload called with depth -1 reports the depth d, every move that
    a call with the fixed depth d reports (from any node counter and with any
    time limit) is the move the deepening reports. *)
Theorem deepening_agrees_with_fixed_depth
    (n n' : Z) (gs : list Z) (player t t' : Z) (enable_ab_pruning : bool)
    (rep rep' : Report) (d : Z) (rc : Z * Z) :
  Z.of_nat (length gs) = g_board_size * g_board_size ->
  heuristicNegamax_driver n gs player (-1) t enable_ab_pruning = Some rep ->
  actual_depth rep = Some d ->
  heuristicNegamax_driver n' gs player d t' enable_ab_pruning = Some rep' ->
  move rep' = Some rc ->
  move rep = Some rc.
Proof.
  intros Hlen Hrep Hd Hrep' Hmv.
  assert (Hinj : forall (A : Type) (x y : A), Some x = Some y -> y = x)
    by (intros A x y [= ->]; reflexivity).
  destruct (heuristicNegamax_driver_report n gs player t enable_ab_pruning
              Hlen (or_introl eq_refl))
    as [(d0 & Hd0 & Hc & E)|(k & Hk & _ & Hs & _ & _ & E)];
    rewrite E in Hrep; apply Hinj in Hrep; subst rep; unfold actual_depth in Hd; unfold move;
    apply Hinj in Hd; subst d.
  - destruct (heuristicNegamax_driver_report n' gs player t' enable_ab_pruning
                Hlen (or_intror Hd0))
      as [(d1 & Hd1 & Hc1 & E1)|(k1 & _ & Hneg & _)]; [|lia].
    assert (d1 = d0) as -> by (destruct Hc as [[? ?]|[? ?]], Hc1 as [[? ?]|[? ?]]; lia).
    rewrite E1 in Hrep'. apply Hinj in Hrep'. subst rep'. cbn [move] in Hmv.
    rewrite <- Hmv. apply heuristicNegamax_written_counter.
  - assert (Hpos : 0 < 4 + 2 * Z.of_nat k) by lia.
    destruct (heuristicNegamax_driver_report n' gs player t' enable_ab_pruning
                Hlen (or_intror Hpos))
      as [(d1 & Hd1 & Hc1 & E1)|(k1 & _ & Hneg & _)]; [|lia].
    assert (d1 = 4 + 2 * Z.of_nat k) as -> by (destruct Hc1 as [[? ?]|[? ?]]; lia).
    rewrite E1 in Hrep'. apply Hinj in Hrep'. subst rep'. cbn [move] in Hmv.
    rewrite (@deepening_run_step g_board_size remoteCell evalMove
               kRenjuAiEvalWinningScore kRenjuAiEvalThreateningScore sort_moves
               n gs player enable_ab_pruning k).
    unfold search_at. cbn [snd]. rewrite (memcpy_board gs Hlen).
    rewrite (heuristicNegamax_written_counter n'
               (fst (deepening_before g_board_size remoteCell evalMove
                       kRenjuAiEvalWinningScore kRenjuAiEvalThreateningScore
                       sort_moves n gs player enable_ab_pruning k))).
    rewrite Hmv. reflexivity.
Qed.

(** *** What the order of the generator gives the search *)

Hypothesis sort_sorted : forall l, StronglySorted Move.ge (sort_moves l).

Lemma searchMovesOrdered_head_max (gs : list Z) (player : Z)
    (top : Move.t) (others : list Move.t) (m : Move.t) :
  searchMovesOrdered gs player = top :: others ->
  In m (searchMovesOrdered gs player) ->
  Move.heuristic_val m <= Move.heuristic_val top.
Proof.
  intros E Hm. pose proof (sort_sorted
    (scan g_board_size remoteCell evalMove gs player
          (clamp_extent g_board_size (find_extent g_board_size gs)))) as Hs.
  change (StronglySorted Move.ge (searchMovesOrdered gs player)) in Hs.
  rewrite E in Hs, Hm. apply StronglySorted_inv in Hs as [_ Hall].
  destruct Hm as [->|Hm]; [lia|].
  rewrite Forall_forall in Hall. specialize (Hall m Hm). unfold Move.ge in Hall. lia.
Qed.

(** X15. An immediate win is always taken: if any move of the generator for
    the player reaches [kRenjuAiEvalWinningScore], the recursive
    [heuristicNegamax] at a positive depth returns at once, having counted
    its own node only, with the cell and the heuristic value of a move whose
    value is the largest of all, on the unchanged board. *)
Theorem winning_move_taken
    (n : Z) (gs : list Z) (player initial_depth : Z) (d : nat)
    (enable_ab_pruning : bool) (alpha beta : Z) (m : Move.t) :
  In m (searchMovesOrdered gs player) ->
  Move.heuristic_val m >= kRenjuAiEvalWinningScore ->
  let res := heuristicNegamax n gs player initial_depth (S d)
                              enable_ab_pruning alpha beta in
  exists top,
    In top (searchMovesOrdered gs player)
    /\ (forall m', In m' (searchMovesOrdered gs player) ->
                   Move.heuristic_val m' <= Move.heuristic_val top)
    /\ score res = Move.heuristic_val top
    /\ kRenjuAiEvalWinningScore <= score res
    /\ written res = Some (Move.cell top)
    /\ node_count res = n + 1
    /\ board res = gs.
Proof.
  intros Hm Hwin res. subst res. rewrite heuristicNegamax_S.
  unfold heuristicNegamax_node.
  pose proof (@searchMovesOrdered_head_max gs player) as Hmax.
  destruct (searchMovesOrdered gs player) as [|top others] eqn:E; [contradiction|].
  specialize (Hmax top others).
  pose proof (Hmax m eq_refl Hm) as Htop.
  replace (Move.heuristic_val top >=? kRenjuAiEvalWinningScore) with true
    by (symmetry; apply Z.geb_le; lia).
  rewrite orb_true_r. exists top. cbn [score written node_count board].
  split; [now left|]. split; [intros m' Hm'; now apply Hmax|].
  repeat split; lia.
Qed.

(** X16. The threat test misses nothing: [block_opponent] is set exactly
    when some move of the generator for the opponent reaches
    [kRenjuAiEvalThreateningScore]. The candidate list then starts with the
    opponent's best move (no move of the opponent scores higher), carrying
    the score of its cell for the player; otherwise the candidates are the
    first [breadth] moves of the player alone. *)
Theorem threat_detection (gs : list Z) (player depth initial_depth : Z) :
  let moves_player := searchMovesOrdered gs player in
  let moves_opponent := searchMovesOrdered gs (opponent_of player) in
  let cands := candidates gs player depth initial_depth moves_player moves_opponent in
  (threatened moves_opponent = true <->
   exists m, In m moves_opponent
             /\ Move.heuristic_val m >= kRenjuAiEvalThreateningScore)
  /\ (threatened moves_opponent = true ->
      exists otop rest,
        In otop moves_opponent
        /\ (forall m, In m moves_opponent ->
                      Move.heuristic_val m <= Move.heuristic_val otop)
        /\ cands = Move.mk (Move.r otop) (Move.c otop)
                           (evalMove gs (Move.r otop) (Move.c otop) player)
                           (Move.actual_score otop) :: rest)
  /\ (threatened moves_opponent = false ->
      cands = firstn (Z.to_nat (breadth_at depth initial_depth)) moves_player).
Proof.
  cbv zeta. unfold candidates.
  pose proof (@searchMovesOrdered_head_max gs (opponent_of player)) as Hmax.
  destruct (searchMovesOrdered gs (opponent_of player)) as [|otop orest] eqn:E.
  - cbn [threatened].
    split; [split; [discriminate|intros (m & [] & _)]|].
    split; [discriminate|reflexivity].
  - specialize (Hmax otop orest).
    assert (Hiff : threatened (otop :: orest) = true <->
                   exists m, In m (otop :: orest)
                             /\ Move.heuristic_val m >= kRenjuAiEvalThreateningScore).
    { unfold threatened. rewrite Z.geb_le. split.
      - intros H. exists otop. split; [now left|lia].
      - intros (m & Hm & Hge). pose proof (Hmax m eq_refl Hm). lia. }
    split; [exact Hiff|]. split.
    + intros Ht. rewrite Ht. exists otop. eexists.
      split; [now left|]. split; [intros m Hm; now apply Hmax|].
      cbn [firstn map app]. reflexivity.
    + intros Hf. rewrite Hf. reflexivity.
Qed.

End SearchEdges.

(** ** The further properties on the instance *)


(** On the 3x3 board every cell is within 2 of the stone on (0,0). *)
Lemma searchMovesOrdered_all_playable_witness :
  Permutation (map Move.cell (Example.moves Example.gs0 1))
              (playable Example.N Example.remote2 Example.gs0).
Proof.
  apply (@searchMovesOrdered_all_playable Example.N Example.remote2 Example.table_eval
           Example.isort isort_perm Example.gs0 1).
  - vm_compute; discriminate.
  - intros r c Hr Hc _. exists 0, 0. split.
    + repeat split; vm_compute; discriminate.
    + unfold Example.N in *. lia.
Defined.

Lemma empty_board_no_move_witness :
  Example.driver Example.gs_empty (-1) 1000
  = Some (mkReport Example.gs_empty (Some 6) None (0 + 1) 0).
Proof.
  apply (@empty_board_no_move Example.N Example.remote2 Example.table_eval
           Example.kWinning Example.kThreatening Example.isort Example.ticks 1000
           isort_perm 0 Example.gs_empty 1 (-1) 1000 true).
  - vm_compute; discriminate.
  - reflexivity.
  - repeat constructor.
  - left; reflexivity.
Defined.

(** The search of the instance at depth 4 writes the free cell (1,1). *)
Lemma written_move_playable_witness :
  match written (Example.search true 4) with
  | Some (r, c) =>
      0 <= r < Example.N /\ 0 <= c < Example.N
      /\ getCell Example.N Example.gs0 r c = 0
      /\ Example.remote2 Example.gs0 r c = false
  | None =>
      4%nat = 0%nat \/ Example.moves Example.gs0 1 = []
      \/ score (Example.search true 4) = Int32.INT_MIN
  end.
Proof.
  exact (@written_move_playable Example.N Example.remote2 Example.table_eval
           Example.kWinning Example.kThreatening Example.isort isort_perm
           0 Example.gs0 1 4 4 true full_alpha full_beta).
Defined.

(** 41 nodes with pruning, 86 without. *)
Lemma pruning_visits_no_more_nodes_witness :
  node_count (Example.search true 4) <= node_count (Example.search false 4).
Proof.
  exact (@pruning_visits_no_more_nodes Example.N Example.remote2 Example.table_eval
           Example.kWinning Example.kThreatening Example.isort isort_perm
           0 Example.gs0 1 4 4 full_alpha full_beta full_alpha full_beta).
Defined.

Lemma fixed_depth_search_witness :
  Example.driver Example.gs0 4 1000
  = Some (mkReport Example.gs0 (Some 4) (written (Example.search true 4))
                   (node_count (Example.search true 4)) 0)
  /\ 0 + 1 <= node_count (Example.search true 4) <= 0 + node_bound 4.
Proof.
  apply (@fixed_depth_search Example.N Example.remote2 Example.table_eval
           Example.kWinning Example.kThreatening Example.isort Example.ticks 1000
           0 Example.gs0 1 4 1000 true).
  - reflexivity.
  - vm_compute; lia.
  - lia.
Defined.

(** The budgets 1000 and 100000 on the instance: depths 4 and 16. *)
Lemma larger_budget_deeper_witness :
  exists r1 r2 d1 d2,
    Example.driver Example.gs0 (-1) 1000 = Some r1
    /\ Example.driver Example.gs0 (-1) 100000 = Some r2
    /\ actual_depth r1 = Some d1 /\ actual_depth r2 = Some d2
    /\ 4 <= d1 <= d2 /\ d2 <= 16.
Proof.
  apply (@larger_budget_deeper Example.N Example.remote2 Example.table_eval
           Example.kWinning Example.kThreatening Example.isort Example.ticks 1000
           0 Example.gs0 1 1000 100000 true).
  - reflexivity.
  - lia.
Defined.

(** The move (1,1) reported at depth 4 on the instance. *)
Lemma driver_move_playable_witness :
  0 <= 1 < Example.N /\ 0 <= 1 < Example.N
  /\ getCell Example.N Example.gs0 1 1 = 0
  /\ Example.remote2 Example.gs0 1 1 = false.
Proof.
  apply (@driver_move_playable Example.N Example.remote2 Example.table_eval
           Example.kWinning Example.kThreatening Example.isort Example.ticks 1000
           isort_perm 0 Example.gs0 1 4 1000 true
           (mkReport Example.gs0 (Some 4) (Some (1, 1)) 41 0) 1 1).
  - reflexivity.
  - vm_compute; reflexivity.
  - reflexivity.
Defined.

(** Without pruning the search of the instance returns 22 and (1,0). *)
Lemma search_without_pruning_witness :
  score (Example.search false 4)
  = fst (search_result Example.N Example.remote2 Example.table_eval
           Example.kWinning Example.kThreatening Example.isort Example.gs0 1 4 4)
  /\ written (Example.search false 4)
     = snd (search_result Example.N Example.remote2 Example.table_eval
              Example.kWinning Example.kThreatening Example.isort Example.gs0 1 4 4)
  /\ search_result Example.N Example.remote2 Example.table_eval
       Example.kWinning Example.kThreatening Example.isort Example.gs0 1 4 4
     = (22, Some (1, 0)).
Proof.
  destruct (@search_without_pruning Example.N Example.remote2 Example.table_eval
              Example.kWinning Example.kThreatening Example.isort isort_perm
              0 Example.gs0 1 4 4 full_alpha full_beta) as (H1 & H2 & _).
  split; [exact H1|]. split; [exact H2|]. vm_compute. reflexivity.
Defined.

(** With the budget 1000 the deepening of the instance stops at depth 4
    and reports (1,1), the move of the fixed depth 4. *)
Lemma deepening_agrees_with_fixed_depth_witness :
  exists rep,
    Example.driver Example.gs0 (-1) 1000 = Some rep
    /\ actual_depth rep = Some 4
    /\ move rep = Some (1, 1).
Proof.
  exists (mkReport Example.gs0 (Some 4) (Some (1, 1)) 41 4).
  assert (H : Example.driver Example.gs0 (-1) 1000
              = Some (mkReport Example.gs0 (Some 4) (Some (1, 1)) 41 4))
    by (vm_compute; reflexivity).
  split; [exact H|]. split; [reflexivity|].
  apply (@deepening_agrees_with_fixed_depth Example.N Example.remote2
           Example.table_eval Example.kWinning Example.kThreatening Example.isort
           Example.ticks 1000 0 0 Example.gs0 1 1000 1000 true
           (mkReport Example.gs0 (Some 4) (Some (1, 1)) 41 4)
           (mkReport Example.gs0 (Some 4) (Some (1, 1)) 41 0) 4 (1, 1)).
  - reflexivity.
  - exact H.
  - reflexivity.
  - vm_compute; reflexivity.
  - reflexivity.
Defined.

(** With the winning threshold 30, the move (1,0) of the instance, of
    value 37, is taken at once. *)
Lemma winning_move_taken_witness :
  exists top,
    In top (Example.moves Example.gs0 1)
    /\ score (heuristicNegamax Example.N Example.remote2 Example.table_eval 30
                Example.kThreatening Example.isort 0 Example.gs0 1 4 4 true
                full_alpha full_beta)
       = Move.heuristic_val top
    /\ node_count (heuristicNegamax Example.N Example.remote2 Example.table_eval 30
                     Example.kThreatening Example.isort 0 Example.gs0 1 4 4 true
                     full_alpha full_beta)
       = 0 + 1.
Proof.
  destruct (@winning_move_taken Example.N Example.remote2 Example.table_eval 30
              Example.kThreatening Example.isort isort_sorted
              0 Example.gs0 1 4 3 true full_alpha full_beta (Move.mk 1 0 37 0))
    as (top & Hin & _ & Hs & _ & _ & Hn & _).
  - vm_compute. left. reflexivity.
  - vm_compute. discriminate.
  - exists top. split; [exact Hin|]. split; [exact Hs|exact Hn].
Defined.

(** With the threatening threshold 3, the opponent's best move (2,1), of
    value 4, heads the candidates of the instance. *)
Lemma threat_detection_witness :
  threatened 3 (Example.moves Example.gs0 2) = true
  /\ exists otop rest,
       In otop (Example.moves Example.gs0 2)
       /\ candidates Example.table_eval 3 Example.gs0 1 4 4
                     (Example.moves Example.gs0 1) (Example.moves Example.gs0 2)
          = Move.mk (Move.r otop) (Move.c otop)
                    (Example.table_eval Example.gs0 (Move.r otop) (Move.c otop) 1)
                    (Move.actual_score otop) :: rest.
Proof.
  assert (Ht : threatened 3 (Example.moves Example.gs0 2) = true)
    by (vm_compute; reflexivity).
  split; [exact Ht|].
  destruct (@threat_detection Example.N Example.remote2 Example.table_eval 3
              Example.isort isort_sorted Example.gs0 1 4 4) as (_ & H & _).
  destruct (H Ht) as (otop & rest & Hin & _ & Hc).
  exists otop, rest. split; [exact Hin|exact Hc].
Defined.
